(** * Langyage: the recursive-descent AST builder and the assembler helpers

    A shallow embedding of
    - [Recursive_parser/src/recursive_parser_secondary.cpp]: the parser
      functions [get_scope], [get_cmd], [get_cond], [get_ass], [get_num],
      [get_add], [get_mul], [get_par], [get_id], [get_pow] and
      [get_scope_end], over an explicit store of tree nodes;
    - [CPU/CPU/Assembler/src/assembler_additional.h]: the constants, the
      [FREAD_CHECK] / [FWRITE_CHECK] macros, and the buffer operations, the
      passes and the file functions the header declares.  *)

From Stdlib Require Import Floats.PrimFloat NArith ZArith Lia.
From Stdlib.Strings Require Import Byte.
From stdpp Require Import base strings numbers list vector.

Module Parser.

(** ** Data *)

(** The header [recursive_parser_secondary.h] is not part of the sources at
    hand.  The enumerators below are the ones the parser uses: [CUR_TYPE] is
    compared with [OCBR], [CCBR], [KWD], [SMC], [OBR], [CBR], [NUM], [OP];
    nodes are tested against and set to [SCS]; the [CR_SCE] and [CR_VAR]
    creators name the two remaining tags. *)
Inductive Node_type :=
  | NUM | OP | VAR | KWD | SMC | OBR | CBR | OCBR | CCBR | SCS | SCE.

Inductive Ops := ASS | ADD | SUB | MUL | DIV | POW.

#[global] Instance Node_type_eq_dec : EqDecision Node_type.
Proof. solve_decision. Defined.

#[global] Instance Ops_eq_dec : EqDecision Ops.
Proof. solve_decision. Defined.

(** [btr_elem_t] is printed with [%lf]: a double. *)
Definition btr_elem_t := float.
Bind Scope float_scope with btr_elem_t.

(** A token: its type and its [value] union, one field for each member of
    the union.  A token holds the member of its type: a [NUM] token its
    number, an [OP] token its operator, a [VAR] or [KWD] token its name.  The
    parser reads the number of a [NUM] token and the operator of an [OP]
    token only, and [value.var_value] of whatever token is current
    ([get_id], see [read_var_value]): the field [var_value] of a [NUM] or
    [OP] token is never read.  What the union of the other tokens (braces,
    parentheses, the semicolon) holds is not fixed by the sources at hand; it
    is taken for a name. *)
Record Token := mkToken {
  tok_type  : Node_type;
  num_value : btr_elem_t;
  var_value : string;
  op_value  : Ops
}.

(** The payload of a tree node. *)
Inductive Node_value :=
  | Num_val (x : btr_elem_t)
  | Var_val (name : string)
  | Op_val (op : Ops)
  | No_val.

(** Pointers to tree nodes: [None] is the null pointer, [Some a] the address
    of the [a]-th allocated node. *)
Definition addr := nat.
Definition ptr := option addr.
Abbreviation NULL := (@None addr) (only parsing).

Record B_tree_node := mkNode {
  type  : Node_type;
  value : Node_value;
  left  : ptr;
  right : ptr
}.

Definition set_type (n : B_tree_node) (t : Node_type) : B_tree_node :=
  mkNode t (value n) (left n) (right n).
Definition set_left (n : B_tree_node) (p : ptr) : B_tree_node :=
  mkNode (type n) (value n) p (right n).
Definition set_right (n : B_tree_node) (p : ptr) : B_tree_node :=
  mkNode (type n) (value n) (left n) p.

(** ** Parser state

    The globals of the translation unit: the token cursor [id], the static
    counter [sce_debt] (a [size_t], 64 bits wide) and the store of the nodes
    allocated so far. *)
Record state := mkState {
  id       : nat;
  sce_debt : N;
  heap     : list B_tree_node
}.

Definition size_max : N := 2 ^ 64.

(** The result of running a piece of the parser: it returns a value and a new
    state, or it runs into undefined behaviour (a null or dangling pointer is
    dereferenced, the token array is read past its end, the number or the
    operator of a token is printed as a name), or the model's fuel is used
    up. *)
Inductive outcome (A : Type) :=
  | Ret (a : A) (s : state)
  | Fault
  | OutOfFuel.
Arguments Ret {A} a s.
Arguments Fault {A}.
Arguments OutOfFuel {A}.

Definition M (A : Type) := state → outcome A.

Definition ret {A} (a : A) : M A := fun s => Ret a s.
Definition bind {A B} (m : M A) (k : A → M B) : M B :=
  fun s => match m s with
           | Ret a s' => k a s'
           | Fault => Fault
           | OutOfFuel => OutOfFuel
           end.
Definition fault {A} : M A := fun _ => Fault.
Definition out_of_fuel {A} : M A := fun _ => OutOfFuel.

Notation "x <- m ;; k" := (bind m (fun x => k))
  (at level 100, m at next level, right associativity).
Notation "m ;; k" := (bind m (fun _ => k))
  (at level 100, right associativity).

(** *** Store operations *)

Definition load (p : ptr) : M B_tree_node := fun s =>
  match p with
  | None => Fault
  | Some a => match heap s !! a with
              | Some n => Ret n s
              | None => Fault
              end
  end.

Definition store (p : ptr) (f : B_tree_node → B_tree_node) : M unit := fun s =>
  match p with
  | None => Fault
  | Some a => match heap s !! a with
              | Some n => Ret tt (mkState (id s) (sce_debt s) (<[a := f n]> (heap s)))
              | None => Fault
              end
  end.

(** Node creation: a fresh node is appended to the store. *)
Definition create_node (t : Node_type) (v : Node_value) (l r : ptr) : M ptr :=
  fun s => Ret (Some (length (heap s)))
               (mkState (id s) (sce_debt s) (heap s ++ [mkNode t v l r])).

(** Modelled from the spec: the [CR_*] node creators are macros of the absent
    header; each allocates one node of the kind its name says, holding the
    given payload and children (an assignment is the operator node of
    [ASS]). *)
Definition CR_SCS (l r : ptr) : M ptr := create_node SCS No_val l r.
Definition CR_SCE (l r : ptr) : M ptr := create_node SCE No_val l r.
Definition CR_SMC (l r : ptr) : M ptr := create_node SMC No_val l r.
Definition CR_KWD (name : string) (l r : ptr) : M ptr :=
  create_node KWD (Var_val name) l r.
Definition CR_VAR (name : string) (l r : ptr) : M ptr :=
  create_node VAR (Var_val name) l r.
Definition CR_NUM (x : btr_elem_t) (l r : ptr) : M ptr :=
  create_node NUM (Num_val x) l r.
Definition CR_OP (op : Ops) (l r : ptr) : M ptr :=
  create_node OP (Op_val op) l r.
Definition CR_ASS (l r : ptr) : M ptr := create_node OP (Op_val ASS) l r.

(** [node->value.var_value] *)
Definition node_var_value (p : ptr) : M string :=
  n <- load p ;;
  match value n with
  | Var_val name => ret name
  | _ => fault
  end.

(** Modelled from the spec: [PARSE_LOG] is a macro of the absent header; the
    log is a write-only side channel, written by [rec_write_log] of this file
    with [vfprintf].

<<
    char *var_name = tokens->data[id].value.var_value;
    PARSE_LOG("name: %s\n", var_name);
>>
    The union of a [NUM] token holds a number and that of an [OP] token an
    operator: [var_name] is then the bits of the number or operator taken for
    a pointer, and printing what it points to with [%s] is undefined. *)
Definition read_var_value (tok : Token) : M string :=
  match tok_type tok with
  | NUM | OP => fault
  | _ => ret (var_value tok)
  end.

(** *** The globals *)

Definition get_sce_debt : M N := fun s => Ret (sce_debt s) s.
Definition set_sce_debt (d : N) : M unit := fun s =>
  Ret tt (mkState (id s) d (heap s)).
(** [sce_debt++] on a [size_t] *)
Definition incr_sce_debt : M unit := fun s =>
  Ret tt (mkState (id s) ((sce_debt s + 1) mod size_max) (heap s)).
(** [id++] *)
Definition incr_id : M unit := fun s =>
  Ret tt (mkState (S (id s)) (sce_debt s) (heap s)).

Section WithTokens.

(** [tokens->data] *)
Variable tokens : list Token.

(** [tokens->data[id]]: reading past the end of the array is undefined. *)
Definition CUR_TOKEN : M Token := fun s =>
  match tokens !! id s with
  | Some t => Ret t s
  | None => Fault
  end.

Definition CUR_TYPE : M Node_type := t <- CUR_TOKEN ;; ret (tok_type t).
Definition CUR_OP : M Ops := t <- CUR_TOKEN ;; ret (op_value t).
Definition CUR_NUM : M btr_elem_t := t <- CUR_TOKEN ;; ret (num_value t).

(** Modelled from the spec: [SYNTAX_ERROR], [SYNTAX_CHECK], [CHECK_RET] and
    [IS_KWD] are macros of the absent header.  A production whose expected
    token is missing signals the error to its caller, and a caller that gets
    an error back passes it on at once: the functions return a node pointer,
    so the error is the null pointer, and [CHECK_RET (p)] returns it from the
    enclosing function when [p] is null.  [IS_KWD] compares a name with a
    keyword. *)
Definition SYNTAX_ERROR : M ptr := ret NULL.
Definition SYNTAX_CHECK (c : bool) (k : M ptr) : M ptr :=
  if c then k else SYNTAX_ERROR.
Definition CHECK_RET (p : ptr) (k : M ptr) : M ptr :=
  match p with
  | None => ret NULL
  | Some _ => k
  end.
Definition IS_KWD (name kwd : string) : bool := bool_decide (name = kwd).

(** ** [get_scope_end]

<<
    if(root == NULL) return root;
    while(root->right != NULL) root = root->right;
    return root;
>> *)
Fixpoint scope_end_loop (fuel : nat) (root : addr) : M ptr :=
  match fuel with
  | O => out_of_fuel
  | S n =>
      nd <- load (Some root) ;;
      match right nd with
      | None => ret (Some root)
      | Some next => scope_end_loop n next
      end
  end.

Definition get_scope_end (fuel : nat) (root : ptr) : M ptr :=
  match root with
  | None => ret root
  | Some a => scope_end_loop fuel a
  end.

(** ** [get_num] *)
Definition get_num : M ptr :=
  val <- CUR_NUM ;;
  incr_id ;;
  CR_NUM val NULL NULL.

(** ** Paying the debt

    [for(debt_id = 0; debt_id < scope_sce_debt; debt_id++) root = CR_SCE(NULL, root);] *)
Fixpoint pay_scope_debt (times : nat) (root : ptr) : M ptr :=
  match times with
  | O => ret root
  | S k => r <- CR_SCE NULL root ;; pay_scope_debt k r
  end.

(** [for(debt_id = 0; debt_id < sce_debt - 1; debt_id++)
       { cur_node->right = CR_SCE(NULL, NULL); cur_node = cur_node->right; }] *)
Fixpoint extend_sce_chain (times : nat) (cur_node : ptr) : M ptr :=
  match times with
  | O => ret cur_node
  | S k =>
      r <- CR_SCE NULL NULL ;;
      store cur_node (fun n => set_right n r) ;;
      extend_sce_chain k r
  end.

(** The tail of both branches of [get_cmd] (lines 120-139 and 155-174 are the
    same text): the command is hung under [sce_debt] fresh [SCE] nodes, or
    under a [SMC] node when nothing is owed. *)
Definition finish_cmd (cmd : ptr) : M ptr :=
  debt <- get_sce_debt ;;
  if decide (debt = 0%N) then CR_SMC cmd NULL
  else
    cmd_parent <- CR_SCE NULL NULL ;;
    cur_node <- extend_sce_chain (N.to_nat (debt - 1)) cmd_parent ;;
    store cur_node (fun n => set_left n cmd) ;;
    set_sce_debt 0 ;;
    ret cmd_parent.

(** How a [while] loop of [get_cond] ends: it runs to its end, or a
    [CHECK_RET] inside it returns from the function. *)
Inductive loop_exit := Finished | Returned (p : ptr).

(** ** The productions

    One function per source function and one per [while] loop; [fuel] bounds
    the depth of the calls and the number of iterations.  The expression
    productions come first, then the commands, then the scopes. *)
Fixpoint get_add (fuel : nat) : M ptr :=
  match fuel with
  | O => out_of_fuel
  | S n =>
      val <- get_mul n ;;
      CHECK_RET val (get_add_loop n val)
  end

with get_add_loop (fuel : nat) (val : ptr) : M ptr :=
  match fuel with
  | O => out_of_fuel
  | S n =>
      ty <- CUR_TYPE ;;
      go <- (if decide (ty = OP) then
              op <- CUR_OP ;; ret (bool_decide (op = ADD) || bool_decide (op = SUB))
            else ret false) ;;
      if go : bool then
        op <- CUR_OP ;;
        incr_id ;;
        val_2 <- get_mul n ;;
        CHECK_RET val_2 (
          val' <- CR_OP op val val_2 ;;
          get_add_loop n val')
      else ret val
  end

with get_mul (fuel : nat) : M ptr :=
  match fuel with
  | O => out_of_fuel
  | S n =>
      val <- get_pow n ;;
      CHECK_RET val (get_mul_loop n val)
  end

with get_mul_loop (fuel : nat) (val : ptr) : M ptr :=
  match fuel with
  | O => out_of_fuel
  | S n =>
      ty <- CUR_TYPE ;;
      go <- (if decide (ty = OP) then
              op <- CUR_OP ;; ret (bool_decide (op = MUL) || bool_decide (op = DIV))
            else ret false) ;;
      if go : bool then
        op <- CUR_OP ;;
        incr_id ;;
        val_2 <- get_pow n ;;
        CHECK_RET val_2 (
          val' <- CR_OP op val val_2 ;;
          get_mul_loop n val')
      else ret val
  end

with get_pow (fuel : nat) : M ptr :=
  match fuel with
  | O => out_of_fuel
  | S n =>
      val <- get_par n ;;
      CHECK_RET val (get_pow_loop n val)
  end

with get_pow_loop (fuel : nat) (val : ptr) : M ptr :=
  match fuel with
  | O => out_of_fuel
  | S n =>
      ty <- CUR_TYPE ;;
      go <- (if decide (ty = OP) then op <- CUR_OP ;; ret (bool_decide (op = POW))
            else ret false) ;;
      if go : bool then
        incr_id ;;
        val_2 <- get_par n ;;
        CHECK_RET val_2 (
          val' <- CR_OP POW val val_2 ;;
          get_pow_loop n val')
      else ret val
  end

with get_par (fuel : nat) : M ptr :=
  match fuel with
  | O => out_of_fuel
  | S n =>
      ty <- CUR_TYPE ;;
      if decide (ty = OBR) then
        incr_id ;;
        val <- get_add n ;;
        CHECK_RET val (
          ty <- CUR_TYPE ;;
          SYNTAX_CHECK (bool_decide (ty = CBR)) (
            incr_id ;;
            ret val))
      else if decide (ty = NUM) then
        val <- get_num ;;
        CHECK_RET val (ret val)
      else
        val <- get_id n ;;
        CHECK_RET val (ret val)
  end

with get_id (fuel : nat) : M ptr :=
  match fuel with
  | O => out_of_fuel
  | S n =>
      tok <- CUR_TOKEN ;;
      var_name <- read_var_value tok ;;
      ty <- CUR_TYPE ;;
      if decide (ty = KWD) then
        incr_id ;;
        if negb (IS_KWD var_name "while" || IS_KWD var_name "if") then
          ty <- CUR_TYPE ;;
          if decide (ty = OBR) then
            incr_id ;;
            child <- get_add n ;;
            CHECK_RET child (
              ty <- CUR_TYPE ;;
              if decide (ty = CBR) then
                incr_id ;;
                CR_KWD var_name NULL child
              else SYNTAX_ERROR)
          else SYNTAX_ERROR
        else CR_KWD var_name NULL NULL
      else
        incr_id ;;
        CR_VAR var_name NULL NULL
  end.

Definition get_ass (fuel : nat) : M ptr :=
  var <- get_id fuel ;;
  CHECK_RET var (
    ty <- CUR_TYPE ;;
    is_ass <- (if decide (ty = OP) then op <- CUR_OP ;; ret (bool_decide (op = ASS))
              else ret false) ;;
    if is_ass : bool then
      incr_id ;;
      expr <- get_add fuel ;;
      CHECK_RET expr (CR_ASS var expr)
    else SYNTAX_ERROR).

Fixpoint get_cmd (fuel : nat) : M ptr :=
  match fuel with
  | O => out_of_fuel
  | S n =>
      ty <- CUR_TYPE ;;
      if decide (ty = KWD) then
        cmd <- get_cond n ;;
        CHECK_RET cmd (finish_cmd cmd)
      else
        cmd <- get_ass n ;;
        CHECK_RET cmd (
          ty <- CUR_TYPE ;;
          if decide (ty = SMC) then incr_id ;; finish_cmd cmd
          else SYNTAX_ERROR)
  end

with get_cond (fuel : nat) : M ptr :=
  match fuel with
  | O => out_of_fuel
  | S n =>
      kwd <- get_id n ;;
      CHECK_RET kwd (
        name <- node_var_value kwd ;;
        SYNTAX_CHECK (IS_KWD name "while" || IS_KWD name "if") (
          ty <- CUR_TYPE ;;
          if decide (ty = OBR) then
            incr_id ;;
            br_expr <- get_add n ;;
            CHECK_RET br_expr (
              ty <- CUR_TYPE ;;
              if decide (ty = CBR) then
                incr_id ;;
                ty <- CUR_TYPE ;;
                if decide (ty = OCBR) then
                  incr_id ;;
                  root <- get_cmd n ;;
                  e <- get_cond_loop n root ;;
                  match e with
                  | Returned p => ret p
                  | Finished => incr_id ;; CR_KWD name br_expr root
                  end
                else
                  cmd <- get_cmd n ;;
                  CHECK_RET cmd (CR_KWD name br_expr cmd)
              else SYNTAX_ERROR)
          else SYNTAX_ERROR))
  end

with get_cond_loop (fuel : nat) (cur_node : ptr) : M loop_exit :=
  match fuel with
  | O => out_of_fuel
  | S n =>
      ty <- CUR_TYPE ;;
      if decide (ty = CCBR) then ret Finished
      else
        next <- get_cmd n ;;
        store cur_node (fun x => set_right x next) ;;
        match next with
        | None => ret (Returned NULL)
        | Some _ => get_cond_loop n next
        end
  end.

Fixpoint get_scope (fuel : nat) : M ptr :=
  match fuel with
  | O => out_of_fuel
  | S n =>
      ty <- CUR_TYPE ;;
      if decide (ty = OCBR) then
        scope_sce_debt <- get_sce_debt ;;
        set_sce_debt 0 ;;
        incr_id ;;
        root <- get_scope n ;;
        CHECK_RET root (
          get_scope_loop n root ;;
          incr_sce_debt ;;
          incr_id ;;
          rn <- load root ;;
          root' <- (if decide (type rn = SCS) then CR_SCS NULL root
                   else store root (fun x => set_type x SCS) ;; ret root) ;;
          pay_scope_debt (N.to_nat scope_sce_debt) root')
      else
        root <- get_cmd n ;;
        CHECK_RET root (ret root)
  end

with get_scope_loop (fuel : nat) (cur_node : ptr) : M unit :=
  match fuel with
  | O => out_of_fuel
  | S n =>
      ty <- CUR_TYPE ;;
      if decide (ty = CCBR) then ret tt
      else
        scope_end <- get_scope_end n cur_node ;;
        sub <- get_scope n ;;
        store scope_end (fun x => set_right x sub) ;;
        cn <- load cur_node ;;
        get_scope_loop n (right cn)
  end.

End WithTokens.

(** ** Reading a tree out of the store *)

Inductive tree :=
  | Leaf
  | Node (t : Node_type) (v : Node_value) (l r : tree).

(** [repr h p t]: in the store [h] the pointer [p] is the root of the tree
    [t] (the null pointer is the empty tree). *)
Inductive repr (h : list B_tree_node) : ptr → tree → Prop :=
  | repr_null : repr h NULL Leaf
  | repr_node a n tl tr :
      h !! a = Some n →
      repr h (left n) tl →
      repr h (right n) tr →
      repr h (Some a) (Node (type n) (value n) tl tr).

(** The same, as a function: [depth] bounds the height of the tree read. *)
Fixpoint tree_of (depth : nat) (h : list B_tree_node) (p : ptr) : option tree :=
  match depth with
  | O => None
  | S d =>
      match p with
      | None => Some Leaf
      | Some a =>
          match h !! a with
          | None => None
          | Some n =>
              match tree_of d h (left n), tree_of d h (right n) with
              | Some tl, Some tr => Some (Node (type n) (value n) tl tr)
              | _, _ => None
              end
          end
      end
  end.

(** The number of [SCE] nodes of a tree. *)
Fixpoint count_SCE (t : tree) : nat :=
  match t with
  | Leaf => 0
  | Node ty _ l r =>
      (if decide (ty = SCE) then 1 else 0) + count_SCE l + count_SCE r
  end.

(** The tokens of the lexer, by kind. *)
Definition tNUM (x : btr_elem_t) : Token := mkToken NUM x "" ASS.
Definition tVAR (name : string) : Token := mkToken VAR 0 name ASS.
Definition tKWD (name : string) : Token := mkToken KWD 0 name ASS.
Definition tOP (op : Ops) : Token := mkToken OP 0 "" op.
Definition tSMC : Token := mkToken SMC 0 "" ASS.
Definition tOBR : Token := mkToken OBR 0 "" ASS.
Definition tCBR : Token := mkToken CBR 0 "" ASS.
Definition tOCBR : Token := mkToken OCBR 0 "" ASS.
Definition tCCBR : Token := mkToken CCBR 0 "" ASS.

(** The state a parse starts from: [id] and [sce_debt] are zero-initialised,
    no node exists yet. *)
Definition initial : state := mkState 0 0 [].

(** [repr_in h lo hi p t]: [repr h p t], and every node of the tree lies at
    an address from [lo] up to, not including, [hi]. *)
Inductive repr_in (h : list B_tree_node) (lo hi : nat) : ptr → tree → Prop :=
  | repr_in_null : repr_in h lo hi NULL Leaf
  | repr_in_node a n tl tr :
      lo ≤ a < hi →
      h !! a = Some n →
      repr_in h lo hi (left n) tl →
      repr_in h lo hi (right n) tr →
      repr_in h lo hi (Some a) (Node (type n) (value n) tl tr).

(** ** Right-linked chains *)

(** [right_chain h a l]: following the [right] links in [h] from the node at
    [a] visits the addresses [l], in this order, and ends at a node without a
    right child. *)
Inductive right_chain (h : list B_tree_node) : addr → list addr → Prop :=
  | right_chain_end a n :
      h !! a = Some n → right n = NULL → right_chain h a [a]
  | right_chain_step a n b l :
      h !! a = Some n → right n = Some b → right_chain h b l →
      right_chain h a (a :: l).

(** [spine h lo e p t]: [p] is the root of [t] in [h], the right links from
    [p] end at the node at [e], and the left subtrees hanging off this chain
    lie below [e]; no node of [t] lies below [lo]. *)
Inductive spine (h : list B_tree_node) (lo : nat) (e : addr) : ptr → tree → Prop :=
  | spine_end n tl :
      lo ≤ e → h !! e = Some n → right n = NULL →
      repr_in h lo e (left n) tl →
      spine h lo e (Some e) (Node (type n) (value n) tl Leaf)
  | spine_step a n tl tr :
      lo ≤ a → a ≠ e → h !! a = Some n →
      repr_in h lo e (left n) tl →
      spine h lo e (right n) tr →
      spine h lo e (Some a) (Node (type n) (value n) tl tr).

(** The number of nodes on the right spine of a tree. *)
Fixpoint spine_len (t : tree) : nat :=
  match t with
  | Leaf => 0
  | Node _ _ _ r => S (spine_len r)
  end.

(** [attach_end t x]: [t] with [x] hung at the end of its right spine. *)
Fixpoint attach_end (t x : tree) : tree :=
  match t with
  | Leaf => x
  | Node ty v l r => Node ty v l (attach_end r x)
  end.

(** ** The debt *)

(** The nodes [pay_scope_debt] adds on top of [root], given the address
    [base] of the first of them. *)
Fixpoint sce_stack (base : nat) (root : ptr) (times : nat) : list B_tree_node :=
  match times with
  | O => []
  | S k => mkNode SCE No_val NULL root :: sce_stack (S base) (Some base) k
  end.

(** [sce_path h p k q]: from [p], [k] steps along [right] links, each from a
    [SCE] node without a left child, lead to the node at [q]. *)
Inductive sce_path (h : list B_tree_node) : ptr → nat → addr → Prop :=
  | sce_path_O q : sce_path h (Some q) 0 q
  | sce_path_S a n k q :
      h !! a = Some n → type n = SCE → left n = NULL →
      sce_path h (right n) k q → sce_path h (Some a) (S k) q.

(** [times] deferred continuation nodes on top of a tree. *)
Fixpoint sce_wrap (times : nat) (t : tree) : tree :=
  match times with
  | O => t
  | S k => Node SCE No_val Leaf (sce_wrap k t)
  end.

(** [advances s s']: from [s] to [s'] the cursor has not moved back, and the
    debt has grown by no more than the number of tokens consumed. *)
Definition advances (s s' : state) : Prop :=
  id s ≤ id s'
  ∧ (sce_debt s' + N.of_nat (id s) ≤ sce_debt s + N.of_nat (id s'))%N.

Definition preserves {A} (m : M A) : Prop :=
  ∀ s a s', m s = Ret a s' → advances s s'.

(** [le_fuel m1 m2]: wherever [m1] does not run out of fuel, [m2] does the
    same as [m1]. *)
Definition le_fuel {A} (m1 m2 : M A) : Prop :=
  ∀ s, m1 s = OutOfFuel ∨ m1 s = m2 s.

(** ** Source text

    Expressions without parentheses over numbers and identifiers, assignment
    statements, and scopes of one statement, with the tokens the lexer makes
    of them and the trees they stand for. *)
Inductive atom := ANum (x : btr_elem_t) | AVar (name : string).
Inductive add_op := Plus | Minus.
Inductive mul_op := Times | Divide.
Definition add_Ops (o : add_op) : Ops := match o with Plus => ADD | Minus => SUB end.
Definition mul_Ops (o : mul_op) : Ops := match o with Times => MUL | Divide => DIV end.

(** [a ^ a ^ ...], [p * p / ...], [t + t - ...] *)
Definition power : Type := atom * list atom.
Definition term : Type := power * list (mul_op * power).
Definition expr : Type := term * list (add_op * term).

Definition atom_token (a : atom) : Token :=
  match a with ANum x => tNUM x | AVar name => tVAR name end.
Definition atom_node (a : atom) : B_tree_node :=
  match a with
  | ANum x => mkNode NUM (Num_val x) NULL NULL
  | AVar name => mkNode VAR (Var_val name) NULL NULL
  end.
Definition atom_tree (a : atom) : tree :=
  match a with
  | ANum x => Node NUM (Num_val x) Leaf Leaf
  | AVar name => Node VAR (Var_val name) Leaf Leaf
  end.

Definition pow_tail_tokens (xs : list atom) : list Token :=
  flat_map (fun x => [tOP POW; atom_token x]) xs.
Definition pow_tail_tree (xs : list atom) (t : tree) : tree :=
  fold_left (fun acc x => Node OP (Op_val POW) acc (atom_tree x)) xs t.
Definition power_tokens (p : power) : list Token :=
  atom_token (fst p) :: pow_tail_tokens (snd p).
Definition power_tree (p : power) : tree :=
  pow_tail_tree (snd p) (atom_tree (fst p)).

Definition mul_tail_tokens (ps : list (mul_op * power)) : list Token :=
  flat_map (fun op => tOP (mul_Ops (fst op)) :: power_tokens (snd op)) ps.
Definition mul_tail_tree (ps : list (mul_op * power)) (t : tree) : tree :=
  fold_left (fun acc op => Node OP (Op_val (mul_Ops (fst op))) acc (power_tree (snd op))) ps t.
Definition term_tokens (t : term) : list Token :=
  power_tokens (fst t) ++ mul_tail_tokens (snd t).
Definition term_tree (t : term) : tree :=
  mul_tail_tree (snd t) (power_tree (fst t)).

Definition add_tail_tokens (ts : list (add_op * term)) : list Token :=
  flat_map (fun ot => tOP (add_Ops (fst ot)) :: term_tokens (snd ot)) ts.
Definition add_tail_tree (ts : list (add_op * term)) (t : tree) : tree :=
  fold_left (fun acc ot => Node OP (Op_val (add_Ops (fst ot))) acc (term_tree (snd ot))) ts t.
Definition expr_tokens (e : expr) : list Token :=
  term_tokens (fst e) ++ add_tail_tokens (snd e).
Definition expr_tree (e : expr) : tree :=
  add_tail_tree (snd e) (term_tree (fst e)).

(** [name = e ;] *)
Definition assignment : Type := string * expr.
Definition ass_tokens (c : assignment) : list Token :=
  tVAR (fst c) :: tOP ASS :: expr_tokens (snd c).
Definition ass_tree (c : assignment) : tree :=
  Node OP (Op_val ASS) (Node VAR (Var_val (fst c)) Leaf Leaf) (expr_tree (snd c)).
Definition cmd_tokens (c : assignment) : list Token := ass_tokens c ++ [tSMC].

(** [{ name = e ; }]: a scope that closes with no statement after it. *)
Definition sub_scope_tokens (c : assignment) : list Token :=
  tOCBR :: cmd_tokens c ++ [tCCBR].
(** The tree [get_scope] builds for it when [debt] closures are owed. *)
Definition sub_scope_tree (debt : nat) (c : assignment) : tree :=
  sce_wrap debt (Node SCS No_val (ass_tree c) Leaf).

(** [{ { c1 } { c2 } ... { ck } }] *)
Definition scope_tokens (cs : list assignment) : list Token :=
  tOCBR :: flat_map sub_scope_tokens cs ++ [tCCBR].
(** The chain of the sub-scopes: the first was entered with no debt, each
    later one with the debt of the one closed before it. *)
Definition scope_chain (c : assignment) (cs : list assignment) : tree :=
  fold_left (fun acc c' => attach_end acc (sub_scope_tree 1 c')) cs (sub_scope_tree 0 c).
(** The tree of the enclosing scope, entered with the debt [debt]. *)
Definition scope_tree (debt : nat) (c : assignment) (cs : list assignment) : tree :=
  sce_wrap debt (Node SCS No_val Leaf (scope_chain c cs)).

(** Lookahead: whether a token is the operator [o], and the tokens at which
    the loops of [get_pow], [get_mul] and [get_add] stop. *)
Definition is_op (o : Ops) (t : Token) : bool :=
  bool_decide (tok_type t = OP) && bool_decide (op_value t = o).
Definition stop_pow (t : Token) : bool := negb (is_op POW t).
Definition stop_mul (t : Token) : bool :=
  negb (is_op MUL t || is_op DIV t) && stop_pow t.
Definition stop_add (t : Token) : bool :=
  negb (is_op ADD t || is_op SUB t) && stop_mul t.

(** The operands a loop of [get_mul] or [get_add] takes after the first: the
    operator, the tokens and the tree of each. *)
Definition tail_tokens (items : list (Ops * (list Token * tree))) : list Token :=
  flat_map (fun it => tOP (fst it) :: fst (snd it)) items.
Definition tail_tree (items : list (Ops * (list Token * tree))) (t : tree) : tree :=
  fold_left (fun acc it => Node OP (Op_val (fst it)) acc (snd (snd it))) items t.
Definition mul_item (op : mul_op * power) : Ops * (list Token * tree) :=
  (mul_Ops (fst op), (power_tokens (snd op), power_tree (snd op))).
Definition add_item (ot : add_op * term) : Ops * (list Token * tree) :=
  (add_Ops (fst ot), (term_tokens (snd ot), term_tree (snd ot))).

(** [parses tokens f c stop seg t]: with [c] units of fuel more than [seg]
    has tokens, [f] consumes exactly the tokens [seg] (when a token accepted
    by [stop] follows them), leaves the debt alone, only adds nodes to the
    store, and returns the root of [t], built from the added nodes. *)
Definition parses (tokens : list Token) (f : nat → M ptr) (c : nat)
    (stop : Token → bool) (seg : list Token) (t : tree) : Prop :=
  ∀ fuel s nxt rest,
    drop (id s) tokens = seg ++ nxt :: rest →
    stop nxt = true →
    length seg + c ≤ fuel →
    ∃ p h',
      f fuel s = Ret (Some p) (mkState (id s + length seg) (sce_debt s) (heap s ++ h'))
      ∧ repr_in (heap s ++ h') (length (heap s)) (length (heap s ++ h')) (Some p) t.

(** The same for a loop that extends the tree [tv] of what was parsed
    before. *)
Definition continues (tokens : list Token) (f : nat → ptr → M ptr) (c : nat)
    (stop : Token → bool) (seg : list Token) (g : tree → tree) : Prop :=
  ∀ fuel s lo v tv nxt rest,
    drop (id s) tokens = seg ++ nxt :: rest →
    stop nxt = true →
    length seg + c ≤ fuel →
    repr_in (heap s) lo (length (heap s)) (Some v) tv →
    ∃ p h',
      f fuel (Some v) s
      = Ret (Some p) (mkState (id s + length seg) (sce_debt s) (heap s ++ h'))
      ∧ repr_in (heap s ++ h') lo (length (heap s ++ h')) (Some p) (g tv).

(** ** Evaluation

    Modelled from the spec: the numeric evaluation of an expression tree; the
    sources hold no evaluator.  The power function of the C library is a
    parameter. *)
Section Eval.

Variable pow : btr_elem_t → btr_elem_t → btr_elem_t.
Variable env : string → btr_elem_t.

Definition eval_op (op : Ops) (a b : btr_elem_t) : option btr_elem_t :=
  match op with
  | ADD => Some (a + b)%float
  | SUB => Some (a - b)%float
  | MUL => Some (a * b)%float
  | DIV => Some (a / b)%float
  | POW => Some (pow a b)
  | ASS => None
  end.

Fixpoint eval (t : tree) : option btr_elem_t :=
  match t with
  | Node NUM (Num_val x) _ _ => Some x
  | Node VAR (Var_val name) _ _ => Some (env name)
  | Node OP (Op_val op) l r =>
      match eval l, eval r with
      | Some a, Some b => eval_op op a b
      | _, _ => None
      end
  | _ => None
  end.

End Eval.

(** Whether an operator node with an operator accepted by [P] occurs in a
    tree. *)
Fixpoint has_op (P : Ops → bool) (t : tree) : bool :=
  match t with
  | Leaf => false
  | Node _ v l r =>
      match v with Op_val o => P o | _ => false end || has_op P l || has_op P r
  end.

Definition additive (o : Ops) : bool := bool_decide (o = ADD) || bool_decide (o = SUB).
Definition multiplicative (o : Ops) : bool := bool_decide (o = MUL) || bool_decide (o = DIV).

(** [binds_tighter t]: no operand of a multiplicative operator of [t] holds an
    additive operator. *)
Fixpoint binds_tighter (t : tree) : bool :=
  match t with
  | Leaf => true
  | Node _ v l r =>
      binds_tighter l && binds_tighter r
      && match v with
         | Op_val o =>
             if multiplicative o then negb (has_op additive l || has_op additive r)
             else true
         | _ => true
         end
  end.

(** ** Sample inputs *)

(** [2 + 3 * 4] *)
Definition two_plus_three_times_four : expr :=
  (((ANum 2, []), []), [(Plus, ((ANum 3, []), [(Times, (ANum 4, []))]))]).

(** [2 ^ 3 ^ 2] *)
Definition two_pow_three_pow_two : power := (ANum 2, [ANum 3; ANum 2]).

(** [a = 1 ;] and [b = 2 * 3 ;] *)
Definition a_is_one : assignment := ("a", (((ANum 1, []), []), [])).
Definition b_is_six : assignment :=
  ("b", (((ANum 2, []), [(Times, (ANum 3, []))]), [])).

(** [{ { a = 1 ; } }]: one sub-scope that closes with no statement after it. *)
Definition one_sub_scope : list Token := scope_tokens [a_is_one].

(** [{ { a = 1 ; } { b = 2 * 3 ; } }]: two of them. *)
Definition two_sub_scopes : list Token := scope_tokens [a_is_one; b_is_six].

(** [{ { a = 1 ; } }] and a token after it, parsed with a debt of two. *)
Definition scope_in_scope : list Token :=
  [tOCBR; tOCBR; tVAR "a"; tOP ASS; tNUM 1; tSMC; tCCBR; tCCBR; tSMC].

(** Three nodes linked 0 -> 2 -> 1, and a node that is not on the chain. *)
Definition three_linked : list B_tree_node :=
  [mkNode SCS No_val NULL (Some 2); mkNode SMC No_val (Some 3) NULL;
   mkNode SCE No_val NULL (Some 1); mkNode NUM (Num_val 1) NULL NULL].

(** [{ x = 1 ; y = 2 }]: the semicolon of the second statement is missing. *)
Definition missing_semicolon : list Token :=
  [tOCBR; tVAR "x"; tOP ASS; tNUM 1; tSMC; tVAR "y"; tOP ASS; tNUM 2; tCCBR].

(** [if ( x ) { y = 2 }]: the same inside the body of a condition. *)
Definition missing_semicolon_in_cond : list Token :=
  [tKWD "if"; tOBR; tVAR "x"; tCBR; tOCBR; tVAR "y"; tOP ASS; tNUM 2; tCCBR; tSMC].

(** ** Progress *)

(** [consumes m]: a run of [m] that returns has moved the cursor forward. *)
Definition consumes {A} (m : M A) : Prop :=
  ∀ s a s', m s = Ret a s' → id s < id s'.

(** The tokens whose [value] union [get_id] reads as a name (see
    [read_var_value]), and the identifiers, which hold one. *)
Definition reads_name (t : Token) : Prop := tok_type t ≠ NUM ∧ tok_type t ≠ OP.
Definition is_var (t : Token) : Prop := tok_type t = VAR.

(** ** The language of the expression productions

    What [get_add], [get_mul], [get_pow], [get_par] and [get_id] accept, as a
    grammar over the tokens, with the tree each sentence stands for.  Every
    rule is a path through the production of its name: an operator loop
    takes one more operand ([g_add_op], [g_mul_op], [g_pow_op]) or the
    production passes on what the one below has parsed; [get_par] tells a
    parenthesis and a number from anything else, which it leaves to
    [get_id]; [get_id] tells a keyword from anything else, which it takes
    for a variable.  The grammar is given for the tokens [is_name] that
    stand for variables: with [reads_name] it is all that the productions
    accept, with [is_var] the sentences whose variables are identifiers. *)
Section ExpressionGrammar.
Variable is_name : Token → Prop.

Inductive g_add : list Token → tree → Prop :=
  | g_add_mul toks t : g_mul toks t → g_add toks t
  | g_add_op toks1 t1 k toks2 t2 :
      g_add toks1 t1 →
      tok_type k = OP → additive (op_value k) = true →
      g_mul toks2 t2 →
      g_add (toks1 ++ k :: toks2) (Node OP (Op_val (op_value k)) t1 t2)
with g_mul : list Token → tree → Prop :=
  | g_mul_pow toks t : g_pow toks t → g_mul toks t
  | g_mul_op toks1 t1 k toks2 t2 :
      g_mul toks1 t1 →
      tok_type k = OP → multiplicative (op_value k) = true →
      g_pow toks2 t2 →
      g_mul (toks1 ++ k :: toks2) (Node OP (Op_val (op_value k)) t1 t2)
with g_pow : list Token → tree → Prop :=
  | g_pow_par toks t : g_par toks t → g_pow toks t
  | g_pow_op toks1 t1 k toks2 t2 :
      g_pow toks1 t1 →
      tok_type k = OP → op_value k = POW →
      g_par toks2 t2 →
      g_pow (toks1 ++ k :: toks2) (Node OP (Op_val POW) t1 t2)
with g_par : list Token → tree → Prop :=
  | g_par_br o toks t c :
      tok_type o = OBR → g_add toks t → tok_type c = CBR →
      g_par (o :: toks ++ [c]) t
  | g_par_num k :
      tok_type k = NUM →
      g_par [k] (Node NUM (Num_val (num_value k)) Leaf Leaf)
  | g_par_id k toks t :
      tok_type k ≠ OBR → tok_type k ≠ NUM →
      g_id (k :: toks) t →
      g_par (k :: toks) t
with g_id : list Token → tree → Prop :=
  | g_id_call k o toks t c :
      tok_type k = KWD →
      IS_KWD (var_value k) "while" || IS_KWD (var_value k) "if" = false →
      tok_type o = OBR → g_add toks t → tok_type c = CBR →
      g_id (k :: o :: toks ++ [c]) (Node KWD (Var_val (var_value k)) Leaf t)
  | g_id_kwd k :
      tok_type k = KWD →
      IS_KWD (var_value k) "while" || IS_KWD (var_value k) "if" = true →
      g_id [k] (Node KWD (Var_val (var_value k)) Leaf Leaf)
  | g_id_var k :
      tok_type k ≠ KWD → is_name k →
      g_id [k] (Node VAR (Var_val (var_value k)) Leaf Leaf).

Scheme g_add_mut := Minimality for g_add Sort Prop
  with g_mul_mut := Minimality for g_mul Sort Prop
  with g_pow_mut := Minimality for g_pow Sort Prop
  with g_par_mut := Minimality for g_par Sort Prop
  with g_id_mut := Minimality for g_id Sort Prop.
Combined Scheme g_mutind from g_add_mut, g_mul_mut, g_pow_mut, g_par_mut, g_id_mut.

End ExpressionGrammar.

(** Whether a token is an operator that [accept] takes. *)
Definition accepts (accept : Ops → bool) (k : Token) : bool :=
  bool_decide (tok_type k = OP) && accept (op_value k).
Definition is_pow (o : Ops) : bool := bool_decide (o = POW).
Definition stop_any (_ : Token) : bool := true.

(** [reads tokens f c stop toks t]: with [c] units of fuel more than four
    times the length of [toks], [f] consumes exactly [toks] (when a token
    accepted by [stop] follows), leaves the debt alone, only adds nodes to
    the store, and returns the root of [t], built from the added nodes. *)
Definition reads (tokens : list Token) (f : nat → M ptr) (c : nat)
    (stop : Token → bool) (toks : list Token) (t : tree) : Prop :=
  ∀ fuel s nxt rest,
    drop (id s) tokens = toks ++ nxt :: rest →
    stop nxt = true →
    4 * length toks + c ≤ fuel →
    ∃ p h',
      f fuel s = Ret (Some p) (mkState (id s + length toks) (sce_debt s) (heap s ++ h'))
      ∧ repr_in (heap s ++ h') (length (heap s)) (length (heap s ++ h')) (Some p) t.

(** [reaches tokens F L c stop toks t]: having consumed [toks], the
    production [F] is in its loop [L] with the root of [t] for the value
    parsed so far, and has used as much fuel as it has gone around the loop,
    and one. *)
Definition reaches (tokens : list Token) (F : nat → M ptr) (L : nat → ptr → M ptr)
    (c : nat) (stop : Token → bool) (toks : list Token) (t : tree) : Prop :=
  ∃ d, 1 ≤ d ≤ length toks ∧
    ∀ fuel s nxt rest,
      drop (id s) tokens = toks ++ nxt :: rest →
      stop nxt = true →
      4 * length toks + c ≤ fuel →
      ∃ p h',
        F fuel s
        = L (fuel - d) (Some p)
            (mkState (id s + length toks) (sce_debt s) (heap s ++ h'))
        ∧ repr_in (heap s ++ h') (length (heap s)) (length (heap s ++ h')) (Some p) t.

(** [sound tokens G m]: whatever [m] returns a tree for is a sentence of [G]
    with this tree; the debt is left alone and the store only grows. *)
Definition sound (tokens : list Token) (G : list Token → tree → Prop) (m : M ptr) : Prop :=
  ∀ s p s',
    m s = Ret (Some p) s' →
    ∃ toks rest t h',
      drop (id s) tokens = toks ++ rest
      ∧ G toks t
      ∧ s' = mkState (id s + length toks) (sce_debt s) (heap s ++ h')
      ∧ repr_in (heap s ++ h') (length (heap s)) (length (heap s ++ h')) (Some p) t.

(** The same for a loop that is entered with the tree [tv] of the sentence
    [toks0] parsed before. *)
Definition sound_loop (tokens : list Token) (G : list Token → tree → Prop)
    (L : ptr → M ptr) : Prop :=
  ∀ s v p s' lo toks0 tv,
    L (Some v) s = Ret (Some p) s' →
    G toks0 tv →
    repr_in (heap s) lo (length (heap s)) (Some v) tv →
    ∃ toks1 rest t h',
      drop (id s) tokens = toks1 ++ rest
      ∧ G (toks0 ++ toks1) t
      ∧ s' = mkState (id s + length toks1) (sce_debt s) (heap s ++ h')
      ∧ repr_in (heap s ++ h') lo (length (heap s ++ h')) (Some p) t.

(** ** Fuel

    [runs tokens N c m]: from a state with [r] tokens left to read, [m] does
    not run out of fuel when the productions it calls are given [N] units
    and [4 * r + c] is at most [N]. *)
Definition runs {A} (tokens : list Token) (N c : nat) (m : M A) : Prop :=
  ∀ s, 4 * (length tokens - id s) + c ≤ N → m s ≠ OutOfFuel.

(** The same from a state whose current token has been read. *)
Definition runs_at {A} (tokens : list Token) (N c : nat) (m : M A) : Prop :=
  ∀ s, id s < length tokens → 4 * (length tokens - id s) + c ≤ N → m s ≠ OutOfFuel.

(** [reads_first tokens m]: a run of [m] that returns has read the token it
    started at. *)
Definition reads_first {A} (tokens : list Token) (m : M A) : Prop :=
  ∀ s a s', m s = Ret a s' → id s < length tokens.

(** [steady m]: [m] uses no fuel and leaves the cursor where it is. *)
Definition steady {A} (m : M A) : Prop :=
  ∀ s, m s ≠ OutOfFuel ∧ ∀ a s', m s = Ret a s' → id s' = id s.

(** ** A command under the debt *)

(** [sce_links base times last]: the nodes [get_cmd] makes when it pays the
    debt: [times] [SCE] nodes from the address [base] on, each linked to the
    next by [right], and then the node [last]. *)
Fixpoint sce_links (base times : nat) (last : B_tree_node) : list B_tree_node :=
  match times with
  | O => [last]
  | S k => mkNode SCE No_val NULL (Some (S base)) :: sce_links (S base) k last
  end.

(** The tree of a command at the end of a chain of [SCE] nodes, [k] nodes
    before the one that holds it. *)
Fixpoint sce_chain (k : nat) (cmd : tree) : tree :=
  match k with
  | O => Node SCE No_val cmd Leaf
  | S k' => Node SCE No_val Leaf (sce_chain k' cmd)
  end.

(** What [get_cmd] returns for a command when [debt] closures are owed. *)
Definition cmd_tree (debt : nat) (cmd : tree) : tree :=
  match debt with
  | O => Node SMC No_val cmd Leaf
  | S k => sce_chain k cmd
  end.

(** [target = e] *)
Definition assign_tree (target : Token) (e : tree) : tree :=
  Node OP (Op_val ASS) (Node VAR (Var_val (var_value target)) Leaf Leaf) e.

(** ** Statements

    The commands [get_cmd] accepts when nothing is owed: an assignment, and
    [while] or [if] with a condition in parentheses and a body, which is one
    command or, in braces, a sequence of commands.  [get_cond] tells the two
    bodies apart by the token after the parenthesis, and its loop ends at the
    first command that starts with a closing brace.  Every command is a [SMC]
    node that holds the command on the left; the commands of a braced body
    are linked by [right]. *)
Definition head_type (toks : list Token) : option Node_type := tok_type <$> head toks.

Section StatementGrammar.
Variable is_name : Token → Prop.

Inductive g_cmd : list Token → tree → Prop :=
  | g_cmd_ass k a toks t c :
      tok_type k ≠ KWD → is_name k → tok_type a = OP → op_value a = ASS →
      g_add is_name toks t →
      tok_type c = SMC →
      g_cmd (k :: a :: toks ++ [c]) (Node SMC No_val (assign_tree k t) Leaf)
  | g_cmd_one k o toks t c body tb :
      tok_type k = KWD →
      IS_KWD (var_value k) "while" || IS_KWD (var_value k) "if" = true →
      tok_type o = OBR → g_add is_name toks t → tok_type c = CBR →
      head_type body ≠ Some OCBR → g_cmd body tb →
      g_cmd (k :: o :: toks ++ c :: body)
        (Node SMC No_val (Node KWD (Var_val (var_value k)) t tb) Leaf)
  | g_cmd_braces k o toks t c ob body tb cb :
      tok_type k = KWD →
      IS_KWD (var_value k) "while" || IS_KWD (var_value k) "if" = true →
      tok_type o = OBR → g_add is_name toks t → tok_type c = CBR →
      tok_type ob = OCBR → g_cmds body tb → tok_type cb = CCBR →
      g_cmd (k :: o :: toks ++ c :: ob :: body ++ [cb])
        (Node SMC No_val (Node KWD (Var_val (var_value k)) t tb) Leaf)
with g_cmds : list Token → tree → Prop :=
  | g_cmds_last toks t : g_cmd toks t → g_cmds toks t
  | g_cmds_cons toks1 x toks2 t2 :
      g_cmd toks1 (Node SMC No_val x Leaf) →
      head_type toks2 ≠ Some CCBR → g_cmds toks2 t2 →
      g_cmds (toks1 ++ toks2) (Node SMC No_val x t2).

Scheme g_cmd_mut := Minimality for g_cmd Sort Prop
  with g_cmds_mut := Minimality for g_cmds Sort Prop.
Combined Scheme g_cmd_mutind from g_cmd_mut, g_cmds_mut.

End StatementGrammar.

(** [cmd_reads tokens toks t]: when nothing is owed, [get_cmd] consumes
    exactly [toks] and returns a new [SMC] node, the last of the store, that
    holds a tree built from the nodes added before it; nothing is owed
    after. *)
Definition cmd_reads (tokens : list Token) (toks : list Token) (t : tree) : Prop :=
  toks ≠ [] ∧ ∃ x, t = Node SMC No_val x Leaf ∧
  ∀ fuel s rest,
    drop (id s) tokens = toks ++ rest →
    sce_debt s = 0%N →
    4 * length toks + 6 ≤ fuel →
    ∃ q h',
      get_cmd tokens fuel s
      = Ret (Some (length (heap s ++ h')))
            (mkState (id s + length toks) 0
               ((heap s ++ h') ++ [mkNode SMC No_val (Some q) NULL]))
      ∧ repr_in (heap s ++ h') (length (heap s)) (length (heap s ++ h')) (Some q) x.

(** [body_reads tokens toks t]: the first command of a braced body and the
    loop of [get_cond] after it consume exactly [toks], up to a closing
    brace, and leave the chain [t] of the commands, built from new nodes. *)
Definition body_reads (tokens : list Token) (toks : list Token) (t : tree) : Prop :=
  ∀ fuel s c rest,
    drop (id s) tokens = toks ++ c :: rest →
    tok_type c = CCBR →
    sce_debt s = 0%N →
    4 * length toks + 7 ≤ fuel →
    ∃ root s1 h',
      get_cmd tokens fuel s = Ret (Some root) s1
      ∧ get_cond_loop tokens fuel (Some root) s1
        = Ret Finished (mkState (id s + length toks) 0 (heap s ++ h'))
      ∧ repr_in (heap s ++ h') (length (heap s)) (length (heap s ++ h')) (Some root) t.

(** [loop_reads tokens toks t]: the loop of [get_cond], entered at the
    command at [cur_node], consumes exactly [toks], up to a closing brace,
    and hangs the chain [t] of the commands, built from new nodes, to the
    right of [cur_node]; no other node that existed is changed. *)
Definition loop_reads (tokens : list Token) (toks : list Token) (t : tree) : Prop :=
  ∀ fuel s cur ncur c rest,
    heap s !! cur = Some ncur →
    drop (id s) tokens = toks ++ c :: rest →
    tok_type c = CCBR →
    head_type toks ≠ Some CCBR →
    sce_debt s = 0%N →
    4 * length toks + 7 ≤ fuel →
    ∃ root s',
      get_cond_loop tokens fuel (Some cur) s = Ret Finished s'
      ∧ id s' = id s + length toks
      ∧ sce_debt s' = 0%N
      ∧ length (heap s) ≤ length (heap s')
      ∧ (∀ a, a < length (heap s) → a ≠ cur → heap s' !! a = heap s !! a)
      ∧ heap s' !! cur = Some (set_right ncur (Some root))
      ∧ repr_in (heap s') (length (heap s)) (length (heap s')) (Some root) t.

(** ** Blocks

    [{ c1 c2 ... }]: the commands of a scope that holds no scope.
    [get_scope] takes a token for the start of a scope when it is an opening
    brace, and its loop ends at the first closing brace. *)
Inductive g_stmts (is_name : Token → Prop) : list Token → tree → Prop :=
  | g_stmts_last toks t :
      head_type toks ≠ Some OCBR → g_cmd is_name toks t → g_stmts is_name toks t
  | g_stmts_cons toks1 x toks2 t2 :
      head_type toks1 ≠ Some OCBR →
      g_cmd is_name toks1 (Node SMC No_val x Leaf) →
      head_type toks2 ≠ Some CCBR → g_stmts is_name toks2 t2 →
      g_stmts is_name (toks1 ++ toks2) (Node SMC No_val x t2).

(** The tree of a block: the first command becomes the head of the
    sequence. *)
Definition block_tree (t : tree) : tree :=
  match t with
  | Node _ v l r => Node SCS v l r
  | Leaf => Leaf
  end.

(** ** The store

    [ptr_in lo hi p]: the pointer [p] is null or the address of a node from
    [lo] up to, not including, [hi]. *)
Definition ptr_in (lo hi : nat) (p : ptr) : Prop :=
  match p with
  | None => True
  | Some a => lo ≤ a < hi
  end.

(** [tidy lo h]: every node of [h] from the address [lo] on is the root of a
    finite tree made of such nodes: none of them holds a pointer out of the
    store or to a node below [lo], and no chain of pointers comes back to
    where it started. *)
Definition tidy (lo : nat) (h : list B_tree_node) : Prop :=
  lo ≤ length h
  ∧ ∀ a, lo ≤ a < length h → ∃ t, repr_in h lo (length h) (Some a) t.

(** [fresh s s' p]: from [s] to [s'] the store has only grown, the nodes
    added are tidy among themselves, and [p] is null or one of them. *)
Definition fresh (s s' : state) (p : ptr) : Prop :=
  (∃ h', heap s' = heap s ++ h')
  ∧ tidy (length (heap s)) (heap s')
  ∧ ptr_in (length (heap s)) (length (heap s')) p.

(** [keeps lo hi0 ok m]: run from a store of at least [hi0] nodes that is
    tidy from [lo] on, [m] leaves it so, changes no node below [lo], removes
    none, and returns a value that is [ok] for the size of the store. *)
Definition keeps {A} (lo hi0 : nat) (ok : nat → A → Prop) (m : M A) : Prop :=
  ∀ s a s',
    hi0 ≤ length (heap s) → tidy lo (heap s) → m s = Ret a s' →
    tidy lo (heap s')
    ∧ take lo (heap s') = take lo (heap s)
    ∧ length (heap s) ≤ length (heap s')
    ∧ ok (length (heap s')) a.

(** What is [ok] for a value that is no pointer, for a node and for the exit
    of the loop of [get_cond]. *)
Definition any_ok {A} (_ : nat) (_ : A) : Prop := True.
Definition node_ok (lo hi : nat) (n : B_tree_node) : Prop :=
  ptr_in lo hi (left n) ∧ ptr_in lo hi (right n).
Definition exit_ok (lo hi : nat) (e : loop_exit) : Prop :=
  match e with
  | Finished => True
  | Returned p => ptr_in lo hi p
  end.

(** [inert m]: [m] leaves the store as it is. *)
Definition inert {A} (m : M A) : Prop :=
  ∀ s a s', m s = Ret a s' → heap s' = heap s.


(** ** The token after an expression

    [looks_if tokens P m]: when [m] returns a value that satisfies [P], the
    cursor is on a token of the array; [ahead_if tokens P m] is the same for
    a run that starts on a token; [never P m]: [m] returns no value that
    satisfies [P]. *)
Definition looks_if (tokens : list Token) {A} (P : A → Prop) (m : M A) : Prop :=
  ∀ s a s', m s = Ret a s' → P a → id s' < length tokens.
Definition ahead_if (tokens : list Token) {A} (P : A → Prop) (m : M A) : Prop :=
  ∀ s a s', id s < length tokens → m s = Ret a s' → P a → id s' < length tokens.
Definition never {A} (P : A → Prop) (m : M A) : Prop :=
  ∀ s a s', m s = Ret a s' → ¬ P a.
Definition always {A} (_ : A) : Prop := True.
Definition is_null (p : ptr) : Prop := p = NULL.
End Parser.

Module Assembler.

(** ** Constants of [assembler_additional.h]

    Sizes are those of the usual 64-bit targets: [sizeof(char) = 1],
    [sizeof(int) = 4], [sizeof(double) = 8]. *)
Definition sizeof_char : nat := 1.
Definition sizeof_int : nat := 4.
Definition sizeof_double : nat := 8.

Definition POISON_JMP_POS : Z := -1.
Definition IDENTIFIER_BYTE : byte := x01.
Definition CMD_TYPE_ALIGNMENT_VALUE : Z := 3.
Definition ALIGN_TO_INT : nat := sizeof_int - sizeof_char.
Definition ALIGN_TO_DOUBLE : nat := sizeof_double - sizeof_char.
Definition MAIN_JMP_NAME : string := "main".
Definition SPACE_SKIP : nat := 1.
Definition LETTER_SKIP : nat := 1.
Definition SIX_BYTE_ALIGNMENT : nat := 6.
Definition ONE_BYTE_ALIGNMENT : nat := 1.
Definition TWO_BYTE_ALIGNMENT : nat := 2.
Definition B_CODE_SIZE_COEFF : nat := 2.

(** ** Error codes

    [ASM_INVALID_FREAD] and [ASM_INVALID_FWRITE] are the two codes the header
    returns.  Modelled from the spec: the enumeration [asm_err_t] itself is
    declared in the absent [assembler.h]; the other error kinds are the ones
    the spec lists for the assembler. *)
Inductive asm_err_t :=
  | ASM_INVALID_FREAD
  | ASM_INVALID_FWRITE
  | UnresolvedLabelError (target : string)
  | MissingEntryLabelError
  | AllocationError.

(** A function that returns an [asm_err_t] and hands its result over through
    a pointer: it fails with a code or succeeds with the result.  The log is a
    write-only side channel and is left out. *)
Inductive result (A : Type) :=
  | Ok (a : A)
  | Err (e : asm_err_t).
Arguments Ok {A} a.
Arguments Err {A} e.

Definition and_then {A B} (r : result A) (k : A → result B) : result B :=
  match r with
  | Ok a => k a
  | Err e => Err e
  end.

Notation "x <- m ;; k" := (and_then m (fun x => k))
  (at level 100, m at next level, right associativity).
Notation "m ;; k" := (and_then m (fun _ => k))
  (at level 100, right associativity).

(** ** [FREAD_CHECK] and [FWRITE_CHECK]

<<
    if(read_elems != amount) { LOG(...); LOG(...); LOG(...); return ASM_INVALID_FREAD; }
>>
    The [return] leaves the function the macro is expanded in: what follows
    the macro there runs only when the two counts agree. *)
Definition FREAD_CHECK (read_elems amount : N) : result unit :=
  if decide (read_elems ≠ amount) then Err ASM_INVALID_FREAD else Ok tt.

Definition FWRITE_CHECK (written_elems amount : N) : result unit :=
  if decide (written_elems ≠ amount) then Err ASM_INVALID_FWRITE else Ok tt.

(** ** Tables *)

Record Label := mkLabel {
  name   : string;
  IP_pos : nat
}.

(** The fields of [JMP_pos] are [name] and [IP_pos] too; [IP_pos] is an
    [int] there. *)
Record JMP_pos := mkJMP_pos {
  jmp_name   : string;
  jmp_IP_pos : Z
}.

(** A value stored in an [int] (32 bits, two's complement). *)
Definition to_int (z : Z) : Z := (z + 2 ^ 31) mod 2 ^ 32 - 2 ^ 31.

(** Modelled from the spec: [Buffer_w_info] is declared in an absent header.
    The byte buffer is modelled by the bytes written so far; its logical
    length is their number (capacity and growth are left out). *)
Record Buffer_w_info := mkBuffer {
  buf : list byte
}.
Definition length (b : Buffer_w_info) : nat := List.length (buf b).

(** [Labels_w_carriage] and [JMP_poses_w_carriage]: the entries up to the
    carriage, in the order they were added. *)
Record Compile_manager := mkManager {
  labels_w_carriage    : list Label;
  jmp_poses_w_carriage : list JMP_pos;
  byte_code            : Buffer_w_info
}.

(** ** Bytes *)

Definition xor_bits
    (a b : bool * (bool * (bool * (bool * (bool * (bool * (bool * bool)))))))
  : bool * (bool * (bool * (bool * (bool * (bool * (bool * bool)))))) :=
  let '(a0, (a1, (a2, (a3, (a4, (a5, (a6, a7))))))) := a in
  let '(b0, (b1, (b2, (b3, (b4, (b5, (b6, b7))))))) := b in
  (xorb a0 b0, (xorb a1 b1, (xorb a2 b2, (xorb a3 b3,
    (xorb a4 b4, (xorb a5 b5, (xorb a6 b6, xorb a7 b7))))))).

(** [x ^ mask] on [char] *)
Definition byte_xor (x mask : byte) : byte :=
  Byte.of_bits (xor_bits (Byte.to_bits x) (Byte.to_bits mask)).

Definition byte_of_N (n : N) : byte :=
  match Byte.of_N (n mod 256) with
  | Some b => b
  | None => x00
  end.

(** The four bytes of an [int], least significant first. *)
Definition int_bytes (z : Z) : list byte :=
  let n := Z.to_N (z mod 2 ^ 32) in
  [byte_of_N n; byte_of_N (n / 256); byte_of_N (n / 65536); byte_of_N (n / 16777216)].

(** ** Buffer operations

    Modelled from the spec: the header declares these functions and documents
    them; their bodies are absent. *)

(** [mask_buffer]: "masks the byte code buffer with the specified mask" -
    the single-byte XOR mask is applied to every byte. *)
Definition mask_buffer (byte_code : Buffer_w_info) (mask : byte) : Buffer_w_info :=
  mkBuffer (map (fun x => byte_xor x mask) (buf byte_code)).

(** [write_to_buf]: "writes data of a certain size to the buffer" - the
    [size] bytes of [value] are appended at the carriage. *)
Definition write_to_buf (byte_code : Buffer_w_info) (value : list byte) (size : nat)
  : Buffer_w_info :=
  mkBuffer (buf byte_code ++ take size value).

(** [align_buffer]: "adds alignment to a buffer by adding void bytes
    equivalent to zero". *)
Definition align_buffer (b : Buffer_w_info) (amount_of_bytes : nat) : Buffer_w_info :=
  mkBuffer (buf b ++ replicate amount_of_bytes x00).

(** [write_char_w_alignment]: "writes a character to the buffer with
    alignment", [alignment_space] being the "number of alignment bytes". *)
Definition write_char_w_alignment (byte_code : Buffer_w_info) (value : byte)
    (alignment_space : nat) : Buffer_w_info :=
  align_buffer (write_to_buf byte_code [value] sizeof_char) alignment_space.

(** One instruction with a double-sized operand, as the emission pass writes
    it: the one-byte opcode with its alignment, then the operand. *)
Definition emit_double (byte_code : Buffer_w_info) (opcode : byte) (operand : list byte)
  : Buffer_w_info :=
  write_to_buf (write_char_w_alignment byte_code opcode ALIGN_TO_DOUBLE)
               operand sizeof_double.

(** One instruction with an int-sized operand. *)
Definition emit_int (byte_code : Buffer_w_info) (opcode : byte) (operand : Z)
  : Buffer_w_info :=
  write_to_buf (write_char_w_alignment byte_code opcode ALIGN_TO_INT)
               (int_bytes operand) sizeof_int.

(** ** The assembly passes

    Modelled from the spec: [cmds_process], [write_main_jmp] and
    [arrange_labels] are declared in the header, their bodies and the
    mnemonic grammar are absent.  The mnemonic text is taken as the sequence
    of its items; the operand of the double size class is its
    [sizeof(double)] bytes. *)
Inductive mnemonic :=
  | LabelDef (name : string)
  | Jump (opcode : byte) (target_name : string)
  | IntCmd (opcode : byte) (operand : Z)
  | DoubleCmd (opcode : byte) (operand : vec byte sizeof_double).

(** A jump: the opcode, then a placeholder operand whose position is recorded
    in the jump table under the target's name. *)
Definition write_jmp (m : Compile_manager) (opcode : byte) (target : string)
  : Compile_manager :=
  let b := write_char_w_alignment (byte_code m) opcode ALIGN_TO_INT in
  mkManager (labels_w_carriage m)
            (jmp_poses_w_carriage m ++ [mkJMP_pos target (to_int (Z.of_nat (length b)))])
            (write_to_buf b (int_bytes POISON_JMP_POS) sizeof_int).

(** The emission pass, item by item: a label definition records the current
    offset under its name and emits nothing. *)
Definition cmd_process (m : Compile_manager) (c : mnemonic) : Compile_manager :=
  match c with
  | LabelDef l =>
      mkManager (labels_w_carriage m ++ [mkLabel l (length (byte_code m))])
                (jmp_poses_w_carriage m) (byte_code m)
  | Jump opcode target => write_jmp m opcode target
  | IntCmd opcode operand =>
      mkManager (labels_w_carriage m) (jmp_poses_w_carriage m)
                (emit_int (byte_code m) opcode operand)
  | DoubleCmd opcode operand =>
      mkManager (labels_w_carriage m) (jmp_poses_w_carriage m)
                (emit_double (byte_code m) opcode (vec_to_list operand))
  end.

Definition cmds_process (m : Compile_manager) (text : list mnemonic) : Compile_manager :=
  foldl cmd_process m text.

(** Lookup by exact name; the last definition wins. *)
Fixpoint find_label (labels : list Label) (target : string) : option nat :=
  match labels with
  | [] => None
  | l :: rest =>
      match find_label rest target with
      | Some pos => Some pos
      | None => if decide (name l = target) then Some (IP_pos l) else None
      end
  end.

(** The placeholder at [pos] is overwritten with the four bytes of [z]. *)
Definition patch_int (b : Buffer_w_info) (pos : Z) (z : Z) : Buffer_w_info :=
  let i := Z.to_nat pos in
  mkBuffer (take i (buf b) ++ int_bytes z ++ drop (i + sizeof_int) (buf b)).

(** The resolution pass: every jump reference, in the order recorded, is
    looked up and patched; a target that was never defined is fatal, and the
    error names it. *)
Fixpoint arrange_labels (labels : list Label) (jmps : list JMP_pos)
    (b : Buffer_w_info) : result Buffer_w_info :=
  match jmps with
  | [] => Ok b
  | j :: rest =>
      match find_label labels (jmp_name j) with
      | Some pos => arrange_labels labels rest (patch_int b (jmp_IP_pos j) (Z.of_nat pos))
      | None => Err (UnresolvedLabelError (jmp_name j))
      end
  end.

Definition init_manager : Compile_manager := mkManager [] [] (mkBuffer []).

Section WithJmp.

(** The opcode identifier of the unconditional jump. *)
Variable JMP : byte.

(** The synthesized jump to the entry label: the opcode, its alignment and
    the offset of the label. *)
Definition main_jmp (entry : nat) : list byte :=
  buf (emit_int (mkBuffer []) JMP (Z.of_nat entry)).

(** Modelled from the spec: [write_main_jmp] is declared in the header, its
    body is absent.  It is the entry-point fix-up: the entry label must exist in
    the label table; its offset becomes the operand of the synthesized jump,
    which is written at the very start of the buffer, before everything
    emitted.  The header hands the function the buffer and the jump table;
    here it has the whole manager, the label table being read and the jump
    table left as it is. *)
Definition write_main_jmp (m : Compile_manager) : result Compile_manager :=
  match find_label (labels_w_carriage m) MAIN_JMP_NAME with
  | Some entry =>
      Ok (mkManager (labels_w_carriage m) (jmp_poses_w_carriage m)
                    (mkBuffer (main_jmp entry ++ buf (byte_code m))))
  | None => Err MissingEntryLabelError
  end.

(** Modelled from the spec: the passes over one mnemonic text, in the order
    of the spec: emission, resolution, entry-point fix-up.  The first error
    ends the assembly. *)
Definition assemble (text : list mnemonic) : result Buffer_w_info :=
  let m := cmds_process init_manager text in
  b <- arrange_labels (labels_w_carriage m) (jmp_poses_w_carriage m) (byte_code m) ;;
  m' <- write_main_jmp (mkManager (labels_w_carriage m) (jmp_poses_w_carriage m) b) ;;
  Ok (byte_code m').

End WithJmp.

(** The labels a text defines, and a text all of whose jump targets are
    defined. *)
Definition defines (text : list mnemonic) (l : string) : Prop :=
  LabelDef l ∈ text.

Definition resolved (text : list mnemonic) : Prop :=
  ∀ opcode target, Jump opcode target ∈ text → defines text target.

(** ** Files

    Modelled from the spec: [parse_human_code] ("reads the human-readable
    assembly code from a file, allocates memory for the buffer, and arranges
    the tokens") and [create_bin] ("creates a binary file containing the
    generated byte code") are declared in the header; their bodies, the C
    library and the function that calls them are absent.  Each of the two
    touches its file once, asking for all the bytes, and checks the count
    with the macro of the header.

    What [fread] and [fwrite] answer is decided outside the program: the
    number of elements read out of a file of the given contents, the number
    of elements written of the given bytes. *)
Record Files := mkFiles {
  fread  : list byte → N;
  fwrite : list byte → N
}.

(** Modelled from the spec: the file is read in one [fread] of all its
    bytes, checked by [FREAD_CHECK]. *)
Definition parse_human_code (fs : Files) (file : list byte) : result Buffer_w_info :=
  let amount := N.of_nat (List.length file) in
  let read_elems := fread fs file in
  FREAD_CHECK read_elems amount ;;
  Ok (mkBuffer file).

(** Modelled from the spec: the buffer is written in one [fwrite] of all its
    bytes, checked by [FWRITE_CHECK]; on success the file holds the bytes of
    the buffer: the artifact. *)
Definition create_bin (fs : Files) (m : Compile_manager) : result (list byte) :=
  let amount := N.of_nat (length (byte_code m)) in
  let written_elems := fwrite fs (buf (byte_code m)) in
  FWRITE_CHECK written_elems amount ;;
  Ok (buf (byte_code m)).

Section Compile.

(** The opcode of the unconditional jump, the reading of the mnemonic text
    and the mask: all three are fixed in absent files. *)
Variable JMP : byte.
Variable arrange_tokens : list byte → list mnemonic.
Variable MASK : byte.

(** Modelled from the spec: the whole assembly of one file.  Every step
    hands its error to the caller at once; the artifact is made by the last
    step only.  (Compaction is the identity on a buffer that is its logical
    bytes.) *)
Definition compile (fs : Files) (file : list byte) : result (list byte) :=
  human_code_buffer <- parse_human_code fs file ;;
  b <- assemble JMP (arrange_tokens (buf human_code_buffer)) ;;
  create_bin fs (mkManager [] [] (mask_buffer b MASK)).

End Compile.

End Assembler.

(** * Facts about the parser *)

Section ParserFacts.
Import Parser.

(** ** Running the monad *)

Lemma run_bind {A B} (m : M A) (k : A → M B) s a s1 :
  m s = Ret a s1 → bind m k s = k a s1.
Proof. intros H. unfold bind. by rewrite H. Qed.

Lemma bind_Ret_inv {A B} (m : M A) (k : A → M B) s b s' :
  bind m k s = Ret b s' → ∃ a s1, m s = Ret a s1 ∧ k a s1 = Ret b s'.
Proof. unfold bind. destruct (m s) as [a s1| |]; [eauto | done | done]. Qed.

Lemma bind_assoc {A B C} (m : M A) (k1 : A → M B) (k2 : B → M C) s :
  bind (bind m k1) k2 s = bind m (fun x => bind (k1 x) k2) s.
Proof. unfold bind. by destruct (m s). Qed.

(** ** Trees in the store *)

Lemma repr_det h p t1 t2 : repr h p t1 → repr h p t2 → t1 = t2.
Proof.
  intros H1. revert t2.
  induction H1 as [|a n tl tr Ha _ IH1 _ IH2]; intros t2 H2;
    inversion H2 as [|a' n' tl' tr' Ha' Hl' Hr']; simplify_eq; [done|].
  f_equal; [by apply IH1 | by apply IH2].
Qed.

Lemma repr_in_repr h lo hi p t : repr_in h lo hi p t → repr h p t.
Proof. induction 1; econstructor; eauto. Qed.

Lemma repr_in_weaken h lo hi lo' hi' p t :
  lo' ≤ lo → hi ≤ hi' → repr_in h lo hi p t → repr_in h lo' hi' p t.
Proof.
  intros Hlo Hhi. induction 1 as [|a n tl tr Ha Hn _ IH1 _ IH2]; [constructor|].
  econstructor; [lia|done..].
Qed.

Lemma repr_in_app h h' lo hi p t : repr_in h lo hi p t → repr_in (h ++ h') lo hi p t.
Proof.
  induction 1 as [|a n tl tr Ha Hn _ IH1 _ IH2]; [constructor|].
  econstructor; [done| |done..]. by apply lookup_app_l_Some.
Qed.

(** Writing to a node outside the range of a tree leaves the tree alone. *)
Lemma repr_in_insert h lo hi e n' p t :
  e < lo ∨ hi ≤ e → repr_in h lo hi p t → repr_in (<[e := n']> h) lo hi p t.
Proof.
  intros He. induction 1 as [|a n tl tr Ha Hn _ IH1 _ IH2]; [constructor|].
  econstructor; [done| |done..]. rewrite list_lookup_insert_ne by lia. done.
Qed.

Lemma repr_in_new h lo t v l r tl tr :
  lo ≤ length h →
  repr_in h lo (length h) l tl → repr_in h lo (length h) r tr →
  repr_in (h ++ [mkNode t v l r]) lo (length (h ++ [mkNode t v l r]))
          (Some (length h)) (Node t v tl tr).
Proof.
  intros Hlo Hl Hr. rewrite length_app, Nat.add_1_r.
  apply (repr_in_node _ _ _ (length h) (mkNode t v l r)).
  - lia.
  - by apply list_lookup_middle.
  - apply repr_in_app. eapply repr_in_weaken; [..|exact Hl]; lia.
  - apply repr_in_app. eapply repr_in_weaken; [..|exact Hr]; lia.
Qed.

Lemma repr_in_bounds h lo hi a t : repr_in h lo hi (Some a) t → lo ≤ a < hi.
Proof. by inversion 1. Qed.

Lemma repr_in_atom h a :
  repr_in (h ++ [atom_node a]) (length h) (length (h ++ [atom_node a]))
          (Some (length h)) (atom_tree a).
Proof.
  destruct a; apply (repr_in_new _ _ _ _ None None Leaf Leaf); (lia || constructor).
Qed.

Lemma drop_lookup_head {A} (l : list A) i x l' :
  drop i l = x :: l' → l !! i = Some x ∧ drop (S i) l = l'.
Proof.
  intros H. split.
  - rewrite <- (Nat.add_0_r i), <- lookup_drop, H. reflexivity.
  - rewrite <- (Nat.add_1_r i), <- drop_drop, H. reflexivity.
Qed.

Lemma drop_past {A} (l seg rest : list A) i :
  drop i l = seg ++ rest → drop (i + length seg) l = rest.
Proof. intros H. by rewrite <- drop_drop, H, drop_app_length. Qed.

Lemma state_unchanged s : s = mkState (id s + 0) (sce_debt s) (heap s ++ []).
Proof. destruct s. simpl. by rewrite Nat.add_0_r, app_nil_r. Qed.

(** ** Right-linked chains and [get_scope_end] *)

Lemma right_chain_head h a l : right_chain h a l → head l = Some a.
Proof. by destruct 1. Qed.

Lemma right_chain_nonempty h a l : right_chain h a l → l ≠ [].
Proof. by destruct 1. Qed.

(** A chain is determined by its first node. *)
Lemma right_chain_det h a l1 l2 :
  right_chain h a l1 → right_chain h a l2 → l1 = l2.
Proof.
  intros H1. revert l2.
  induction H1 as [a n Ha Hn | a n b l Ha Hn _ IH]; intros l2 H2;
    inversion H2 as [a' n' Ha' Hn' | a' n' b' l' Ha' Hn' H2']; simplify_eq.
  - reflexivity.
  - f_equal. by apply IH.
Qed.

(** The part of a chain from any of its nodes on is the chain of that node,
    and ends at the same node. *)
Lemma right_chain_suffix h a l b :
  right_chain h a l → b ∈ l →
  ∃ l', right_chain h b l' ∧ last l' = last l ∧ length l' ≤ length l.
Proof.
  induction 1 as [a n Ha Hn | a n c l Ha Hn Hc IH]; intros Hb.
  - apply list_elem_of_singleton in Hb as ->. exists [a]. split; [|done].
    by eapply right_chain_end.
  - apply elem_of_cons in Hb as [-> | Hb].
    + exists (a :: l). split; [|done]. by eapply right_chain_step.
    + destruct (IH Hb) as (l' & Hl' & Hlast & Hlen). exists l'.
      split; [done|]. split; [|simpl; lia].
      rewrite Hlast. destruct l; [by inversion Hc | reflexivity].
Qed.

(** A chain that ends is acyclic: no address occurs twice. *)
Lemma right_chain_NoDup h a l : right_chain h a l → NoDup l.
Proof.
  induction 1 as [a n Ha Hn | a n c l Ha Hn Hc IH].
  - apply NoDup_singleton.
  - constructor; [|done]. intros Hin.
    destruct (right_chain_suffix _ _ _ _ Hc Hin) as (l' & Hl' & _ & Hlen).
    assert (Hl : right_chain h a (a :: l)) by (by eapply right_chain_step).
    pose proof (right_chain_det _ _ _ _ Hl Hl') as <-. simpl in Hlen. lia.
Qed.

Lemma right_chain_last h a l :
  right_chain h a l → ∃ e n, last l = Some e ∧ h !! e = Some n ∧ right n = NULL.
Proof.
  induction 1 as [a n Ha Hn | a n c l Ha Hn Hc (e & m & Hl & He & Hm)].
  - by exists a, n.
  - exists e, m. split; [|done]. destruct l; [by inversion Hc | done].
Qed.

(** The last node is the only one of the chain without a right child. *)
Lemma right_chain_end_unique h a l b n :
  right_chain h a l → b ∈ l → h !! b = Some n → right n = NULL → last l = Some b.
Proof.
  induction 1 as [a m Ha Hm | a m c l Ha Hm Hc IH]; intros Hb Hn Hr.
  - by apply list_elem_of_singleton in Hb as ->.
  - apply elem_of_cons in Hb as [-> | Hb]; [congruence|].
    rewrite <- (IH Hb Hn Hr). destruct l; [by inversion Hc | done].
Qed.

Lemma scope_end_loop_chain h a l :
  right_chain h a l →
  ∀ fuel s, heap s = h → length l ≤ fuel →
    ∃ e, last l = Some e ∧ scope_end_loop fuel a s = Ret (Some e) s.
Proof.
  induction 1 as [a n Ha Hn | a n c l Ha Hn Hc IH]; intros fuel s Hs Hfuel;
    (destruct fuel as [|fuel]; [simpl in Hfuel; lia|]); simpl scope_end_loop.
  - exists a. split; [done|].
    erewrite run_bind; [|unfold load; by rewrite Hs, Ha]. by rewrite Hn.
  - destruct (IH fuel s Hs) as (e & He & Hrun); [simpl in Hfuel; lia|].
    exists e. split; [destruct l; [by inversion Hc | done]|].
    erewrite run_bind; [|unfold load; by rewrite Hs, Ha]. by rewrite Hn.
Qed.

(** C10: [get_scope_end] of the null pointer is the null pointer; applied to
    any node of a right-linked chain that ends, it returns the last node of
    the chain, which is the only node of the chain without a right child, and
    it leaves the store as it was. *)
Theorem C10_get_scope_end (fuel : nat) (s : state) :
  get_scope_end fuel NULL s = Ret NULL s
  ∧ ∀ root l a,
      right_chain (heap s) root l → a ∈ l → length l ≤ fuel →
      ∃ e n,
        get_scope_end fuel (Some a) s = Ret (Some e) s
        ∧ last l = Some e
        ∧ heap s !! e = Some n ∧ right n = NULL
        ∧ ∀ b m, b ∈ l → heap s !! b = Some m → right m = NULL → b = e.
Proof.
  split; [reflexivity|].
  intros root l a Hchain Ha Hfuel.
  destruct (right_chain_suffix _ _ _ _ Hchain Ha) as (l' & Hl' & Hlast & Hlen).
  destruct (scope_end_loop_chain _ _ _ Hl' fuel s eq_refl) as (e & He & Hrun); [lia|].
  destruct (right_chain_last _ _ _ Hchain) as (e' & n & He' & Hn & Hr).
  assert (e' = e) as -> by congruence.
  exists e, n. repeat split; try done.
  intros b m Hb Hm Hrm.
  pose proof (right_chain_end_unique _ _ _ _ _ Hchain Hb Hm Hrm). congruence.
Qed.



(** ** The cursor and the debt *)

Lemma advances_refl s : advances s s.
Proof. unfold advances. lia. Qed.

Lemma advances_trans s1 s2 s3 : advances s1 s2 → advances s2 s3 → advances s1 s3.
Proof. unfold advances. lia. Qed.

Lemma preserves_ret {A} (a : A) : preserves (ret a).
Proof. intros s b s' [= _ <-]. apply advances_refl. Qed.

Lemma preserves_fault {A} : preserves (@fault A).
Proof. intros s b s' [=]. Qed.

Lemma preserves_out_of_fuel {A} : preserves (@out_of_fuel A).
Proof. intros s b s' [=]. Qed.

Lemma preserves_bind {A B} (m : M A) (k : A → M B) :
  preserves m → (∀ a, preserves (k a)) → preserves (bind m k).
Proof.
  intros Hm Hk s b s' (a & s1 & H1 & H2)%bind_Ret_inv.
  eapply advances_trans; [by eapply Hm | by eapply Hk].
Qed.

Lemma preserves_load p : preserves (load p).
Proof.
  intros s n s'. unfold load. destruct p as [a|]; [|done].
  destruct (heap s !! a); [|done]. intros [= _ <-]. apply advances_refl.
Qed.

Lemma preserves_store p f : preserves (store p f).
Proof.
  intros s n s'. unfold store. destruct p as [a|]; [|done].
  destruct (heap s !! a); [|done]. intros ?; simplify_eq. unfold advances. simpl. lia.
Qed.

Lemma preserves_create_node t v l r : preserves (create_node t v l r).
Proof.
  intros s p s' Hrun.
  unfold create_node, get_sce_debt, set_sce_debt, incr_id in Hrun.
  simplify_eq. unfold advances. simpl. lia.
Qed.

Lemma preserves_get_sce_debt : preserves get_sce_debt.
Proof. intros s p s' [= _ <-]. apply advances_refl. Qed.

Lemma preserves_reset_sce_debt : preserves (set_sce_debt 0).
Proof.
  intros s p s' Hrun.
  unfold create_node, get_sce_debt, set_sce_debt, incr_id in Hrun.
  simplify_eq. unfold advances. simpl. lia.
Qed.

Lemma preserves_incr_id : preserves incr_id.
Proof.
  intros s p s' Hrun.
  unfold create_node, get_sce_debt, set_sce_debt, incr_id in Hrun.
  simplify_eq. unfold advances. simpl. lia.
Qed.

(** [sce_debt++] is made up for by the [id++] that follows it. *)
Lemma preserves_incr_sce_debt_id {A} (k : M A) :
  preserves k → preserves (incr_sce_debt ;; incr_id ;; k).
Proof.
  intros Hk s a s' Hrun. unfold bind at 1 2 in Hrun. simpl in Hrun.
  apply Hk in Hrun. revert Hrun. unfold advances. simpl.
  pose proof (N.Div0.mod_le (sce_debt s + 1) size_max). lia.
Qed.

Section Tokens.
Variable tokens : list Token.

Lemma preserves_CUR_TOKEN : preserves (CUR_TOKEN tokens).
Proof.
  intros s t s'. unfold CUR_TOKEN. destruct (tokens !! id s); [|done].
  intros [= _ <-]. apply advances_refl.
Qed.

Lemma preserves_CHECK_RET p k : preserves k → preserves (CHECK_RET p k).
Proof. intros Hk. destruct p; [exact Hk | apply preserves_ret]. Qed.

Lemma preserves_SYNTAX_CHECK c k : preserves k → preserves (SYNTAX_CHECK c k).
Proof. intros Hk. destruct c; [exact Hk | apply preserves_ret]. Qed.

Ltac pres :=
  repeat first
    [ assumption
    | match goal with H : context [preserves] |- _ => apply H end
    | apply preserves_ret
    | apply preserves_fault
    | apply preserves_out_of_fuel
    | apply preserves_load
    | apply preserves_store
    | apply preserves_create_node
    | apply preserves_get_sce_debt
    | apply preserves_reset_sce_debt
    | apply preserves_incr_id
    | apply preserves_CUR_TOKEN
    | apply preserves_incr_sce_debt_id
    | apply preserves_CHECK_RET
    | apply preserves_SYNTAX_CHECK
    | apply preserves_bind; [|intros ?]
    | case_decide
    | case_match
    | match goal with |- preserves (if ?b then _ else _) => destruct b end ].

Lemma preserves_CUR_TYPE : preserves (CUR_TYPE tokens).
Proof. unfold CUR_TYPE. pres. Qed.
Lemma preserves_CUR_OP : preserves (CUR_OP tokens).
Proof. unfold CUR_OP. pres. Qed.
Lemma preserves_CUR_NUM : preserves (CUR_NUM tokens).
Proof. unfold CUR_NUM. pres. Qed.
Lemma preserves_node_var_value p : preserves (node_var_value p).
Proof. unfold node_var_value. pres. Qed.
Lemma preserves_read_var_value tok : preserves (read_var_value tok).
Proof. unfold read_var_value. pres. Qed.

Lemma preserves_scope_end_loop fuel : ∀ a, preserves (scope_end_loop fuel a).
Proof. induction fuel as [|n IH]; intros a; simpl; pres. Qed.

Lemma preserves_get_scope_end fuel p : preserves (get_scope_end fuel p).
Proof. destruct p; simpl; [apply preserves_scope_end_loop | pres]. Qed.

Lemma preserves_get_num : preserves (get_num tokens).
Proof.
  unfold get_num, CR_NUM. pose proof preserves_CUR_NUM. pres.
Qed.

Lemma preserves_pay_scope_debt k : ∀ root, preserves (pay_scope_debt k root).
Proof. induction k as [|k IH]; intros root; simpl; unfold CR_SCE; pres. Qed.

Lemma preserves_extend_sce_chain k : ∀ p, preserves (extend_sce_chain k p).
Proof. induction k as [|k IH]; intros root; simpl; unfold CR_SCE; pres. Qed.

Lemma preserves_finish_cmd cmd : preserves (finish_cmd cmd).
Proof.
  unfold finish_cmd, CR_SMC, CR_SCE. pose proof preserves_extend_sce_chain. pres.
Qed.

Lemma preserves_expressions fuel :
  preserves (get_add tokens fuel)
  ∧ (∀ val, preserves (get_add_loop tokens fuel val))
  ∧ preserves (get_mul tokens fuel)
  ∧ (∀ val, preserves (get_mul_loop tokens fuel val))
  ∧ preserves (get_pow tokens fuel)
  ∧ (∀ val, preserves (get_pow_loop tokens fuel val))
  ∧ preserves (get_par tokens fuel)
  ∧ preserves (get_id tokens fuel).
Proof.
  pose proof preserves_CUR_TYPE. pose proof preserves_CUR_OP.
  pose proof preserves_get_num. pose proof preserves_read_var_value.
  induction fuel as [|n (IHadd & IHaddl & IHmul & IHmull & IHpow & IHpowl & IHpar & IHid)];
    [simpl; split_and!; intros; pres|].
  split_and!; intros; simpl; unfold CR_OP, CR_KWD, CR_VAR, SYNTAX_ERROR; pres.
Qed.

Lemma preserves_get_ass fuel : preserves (get_ass tokens fuel).
Proof.
  pose proof preserves_CUR_TYPE. pose proof preserves_CUR_OP.
  destruct (preserves_expressions fuel) as (? & _ & _ & _ & _ & _ & _ & ?).
  unfold get_ass, CR_ASS, SYNTAX_ERROR. pres.
Qed.

Lemma preserves_commands fuel :
  preserves (get_cmd tokens fuel)
  ∧ preserves (get_cond tokens fuel)
  ∧ (∀ cur_node, preserves (get_cond_loop tokens fuel cur_node)).
Proof.
  pose proof preserves_CUR_TYPE. pose proof preserves_finish_cmd.
  pose proof preserves_node_var_value.
  induction fuel as [|n (IHcmd & IHcond & IHloop)];
    [simpl; split_and!; intros; pres|].
  pose proof (preserves_get_ass n).
  destruct (preserves_expressions n) as (? & _ & _ & _ & _ & _ & _ & ?).
  split_and!; intros; simpl; unfold CR_KWD, SYNTAX_ERROR; pres.
Qed.

Lemma preserves_scopes fuel :
  preserves (get_scope tokens fuel)
  ∧ (∀ cur_node, preserves (get_scope_loop tokens fuel cur_node)).
Proof.
  pose proof preserves_CUR_TYPE. pose proof preserves_get_scope_end.
  pose proof preserves_pay_scope_debt.
  induction fuel as [|n (IHscope & IHloop)];
    [simpl; split_and!; intros; pres|].
  destruct (preserves_commands n) as (? & _ & _).
  split_and!; intros; simpl; unfold CR_SCS; pres.
Qed.


(** ** What [get_scope] does to the debt *)

Lemma CUR_TYPE_inv s ty s' :
  CUR_TYPE tokens s = Ret ty s' →
  s' = s ∧ ∃ t, tokens !! id s = Some t ∧ ty = tok_type t.
Proof.
  unfold CUR_TYPE, CUR_TOKEN, bind, ret.
  destruct (tokens !! id s) as [t|]; [|done]. intros ?; simplify_eq. eauto.
Qed.

Lemma run_CUR_TYPE s t :
  tokens !! id s = Some t → CUR_TYPE tokens s = Ret (tok_type t) s.
Proof. intros H. unfold CUR_TYPE, CUR_TOKEN, bind, ret. by rewrite H. Qed.

(** The loop of [get_scope] is left at a closing brace only. *)
Lemma get_scope_loop_exit fuel : ∀ cur_node s s',
  get_scope_loop tokens fuel cur_node s = Ret tt s' →
  ∃ t, tokens !! id s' = Some t ∧ tok_type t = CCBR.
Proof.
  induction fuel as [|n IH]; intros cur_node s s' Hrun; [done|].
  simpl in Hrun.
  apply bind_Ret_inv in Hrun as (ty & s1 & (-> & t & Ht & ->)%CUR_TYPE_inv & Hrun).
  case_decide as Hty.
  - unfold ret in Hrun. simplify_eq. eauto.
  - apply bind_Ret_inv in Hrun as (? & ? & _ & Hrun).
    apply bind_Ret_inv in Hrun as (? & ? & _ & Hrun).
    apply bind_Ret_inv in Hrun as (? & ? & _ & Hrun).
    apply bind_Ret_inv in Hrun as (? & ? & _ & Hrun).
    by eapply IH.
Qed.


Lemma length_sce_stack times : ∀ base root, length (sce_stack base root times) = times.
Proof. induction times as [|k IH]; intros; simpl; [done | by rewrite IH]. Qed.

Lemma sce_stack_all_SCE times : ∀ base root,
  Forall (λ n, type n = SCE ∧ left n = NULL) (sce_stack base root times).
Proof. induction times as [|k IH]; intros; simpl; constructor; auto. Qed.


Lemma sce_path_app h h' p k q : sce_path h p k q → sce_path (h ++ h') p k q.
Proof.
  induction 1 as [|a n k q Ha Hty Hl _ IH]; [constructor|].
  econstructor; [by apply lookup_app_l_Some|done..].
Qed.

Lemma sce_path_snoc h p k a n q :
  sce_path h p k a → h !! a = Some n → type n = SCE → left n = NULL →
  right n = Some q → sce_path h p (S k) q.
Proof.
  induction 1 as [a|b m k a Hb Hty Hl _ IH]; intros Ha Hn Hln Hrn.
  - econstructor; [done..|]. rewrite Hrn. constructor.
  - econstructor; [done..|]. by apply IH.
Qed.

Lemma pay_scope_debt_run times : ∀ root s,
  ∃ root',
    pay_scope_debt times root s
    = Ret root' (mkState (id s) (sce_debt s)
                         (heap s ++ sce_stack (length (heap s)) root times))
    ∧ ∀ q, root = Some q →
        sce_path (heap s ++ sce_stack (length (heap s)) root times) root' times q.
Proof.
  induction times as [|k IH]; intros root s; simpl.
  - exists root. rewrite app_nil_r. split; [by destruct s|].
    intros q ->. constructor.
  - unfold bind, CR_SCE, create_node.
    destruct (IH (Some (length (heap s)))
                 (mkState (id s) (sce_debt s)
                          (heap s ++ [mkNode SCE No_val NULL root]))) as (root' & Hrun & Hpath).
    simpl in Hrun, Hpath. rewrite length_app, Nat.add_1_r, <- app_assoc in Hrun, Hpath.
    simpl in Hrun, Hpath.
    exists root'. split; [exact Hrun|]. intros q ->.
    eapply sce_path_snoc; [by apply Hpath | by apply list_lookup_middle | done..].
Qed.

(** C9: a call of [get_scope] at an opening brace that returns a tree has
    run as follows.  The debt at the entry is captured and the counter reset;
    the first scope is parsed and then the loop runs, which ends in the state
    [s_close] at the matching closing brace.  From there [sce_debt] is
    incremented once and the brace consumed: at the return the counter is one
    more than in [s_close], so it is positive, and the cursor is one token
    further.  After the loop the call adds at most a [SCS] head and then
    exactly as many [SCE] nodes as the debt at the entry, the last nodes of
    the store, which lead from the pointer returned to the [SCS] node. *)
Theorem C9_scope_debt (fuel : nat) (s s' : state) (t : Token) (root : addr) :
  (N.of_nat (length tokens) ≤ size_max)%N →
  tokens !! id s = Some t → tok_type t = OCBR →
  get_scope tokens fuel s = Ret (Some root) s' →
  ∃ (n : nat) (first : addr) (s_first s_close : state) (t_close : Token)
    (h0 : list B_tree_node) (q : addr) (nq : B_tree_node),
    fuel = S n
    ∧ get_scope tokens n (mkState (S (id s)) 0 (heap s)) = Ret (Some first) s_first
    ∧ get_scope_loop tokens n (Some first) s_first = Ret tt s_close
    ∧ tokens !! id s_close = Some t_close ∧ tok_type t_close = CCBR
    ∧ id s' = S (id s_close)
    ∧ sce_debt s' = (sce_debt s_close + 1)%N
    ∧ (0 < sce_debt s')%N
    ∧ (h0 = heap s_close ++ [mkNode SCS No_val NULL (Some first)]
       ∨ ∃ n0, heap s_close !! first = Some n0
               ∧ h0 = <[first := set_type n0 SCS]> (heap s_close))
    ∧ heap s' = h0 ++ sce_stack (length h0) (Some q) (N.to_nat (sce_debt s))
    ∧ h0 !! q = Some nq ∧ type nq = SCS
    ∧ sce_path (heap s') (Some root) (N.to_nat (sce_debt s)) q.
Proof.
  intros Hsize Ht Hty Hrun.
  destruct fuel as [|n]; [done|]. simpl in Hrun.
  rewrite (run_bind _ _ _ _ _ (run_CUR_TYPE _ _ Ht)), Hty in Hrun.
  rewrite decide_True in Hrun by done.
  unfold bind at 1 2 3 in Hrun. simpl in Hrun.
  apply bind_Ret_inv in Hrun as (root0 & s2 & Hfirst & Hrun).
  destruct root0 as [r0|]; [|done]. simpl in Hrun.
  apply bind_Ret_inv in Hrun as ([] & s3 & Hloop & Hrun).
  unfold bind at 1 2 in Hrun. simpl in Hrun.
  apply bind_Ret_inv in Hrun as (rn & s4 & Hload & Hrun).
  apply bind_Ret_inv in Hrun as (root' & s5 & Hmark & Hrun).
  destruct (get_scope_loop_exit _ _ _ _ Hloop) as (tc & Htc & Hccbr).
  (* the debt before the increment is bounded by the tokens consumed *)
  pose proof (proj1 (preserves_scopes n) _ _ _ Hfirst) as [_ Hadv1].
  pose proof (proj2 (preserves_scopes n) _ _ _ _ Hloop) as [_ Hadv2].
  simpl in Hadv1.
  pose proof (lookup_lt_Some _ _ _ Htc) as Hlt.
  assert (Hnowrap : ((sce_debt s3 + 1) mod size_max = sce_debt s3 + 1)%N).
  { apply N.mod_small. lia. }
  (* the root after marking is a [SCS] node *)
  unfold load in Hload. simpl in Hload.
  destruct (heap s3 !! r0) as [n0|] eqn:Hr0; [|done].
  injection Hload as -> <-.
  assert (∃ q nq, root' = Some q ∧ heap s5 !! q = Some nq ∧ type nq = SCS
                  ∧ id s5 = S (id s3)
                  ∧ sce_debt s5 = ((sce_debt s3 + 1) mod size_max)%N
                  ∧ (heap s5 = heap s3 ++ [mkNode SCS No_val NULL (Some r0)]
                     ∨ heap s5 = <[r0 := set_type rn SCS]> (heap s3)))
    as (q & nq & -> & Hq & Hnq & Hid5 & Hdebt5 & Hh5).
  { case_decide as Hscs.
    - unfold CR_SCS, create_node in Hmark. simplify_eq. simpl.
      eexists _, _. split; [done|]. rewrite lookup_app_r, Nat.sub_diag by done.
      split_and!; [done..|by left].
    - unfold bind, store, ret in Hmark. simpl in Hmark. rewrite Hr0 in Hmark.
      simplify_eq. simpl. eexists _, _. split; [done|].
      rewrite list_lookup_insert_eq by (by eapply lookup_lt_Some).
      split_and!; [done..|by right]. }
  destruct (pay_scope_debt_run (N.to_nat (sce_debt s)) (Some q) s5)
    as (root'' & Hpay & Hpath).
  rewrite Hpay in Hrun. simplify_eq. simpl.
  exists n, r0, s2, s3, tc, (heap s5), q, nq.
  rewrite Hid5, Hdebt5, Hnowrap.
  split_and!; try done; [lia | | by apply Hpath].
  destruct Hh5 as [Hh5|Hh5]; [by left | right; by exists rn].
Qed.


(** ** More fuel changes no result *)

Lemma le_fuel_refl {A} (m : M A) : le_fuel m m.
Proof. intros s. by right. Qed.

Lemma le_fuel_trans {A} (m1 m2 m3 : M A) :
  le_fuel m1 m2 → le_fuel m2 m3 → le_fuel m1 m3.
Proof.
  intros H12 H23 s. destruct (H12 s) as [H|H]; [by left|].
  rewrite H. apply H23.
Qed.

Lemma le_fuel_out_of_fuel {A} (m : M A) : le_fuel out_of_fuel m.
Proof. intros s. by left. Qed.

Lemma le_fuel_bind {A B} (m1 m2 : M A) (k1 k2 : A → M B) :
  le_fuel m1 m2 → (∀ a, le_fuel (k1 a) (k2 a)) → le_fuel (bind m1 k1) (bind m2 k2).
Proof.
  intros Hm Hk s. unfold bind. destruct (Hm s) as [H|H]; rewrite H; [by left|].
  destruct (m2 s) as [a s1| |]; [apply Hk | by right | by right].
Qed.

Lemma le_fuel_CHECK_RET p k1 k2 :
  le_fuel k1 k2 → le_fuel (CHECK_RET p k1) (CHECK_RET p k2).
Proof. intros Hk. destruct p; [exact Hk | apply le_fuel_refl]. Qed.

Lemma le_fuel_SYNTAX_CHECK c k1 k2 :
  le_fuel k1 k2 → le_fuel (SYNTAX_CHECK c k1) (SYNTAX_CHECK c k2).
Proof. intros Hk. destruct c; [exact Hk | apply le_fuel_refl]. Qed.

Ltac fuel :=
  repeat first
    [ assumption
    | match goal with H : context [le_fuel] |- _ => apply H end
    | apply le_fuel_out_of_fuel
    | apply le_fuel_CHECK_RET
    | apply le_fuel_SYNTAX_CHECK
    | apply le_fuel_bind; [|intros ?]
    | match goal with
      | |- le_fuel (if ?c then _ else _) (if ?c then _ else _) => destruct c
      | |- le_fuel (match ?x with _ => _ end) (match ?x with _ => _ end) => destruct x
      end
    | apply le_fuel_refl ].

Lemma scope_end_loop_S fuel : ∀ a, le_fuel (scope_end_loop fuel a) (scope_end_loop (S fuel) a).
Proof.
  induction fuel as [|n IH]; intros a; [apply le_fuel_out_of_fuel|].
  cbn [scope_end_loop]. fuel.
Qed.

Lemma get_scope_end_S fuel p : le_fuel (get_scope_end fuel p) (get_scope_end (S fuel) p).
Proof. destruct p; [apply scope_end_loop_S | apply le_fuel_refl]. Qed.

Lemma expressions_S fuel :
  le_fuel (get_add tokens fuel) (get_add tokens (S fuel))
  ∧ (∀ val, le_fuel (get_add_loop tokens fuel val) (get_add_loop tokens (S fuel) val))
  ∧ le_fuel (get_mul tokens fuel) (get_mul tokens (S fuel))
  ∧ (∀ val, le_fuel (get_mul_loop tokens fuel val) (get_mul_loop tokens (S fuel) val))
  ∧ le_fuel (get_pow tokens fuel) (get_pow tokens (S fuel))
  ∧ (∀ val, le_fuel (get_pow_loop tokens fuel val) (get_pow_loop tokens (S fuel) val))
  ∧ le_fuel (get_par tokens fuel) (get_par tokens (S fuel))
  ∧ le_fuel (get_id tokens fuel) (get_id tokens (S fuel)).
Proof.
  induction fuel as [|n (IHadd & IHaddl & IHmul & IHmull & IHpow & IHpowl & IHpar & IHid)];
    [split_and!; intros; apply le_fuel_out_of_fuel|].
  split_and!; intros.
  - cbn [get_add]. fuel.
  - cbn [get_add_loop]. fuel.
  - cbn [get_mul]. fuel.
  - cbn [get_mul_loop]. fuel.
  - cbn [get_pow]. fuel.
  - cbn [get_pow_loop]. fuel.
  - cbn [get_par]. fuel.
  - cbn [get_id]. fuel.
Qed.

Lemma get_ass_S fuel : le_fuel (get_ass tokens fuel) (get_ass tokens (S fuel)).
Proof.
  destruct (expressions_S fuel) as (? & _ & _ & _ & _ & _ & _ & ?).
  unfold get_ass. fuel.
Qed.

Lemma commands_S fuel :
  le_fuel (get_cmd tokens fuel) (get_cmd tokens (S fuel))
  ∧ le_fuel (get_cond tokens fuel) (get_cond tokens (S fuel))
  ∧ (∀ cur_node,
       le_fuel (get_cond_loop tokens fuel cur_node) (get_cond_loop tokens (S fuel) cur_node)).
Proof.
  induction fuel as [|n (IHcmd & IHcond & IHloop)];
    [split_and!; intros; apply le_fuel_out_of_fuel|].
  pose proof (get_ass_S n).
  destruct (expressions_S n) as (? & _ & _ & _ & _ & _ & _ & ?).
  split_and!; intros.
  - cbn [get_cmd]. fuel.
  - cbn [get_cond]. fuel.
  - cbn [get_cond_loop]. fuel.
Qed.

Lemma scopes_S fuel :
  le_fuel (get_scope tokens fuel) (get_scope tokens (S fuel))
  ∧ (∀ cur_node,
       le_fuel (get_scope_loop tokens fuel cur_node) (get_scope_loop tokens (S fuel) cur_node)).
Proof.
  induction fuel as [|n (IHscope & IHloop)];
    [split_and!; intros; apply le_fuel_out_of_fuel|].
  destruct (commands_S n) as (? & _ & _).
  pose proof (get_scope_end_S n).
  split_and!; intros.
  - cbn [get_scope]. fuel.
  - cbn [get_scope_loop]. fuel.
Qed.

Lemma le_fuel_steps {A} (f : nat → M A) :
  (∀ n, le_fuel (f n) (f (S n))) → ∀ n m, n ≤ m → le_fuel (f n) (f m).
Proof.
  intros Hstep n m Hle. induction Hle as [|m _ IH]; [apply le_fuel_refl|].
  eapply le_fuel_trans; [exact IH | apply Hstep].
Qed.

(** A result reached with some fuel is the result with any larger fuel. *)
Lemma get_scope_fuel n m s p s' :
  n ≤ m → get_scope tokens n s = Ret p s' → get_scope tokens m s = Ret p s'.
Proof.
  intros Hle Hrun.
  destruct (le_fuel_steps (get_scope tokens) (fun k => proj1 (scopes_S k)) n m Hle s)
    as [H|H]; congruence.
Qed.

Lemma get_cmd_fuel n m s p s' :
  n ≤ m → get_cmd tokens n s = Ret p s' → get_cmd tokens m s = Ret p s'.
Proof.
  intros Hle Hrun.
  destruct (le_fuel_steps (get_cmd tokens) (fun k => proj1 (commands_S k)) n m Hle s)
    as [H|H]; congruence.
Qed.

(** ** Expressions *)

Lemma run_CUR_TOKEN s t :
  tokens !! id s = Some t → CUR_TOKEN tokens s = Ret t s.
Proof. intros H. unfold CUR_TOKEN. by rewrite H. Qed.

Lemma run_CUR_OP s t :
  tokens !! id s = Some t → CUR_OP tokens s = Ret (op_value t) s.
Proof. intros H. unfold CUR_OP, CUR_TOKEN, bind, ret. by rewrite H. Qed.

Lemma run_CUR_NUM s t :
  tokens !! id s = Some t → CUR_NUM tokens s = Ret (num_value t) s.
Proof. intros H. unfold CUR_NUM, CUR_TOKEN, bind, ret. by rewrite H. Qed.

Lemma run_read_var_value s t :
  tok_type t ≠ NUM → tok_type t ≠ OP → read_var_value t s = Ret (var_value t) s.
Proof. unfold read_var_value. by destruct (tok_type t). Qed.

Lemma run_read_name s t : reads_name t → read_var_value t s = Ret (var_value t) s.
Proof. intros [? ?]. by apply run_read_var_value. Qed.

Lemma read_var_value_inv s t name s' :
  read_var_value t s = Ret name s' → reads_name t ∧ name = var_value t ∧ s' = s.
Proof.
  unfold read_var_value, reads_name.
  destruct (tok_type t); intros [= <- <-] || intros [=]; done.
Qed.

(** One step of a run: the first action of the sequence is a primitive whose
    result is known. *)
Ltac run_prim :=
  rewrite ?bind_assoc;
  erewrite run_bind
    by (first [ eapply run_CUR_TYPE; eassumption
              | eapply run_CUR_OP; eassumption
              | eapply run_CUR_NUM; eassumption
              | eapply run_CUR_TOKEN; eassumption
              | eapply run_read_name; eassumption
              | eapply run_read_var_value; congruence
              | reflexivity ]);
  cbn [id sce_debt heap tok_type op_value num_value var_value].

(** An atom is parsed into one leaf. *)
Lemma get_par_atom fuel s a rest :
  drop (id s) tokens = atom_token a :: rest →
  2 ≤ fuel →
  get_par tokens fuel s
  = Ret (Some (length (heap s)))
        (mkState (S (id s)) (sce_debt s) (heap s ++ [atom_node a])).
Proof.
  intros [Hl _]%drop_lookup_head Hfuel.
  destruct fuel as [|[|n]]; [lia..|].
  cbn [get_par]. run_prim.
  destruct a as [x|name]; cbn [atom_token tNUM tVAR tok_type] in *.
  - rewrite decide_False, decide_True by done.
    unfold get_num. repeat run_prim. reflexivity.
  - rewrite !decide_False by done.
    cbn [get_id]. repeat run_prim. reflexivity.
Qed.

(** The guard of the three operator loops. *)
Lemma run_guard {A} (f : Ops → bool) (k : bool → M A) s t :
  tokens !! id s = Some t →
  (ty <- CUR_TYPE tokens ;;
   go <- (if decide (ty = OP) then op <- CUR_OP tokens ;; ret (f op) else ret false) ;;
   k go) s
  = k (bool_decide (tok_type t = OP) && f (op_value t)) s.
Proof.
  intros Ht. run_prim. case_decide as Hty.
  - run_prim. rewrite bool_decide_true by done. reflexivity.
  - rewrite bool_decide_false by done. reflexivity.
Qed.

Lemma get_pow_loop_spec xs :
  continues tokens (get_pow_loop tokens) 1 stop_pow (pow_tail_tokens xs) (pow_tail_tree xs).
Proof.
  induction xs as [|x xs IH]; intros fuel s lo v tv nxt rest Hdrop Hstop Hfuel Hv;
    (destruct fuel as [|n]; [simpl in Hfuel; lia|]); cbn [get_pow_loop].
  - apply drop_lookup_head in Hdrop as [Hl _].
    rewrite (run_guard (fun op => bool_decide (op = POW)) _ _ _ Hl).
    unfold stop_pow, is_op in Hstop. apply negb_true_iff in Hstop. rewrite Hstop.
    exists v, []. split; [apply (f_equal (Ret (Some v))), state_unchanged|].
    by rewrite app_nil_r.
  - cbn [pow_tail_tokens flat_map app length] in Hdrop, Hfuel.
    change (flat_map _ xs) with (pow_tail_tokens xs) in Hdrop, Hfuel.
    apply drop_lookup_head in Hdrop as [Hl Hdrop].
    rewrite (run_guard (fun op => bool_decide (op = POW)) _ _ _ Hl).
    cbn [tOP tok_type op_value]. rewrite !bool_decide_true by done. cbn [andb].
    run_prim.
    erewrite run_bind; [|eapply get_par_atom; [exact Hdrop | lia]].
    cbn [CHECK_RET]. run_prim.
    apply drop_lookup_head in Hdrop as [_ Hdrop].
    pose proof (repr_in_bounds _ _ _ _ _ Hv) as Hlo.
    destruct (IH n (mkState (S (S (id s))) (sce_debt s)
                 ((heap s ++ [atom_node x])
                  ++ [mkNode OP (Op_val POW) (Some v) (Some (length (heap s)))]))
                lo (length (heap s ++ [atom_node x]))
                (Node OP (Op_val POW) tv (atom_tree x)) nxt rest)
      as (p & h' & Hrun & Hp); [exact Hdrop | exact Hstop | lia | |].
    + cbn [heap]. apply repr_in_new.
      * rewrite length_app. lia.
      * apply repr_in_app. eapply repr_in_weaken; [..|exact Hv];
          [lia | rewrite length_app; lia].
      * eapply repr_in_weaken; [..|apply repr_in_atom]; lia.
    + cbn [id sce_debt heap] in Hrun, Hp.
      exists p, ([atom_node x] ++ [mkNode OP (Op_val POW) (Some v) (Some (length (heap s)))] ++ h').
      rewrite !app_assoc. split; [|exact Hp].
      etransitivity; [exact Hrun|]. do 2 f_equal.
      cbn [pow_tail_tokens flat_map app length].
      change (flat_map _ xs) with (pow_tail_tokens xs). lia.
Qed.

Lemma get_pow_spec p :
  parses tokens (get_pow tokens) 2 stop_pow (power_tokens p) (power_tree p).
Proof.
  destruct p as [a xs]. intros fuel s nxt rest Hdrop Hstop Hfuel.
  cbn [power_tokens power_tree fst snd app length] in *.
  destruct fuel as [|n]; [lia|]. cbn [get_pow].
  erewrite run_bind; [|eapply get_par_atom; [exact Hdrop | lia]].
  cbn [CHECK_RET].
  apply drop_lookup_head in Hdrop as [_ Hdrop].
  destruct (get_pow_loop_spec xs n
              (mkState (S (id s)) (sce_debt s) (heap s ++ [atom_node a]))
              (length (heap s)) (length (heap s)) (atom_tree a) nxt rest Hdrop Hstop)
    as (p & h' & Hrun & Hp); [lia | apply repr_in_atom |].
  cbn [id sce_debt heap] in Hrun, Hp.
  exists p, ([atom_node a] ++ h'). rewrite app_assoc. split; [|exact Hp].
  etransitivity; [exact Hrun|]. do 2 f_equal. lia.
Qed.

(** *** A production that parses a first operand and then loops *)
Section OperatorLoop.

Variable f : nat → M ptr.
Variable loop : nat → ptr → M ptr.
Variable F : nat → M ptr.
Variable accept : Ops → bool.
Variable cf : nat.
Variables stopf stop : Token → bool.

Hypothesis F_eq : ∀ n, F (S n) = (val <- f n ;; CHECK_RET val (loop n val)).
Hypothesis loop_eq : ∀ n val,
  loop (S n) val
  = (ty <- CUR_TYPE tokens ;;
     go <- (if decide (ty = OP) then op <- CUR_OP tokens ;; ret (accept op)
            else ret false) ;;
     if go : bool then
       op <- CUR_OP tokens ;;
       incr_id ;;
       val_2 <- f n ;;
       CHECK_RET val_2 (val' <- CR_OP op val val_2 ;; loop n val')
     else ret val).
Hypothesis cf_pos : 1 ≤ cf.
Hypothesis stop_rejects : ∀ t,
  stop t = true → bool_decide (tok_type t = OP) && accept (op_value t) = false.
Hypothesis stop_stopf : ∀ t, stop t = true → stopf t = true.
Hypothesis accept_stopf : ∀ o, accept o = true → stopf (tOP o) = true.

Definition item_ok (it : Ops * (list Token * tree)) : Prop :=
  accept (fst it) = true ∧ parses tokens f cf stopf (fst (snd it)) (snd (snd it)).

Lemma tail_next items nxt rest :
  Forall item_ok items → stop nxt = true →
  ∃ t rest', tail_tokens items ++ nxt :: rest = t :: rest' ∧ stopf t = true.
Proof.
  intros Hitems Hstop. destruct Hitems as [|[o [seg t]] items [Hacc _] _].
  - exists nxt, rest. split; [done | by apply stop_stopf].
  - eexists (tOP o), _. split; [reflexivity | by apply accept_stopf].
Qed.

Lemma loop_spec items :
  Forall item_ok items →
  continues tokens loop cf stop (tail_tokens items) (tail_tree items).
Proof.
  induction 1 as [|[o [seg t]] items [Hacc Hparse] Hitems IH];
    intros fuel s lo v tv nxt rest Hdrop Hstop Hfuel Hv;
    (destruct fuel as [|n]; [lia|]); rewrite loop_eq.
  - apply drop_lookup_head in Hdrop as [Hl _].
    rewrite (run_guard accept _ _ _ Hl), (stop_rejects _ Hstop).
    exists v, []. split; [apply (f_equal (Ret (Some v))), state_unchanged|].
    by rewrite app_nil_r.
  - cbn [tail_tokens flat_map fst snd app length] in Hdrop, Hfuel. cbn [fst snd] in *.
    change (flat_map _ items) with (tail_tokens items) in Hdrop, Hfuel.
    rewrite length_app in Hfuel.
    apply drop_lookup_head in Hdrop as [Hl Hdrop].
    rewrite (run_guard accept _ _ _ Hl).
    cbn [tOP tok_type op_value]. rewrite bool_decide_true, Hacc by done. cbn [andb].
    do 2 run_prim.
    rewrite <- app_assoc in Hdrop.
    destruct (tail_next items nxt rest Hitems Hstop) as (t' & rest' & Hnext & Ht').
    rewrite Hnext in Hdrop.
    destruct (Hparse n (mkState (S (id s)) (sce_debt s) (heap s)) t' rest' Hdrop Ht')
      as (p2 & h2 & Hrun2 & Hp2); [lia|].
    cbn [id sce_debt heap] in Hrun2, Hp2.
    erewrite run_bind; [|exact Hrun2]. cbn [CHECK_RET]. run_prim.
    rewrite <- Hnext in Hdrop. apply drop_past in Hdrop.
    pose proof (repr_in_bounds _ _ _ _ _ Hv) as Hlo.
    destruct (IH n (mkState (S (id s) + length seg) (sce_debt s)
                      ((heap s ++ h2) ++ [mkNode OP (Op_val o) (Some v) (Some p2)]))
                lo (length (heap s ++ h2)) (Node OP (Op_val o) tv t) nxt rest Hdrop Hstop)
      as (p & h' & Hrun & Hp); [lia | |].
    + cbn [heap]. apply repr_in_new.
      * rewrite length_app. lia.
      * apply repr_in_app. eapply repr_in_weaken; [..|exact Hv];
          [lia | rewrite length_app; lia].
      * eapply repr_in_weaken; [..|exact Hp2]; lia.
    + cbn [id sce_debt heap] in Hrun, Hp.
      exists p, (h2 ++ [mkNode OP (Op_val o) (Some v) (Some p2)] ++ h').
      rewrite !app_assoc. split; [|exact Hp].
      etransitivity; [exact Hrun|]. do 2 f_equal.
      cbn [tail_tokens flat_map fst snd app length].
      change (flat_map _ items) with (tail_tokens items).
      rewrite length_app. lia.
Qed.

Lemma head_loop_spec seg t items :
  parses tokens f cf stopf seg t →
  Forall item_ok items →
  parses tokens F (S cf) stop (seg ++ tail_tokens items) (tail_tree items t).
Proof.
  intros Hparse Hitems fuel s nxt rest Hdrop Hstop Hfuel.
  rewrite length_app in Hfuel.
  destruct fuel as [|n]; [lia|]. rewrite F_eq.
  rewrite <- app_assoc in Hdrop.
  destruct (tail_next items nxt rest Hitems Hstop) as (t' & rest' & Hnext & Ht').
  rewrite Hnext in Hdrop.
  destruct (Hparse n s t' rest' Hdrop Ht') as (p1 & h1 & Hrun1 & Hp1); [lia|].
  erewrite run_bind; [|exact Hrun1]. cbn [CHECK_RET].
  rewrite <- Hnext in Hdrop. apply drop_past in Hdrop.
  destruct (loop_spec items Hitems n
              (mkState (id s + length seg) (sce_debt s) (heap s ++ h1))
              (length (heap s)) p1 t nxt rest Hdrop Hstop)
    as (p & h' & Hrun & Hp); [lia | exact Hp1 |].
  cbn [id sce_debt heap] in Hrun, Hp.
  exists p, (h1 ++ h'). rewrite app_assoc. split; [|exact Hp].
  etransitivity; [exact Hrun|]. do 2 f_equal. rewrite length_app. lia.
Qed.

End OperatorLoop.

Lemma stop_mul_rejects t :
  stop_mul t = true →
  bool_decide (tok_type t = OP)
  && (bool_decide (op_value t = MUL) || bool_decide (op_value t = DIV)) = false.
Proof.
  unfold stop_mul, stop_pow, is_op.
  destruct (bool_decide (tok_type t = OP)); [|done].
  by destruct (bool_decide (op_value t = MUL)), (bool_decide (op_value t = DIV)).
Qed.

Lemma stop_add_rejects t :
  stop_add t = true →
  bool_decide (tok_type t = OP)
  && (bool_decide (op_value t = ADD) || bool_decide (op_value t = SUB)) = false.
Proof.
  unfold stop_add, stop_mul, stop_pow, is_op.
  destruct (bool_decide (tok_type t = OP)); [|done].
  by destruct (bool_decide (op_value t = ADD)), (bool_decide (op_value t = SUB)).
Qed.

Lemma stop_mul_pow t : stop_mul t = true → stop_pow t = true.
Proof. unfold stop_mul. by intros [_ ?]%andb_true_iff. Qed.

Lemma stop_add_mul t : stop_add t = true → stop_mul t = true.
Proof. unfold stop_add. by intros [_ ?]%andb_true_iff. Qed.

Lemma mul_tail_tokens_items ps : mul_tail_tokens ps = tail_tokens (map mul_item ps).
Proof. induction ps as [|? ps IH]; simpl; [done | by rewrite <- IH]. Qed.

Lemma mul_tail_tree_items ps : ∀ t, mul_tail_tree ps t = tail_tree (map mul_item ps) t.
Proof. induction ps as [|? ps IH]; intros t; simpl; [done | by rewrite <- IH]. Qed.

Lemma add_tail_tokens_items ts : add_tail_tokens ts = tail_tokens (map add_item ts).
Proof. induction ts as [|? ts IH]; simpl; [done | by rewrite <- IH]. Qed.

Lemma add_tail_tree_items ts : ∀ t, add_tail_tree ts t = tail_tree (map add_item ts) t.
Proof. induction ts as [|? ts IH]; intros t; simpl; [done | by rewrite <- IH]. Qed.

Lemma get_mul_spec t :
  parses tokens (get_mul tokens) 3 stop_mul (term_tokens t) (term_tree t).
Proof.
  destruct t as [p ps]. unfold term_tokens, term_tree. cbn [fst snd].
  rewrite mul_tail_tokens_items, mul_tail_tree_items.
  apply (head_loop_spec (get_pow tokens) (get_mul_loop tokens) (get_mul tokens)
           (fun op => bool_decide (op = MUL) || bool_decide (op = DIV)) 2 stop_pow stop_mul).
  - reflexivity.
  - reflexivity.
  - lia.
  - apply stop_mul_rejects.
  - apply stop_mul_pow.
  - by intros [].
  - apply get_pow_spec.
  - apply Forall_map, Forall_forall. intros [o q] _. split; [by destruct o|].
    apply get_pow_spec.
Qed.

Lemma get_add_spec e :
  parses tokens (get_add tokens) 4 stop_add (expr_tokens e) (expr_tree e).
Proof.
  destruct e as [t ts]. unfold expr_tokens, expr_tree. cbn [fst snd].
  rewrite add_tail_tokens_items, add_tail_tree_items.
  apply (head_loop_spec (get_mul tokens) (get_add_loop tokens) (get_add tokens)
           (fun op => bool_decide (op = ADD) || bool_decide (op = SUB)) 3 stop_mul stop_add).
  - reflexivity.
  - reflexivity.
  - lia.
  - apply stop_add_rejects.
  - apply stop_add_mul.
  - by intros [].
  - apply get_mul_spec.
  - apply Forall_map, Forall_forall. intros [o q] _. split; [by destruct o|].
    apply get_mul_spec.
Qed.

(** *** Precedence and associativity *)

Lemma has_op_atom P a : has_op P (atom_tree a) = false.
Proof. by destruct a. Qed.

Lemma has_op_pow_tail P xs : P POW = false →
  ∀ t, has_op P (pow_tail_tree xs t) = has_op P t.
Proof.
  intros HP. induction xs as [|x xs IH]; intros t; [done|].
  cbn [pow_tail_tree fold_left]. change (fold_left _ xs ?t) with (pow_tail_tree xs t).
  rewrite IH. cbn [has_op]. rewrite HP, has_op_atom. cbn [orb]. apply orb_false_r.
Qed.

Lemma has_op_power P p : P POW = false → has_op P (power_tree p) = false.
Proof.
  intros HP. unfold power_tree. rewrite has_op_pow_tail by done. apply has_op_atom.
Qed.

Lemma additive_mul_tail ps :
  ∀ t, has_op additive (mul_tail_tree ps t) = has_op additive t.
Proof.
  induction ps as [|[o q] ps IH]; intros t; [done|].
  cbn [mul_tail_tree fold_left]. change (fold_left _ ps ?t) with (mul_tail_tree ps t).
  rewrite IH. cbn [has_op fst snd]. rewrite has_op_power by done.
  destruct o; cbn; apply orb_false_r.
Qed.

Lemma additive_term t : has_op additive (term_tree t) = false.
Proof. unfold term_tree. rewrite additive_mul_tail. by apply has_op_power. Qed.

Lemma binds_tighter_atom a : binds_tighter (atom_tree a) = true.
Proof. by destruct a. Qed.

Lemma binds_tighter_pow_tail xs :
  ∀ t, binds_tighter (pow_tail_tree xs t) = binds_tighter t.
Proof.
  induction xs as [|x xs IH]; intros t; [done|].
  cbn [pow_tail_tree fold_left]. change (fold_left _ xs ?t) with (pow_tail_tree xs t).
  rewrite IH. cbn. rewrite binds_tighter_atom. by rewrite !andb_true_r.
Qed.

Lemma binds_tighter_power p : binds_tighter (power_tree p) = true.
Proof. unfold power_tree. rewrite binds_tighter_pow_tail. apply binds_tighter_atom. Qed.

Lemma binds_tighter_mul_tail ps : ∀ t,
  binds_tighter t = true → has_op additive t = false →
  binds_tighter (mul_tail_tree ps t) = true.
Proof.
  induction ps as [|[o q] ps IH]; intros t Ht Hadd; [done|].
  cbn [mul_tail_tree fold_left]. change (fold_left _ ps ?t) with (mul_tail_tree ps t).
  apply IH; cbn [binds_tighter has_op fst snd].
  - rewrite Ht, binds_tighter_power, Hadd, has_op_power by done. by destruct o.
  - rewrite Hadd, has_op_power by done. by destruct o.
Qed.

Lemma binds_tighter_term t : binds_tighter (term_tree t) = true.
Proof.
  unfold term_tree. apply binds_tighter_mul_tail;
    [apply binds_tighter_power | by apply has_op_power].
Qed.

Lemma binds_tighter_add_tail ts : ∀ t,
  binds_tighter t = true → binds_tighter (add_tail_tree ts t) = true.
Proof.
  induction ts as [|[o q] ts IH]; intros t Ht; [done|].
  cbn [add_tail_tree fold_left]. change (fold_left _ ts ?t) with (add_tail_tree ts t).
  apply IH. cbn [binds_tighter fst snd]. rewrite Ht, binds_tighter_term. by destruct o.
Qed.

Lemma binds_tighter_expr e : binds_tighter (expr_tree e) = true.
Proof. unfold expr_tree. apply binds_tighter_add_tail, binds_tighter_term. Qed.

(** C2: [get_add] turns every expression without parentheses into the tree
    in which products are the operands of sums, never the other way round;
    for [2 + 3 * 4] the root is [+], its right child is [*], and the tree
    evaluates to 14, not 20. *)
Theorem C2_precedence (fuel : nat) (s : state) (nxt : Token) (rest : list Token) :
  stop_add nxt = true →
  (∀ e : expr,
      drop (id s) tokens = expr_tokens e ++ nxt :: rest →
      length (expr_tokens e) + 4 ≤ fuel →
      ∃ p h',
        get_add tokens fuel s
        = Ret (Some p) (mkState (id s + length (expr_tokens e)) (sce_debt s) (heap s ++ h'))
        ∧ repr (heap s ++ h') (Some p) (expr_tree e)
        ∧ binds_tighter (expr_tree e) = true)
  ∧ (tokens = [tNUM 2; tOP ADD; tNUM 3; tOP MUL; tNUM 4] ++ nxt :: rest →
     9 ≤ fuel →
     ∃ p h,
       get_add tokens fuel initial = Ret (Some p) (mkState 5 0 h)
       ∧ repr h (Some p)
           (Node OP (Op_val ADD)
              (Node NUM (Num_val 2) Leaf Leaf)
              (Node OP (Op_val MUL)
                 (Node NUM (Num_val 3) Leaf Leaf) (Node NUM (Num_val 4) Leaf Leaf)))
       ∧ ∀ pow env,
           eval pow env
             (Node OP (Op_val ADD)
                (Node NUM (Num_val 2) Leaf Leaf)
                (Node OP (Op_val MUL)
                   (Node NUM (Num_val 3) Leaf Leaf) (Node NUM (Num_val 4) Leaf Leaf)))
           = Some 14%float
           ∧ Some 14%float ≠ Some 20%float).
Proof.
  intros Hstop. split.
  - intros e Hdrop Hfuel.
    destruct (get_add_spec e fuel s nxt rest Hdrop Hstop Hfuel) as (p & h' & Hrun & Hp).
    exists p, h'. split; [exact Hrun|]. split; [by eapply repr_in_repr|].
    apply binds_tighter_expr.
  - intros Htokens Hfuel.
    destruct (get_add_spec two_plus_three_times_four fuel initial nxt rest)
      as (p & h' & Hrun & Hp); [by rewrite Htokens | exact Hstop | simpl; lia |].
    exists p, h'. split; [exact Hrun|]. split; [by eapply repr_in_repr|].
    intros pow env. split; [reflexivity|].
    intros H.
    pose proof (f_equal (fun o => match o with
                                  | Some x => PrimFloat.eqb 14 x
                                  | None => false
                                  end) H) as Heq.
    vm_compute in Heq. discriminate Heq.
Qed.

Lemma pow_tail_tree_snoc xs x t :
  pow_tail_tree (xs ++ [x]) t = Node OP (Op_val POW) (pow_tail_tree xs t) (atom_tree x).
Proof. unfold pow_tail_tree. by rewrite fold_left_app. Qed.

(** C3: [get_pow] folds a chain of [^] to the left: the last operator is the
    root and all that precedes it is its left operand; [2 ^ 3 ^ 2] becomes the
    tree of [(2 ^ 3) ^ 2], which is not the tree of [2 ^ (3 ^ 2)]. *)
Theorem C3_power_folds_left (fuel : nat) (s : state) (nxt : Token) (rest : list Token) :
  stop_pow nxt = true →
  (∀ p : power,
      drop (id s) tokens = power_tokens p ++ nxt :: rest →
      length (power_tokens p) + 2 ≤ fuel →
      ∃ r h',
        get_pow tokens fuel s
        = Ret (Some r) (mkState (id s + length (power_tokens p)) (sce_debt s) (heap s ++ h'))
        ∧ repr (heap s ++ h') (Some r) (power_tree p))
  ∧ (∀ a xs x,
      power_tree (a, xs ++ [x])
      = Node OP (Op_val POW) (power_tree (a, xs)) (atom_tree x))
  ∧ (tokens = [tNUM 2; tOP POW; tNUM 3; tOP POW; tNUM 2] ++ nxt :: rest →
     7 ≤ fuel →
     ∃ r h,
       get_pow tokens fuel initial = Ret (Some r) (mkState 5 0 h)
       ∧ repr h (Some r)
           (Node OP (Op_val POW)
              (Node OP (Op_val POW)
                 (Node NUM (Num_val 2) Leaf Leaf) (Node NUM (Num_val 3) Leaf Leaf))
              (Node NUM (Num_val 2) Leaf Leaf))
       ∧ ¬ repr h (Some r)
           (Node OP (Op_val POW)
              (Node NUM (Num_val 2) Leaf Leaf)
              (Node OP (Op_val POW)
                 (Node NUM (Num_val 3) Leaf Leaf) (Node NUM (Num_val 2) Leaf Leaf)))).
Proof.
  intros Hstop. split_and!.
  - intros p Hdrop Hfuel.
    destruct (get_pow_spec p fuel s nxt rest Hdrop Hstop Hfuel) as (r & h' & Hrun & Hr).
    exists r, h'. split; [exact Hrun | by eapply repr_in_repr].
  - intros a xs x. unfold power_tree. cbn [fst snd]. apply pow_tail_tree_snoc.
  - intros Htokens Hfuel.
    destruct (get_pow_spec two_pow_three_pow_two fuel initial nxt rest)
      as (r & h' & Hrun & Hr); [by rewrite Htokens | exact Hstop | simpl; lia |].
    apply repr_in_repr in Hr.
    exists r, h'. split; [exact Hrun|]. split; [exact Hr|].
    intros Hr'. pose proof (repr_det _ _ _ _ Hr Hr') as Heq. discriminate Heq.
Qed.

(** ** Spines *)

Lemma spine_repr h lo e p t : spine h lo e p t → repr h p t.
Proof.
  induction 1 as [n tl Hlo He Hr Hl | a n tl tr Hlo Ha Hn Hl _ IH].
  - econstructor; [done | by eapply repr_in_repr | rewrite Hr; constructor].
  - econstructor; [done | by eapply repr_in_repr | done].
Qed.

Lemma spine_weaken h lo lo' e p t : lo' ≤ lo → spine h lo e p t → spine h lo' e p t.
Proof.
  intros Hle. induction 1 as [n tl Hlo He Hr Hl | a n tl tr Hlo Ha Hn Hl _ IH].
  - apply spine_end; [lia | done | done |]. eapply repr_in_weaken; [..|exact Hl]; lia.
  - apply spine_step; [lia | done | done | | done].
    eapply repr_in_weaken; [..|exact Hl]; lia.
Qed.

Lemma spine_app h h' lo e p t : spine h lo e p t → spine (h ++ h') lo e p t.
Proof.
  induction 1 as [n tl Hlo He Hr Hl | a n tl tr Hlo Ha Hn Hl _ IH].
  - apply spine_end; [done | by apply lookup_app_l_Some | done | by apply repr_in_app].
  - apply spine_step; [done | done | by apply lookup_app_l_Some | by apply repr_in_app | done].
Qed.

(** Writing below a spine leaves it alone. *)
Lemma spine_insert_below h lo e p t e0 n0 :
  e0 < lo → spine h lo e p t → spine (<[e0 := n0]> h) lo e p t.
Proof.
  intros Hlt. induction 1 as [n tl Hlo He Hr Hl | a n tl tr Hlo Ha Hn Hl _ IH].
  - apply spine_end; [done | | done | apply repr_in_insert; [lia | done]].
    rewrite list_lookup_insert_ne by lia. done.
  - apply spine_step; [done | done | | apply repr_in_insert; [lia | done] | done].
    rewrite list_lookup_insert_ne by lia. done.
Qed.

Lemma run_load s a n : heap s !! a = Some n → load (Some a) s = Ret n s.
Proof. intros H. unfold load. by rewrite H. Qed.

Lemma run_store s a n f :
  heap s !! a = Some n →
  store (Some a) f s = Ret tt (mkState (id s) (sce_debt s) (<[a := f n]> (heap s))).
Proof. intros H. unfold store. by rewrite H. Qed.

(** [get_scope_end] walks a spine to its end. *)
Lemma get_scope_end_spine h lo e c t :
  spine h lo e (Some c) t →
  ∀ fuel s, heap s = h → spine_len t ≤ fuel →
    get_scope_end fuel (Some c) s = Ret (Some e) s.
Proof.
  cbn [get_scope_end]. remember (Some c) as p eqn:Hp. intros Hsp. revert c Hp.
  induction Hsp as [n tl Hlo He Hr Hl | a n tl tr Hlo Ha Hn Hl Hsp IH];
    intros c [= ->] fuel s Hs Hfuel;
    (destruct fuel as [|fuel]; [simpl in Hfuel; lia|]); cbn [scope_end_loop].
  - rewrite (run_bind _ _ _ _ _ (run_load s c n ltac:(by rewrite Hs))). by rewrite Hr.
  - rewrite (run_bind _ _ _ _ _ (run_load s c n ltac:(by rewrite Hs))).
    destruct (right n) as [b|] eqn:Hb; [|by inversion Hsp].
    apply (IH b eq_refl); [done | simpl in Hfuel; lia].
Qed.

Lemma spine_end_lookup h lo e p t :
  spine h lo e p t → lo ≤ e ∧ ∃ n, h !! e = Some n ∧ right n = NULL.
Proof. induction 1; eauto. Qed.

(** A tree built above the end of a spine is hung at its end. *)
Lemma spine_attach h h' e e' n x p T X :
  spine h 0 e p T →
  h !! e = Some n →
  spine (h ++ h') (length h) e' x X →
  spine (<[e := set_right n x]> (h ++ h')) 0 e' p (attach_end T X).
Proof.
  intros Hsp He Hx.
  destruct (spine_end_lookup _ _ _ _ _ Hx) as (He' & _).
  assert (Hlt : e < length h) by (by eapply lookup_lt_Some).
  pose proof (spine_weaken _ _ 0 _ _ _ (Nat.le_0_l _)
                (spine_insert_below _ _ _ _ _ e (set_right n x) Hlt Hx)) as Hx'.
  induction Hsp as [m tl Hlo Hm Hr Hl | a m tl tr Hlo Ha Hm Hl Hsp IH].
  - assert (m = n) as -> by congruence.
    cbn [attach_end].
    apply (spine_step _ _ _ e (set_right n x) tl X); [lia | lia | | | exact Hx'].
    + rewrite list_lookup_insert_eq by (rewrite length_app; lia). done.
    + cbn [set_right left]. apply (repr_in_weaken _ 0 e); [lia | lia |].
      apply repr_in_insert; [right; lia|]. by apply repr_in_app.
  - cbn [attach_end].
    assert (a < length h) by (by eapply lookup_lt_Some).
    apply spine_step; [lia | lia | | | by apply IH].
    + rewrite list_lookup_insert_ne by done. by apply lookup_app_l_Some.
    + apply (repr_in_weaken _ 0 e); [lia | lia |].
      apply repr_in_insert; [right; lia|]. by apply repr_in_app.
Qed.

Lemma spine_len_attach T X : spine_len (attach_end T X) = spine_len T + spine_len X.
Proof. induction T as [|ty v l _ r IH]; simpl; [done | by rewrite IH]. Qed.

(** The step of [cur_node] along a spine that has been extended. *)
Lemma spine_next h lo e c ty v tl tr :
  spine h lo e (Some c) (Node ty v tl tr) → tr ≠ Leaf →
  ∃ n, h !! c = Some n ∧ spine h lo e (right n) tr.
Proof.
  inversion 1 as [n tl' Hlo He Hr Hl | a n tl' tr' Hlo Ha Hn Hl Hsp]; subst; [done|].
  intros _. eauto.
Qed.

(** ** Assignments and scopes of one statement *)

Lemma stop_add_tSMC : stop_add tSMC = true.
Proof. reflexivity. Qed.

Lemma get_ass_spec c :
  parses tokens (get_ass tokens) 4 stop_add (ass_tokens c) (ass_tree c).
Proof.
  destruct c as [name e]. intros fuel s nxt rest Hdrop Hstop Hfuel.
  cbn [ass_tokens ass_tree fst snd app length] in *.
  apply drop_lookup_head in Hdrop as [Hl0 Hdrop].
  pose proof Hdrop as [Hl1 Hdrop']%drop_lookup_head.
  destruct fuel as [|n]; [lia|]. unfold get_ass. cbn [get_id].
  repeat run_prim. cbn [CHECK_RET tVAR var_value].
  rewrite (run_guard (fun op => bool_decide (op = ASS)) _
             (mkState (S (id s)) (sce_debt s)
                (heap s ++ [mkNode VAR (Var_val name) None None])) _ Hl1).
  cbn [tOP tok_type op_value]. rewrite !bool_decide_true by done. cbn [andb].
  run_prim.
  destruct (get_add_spec e (S n)
              (mkState (S (S (id s))) (sce_debt s)
                 (heap s ++ [mkNode VAR (Var_val name) None None]))
              nxt rest Hdrop' Hstop) as (p & h' & Hrun & Hp); [lia|].
  cbn [id sce_debt heap] in Hrun, Hp.
  erewrite run_bind; [|exact Hrun]. cbn [CHECK_RET].
  unfold CR_ASS, create_node. cbn [id sce_debt heap].
  exists (length ((heap s ++ [mkNode VAR (Var_val name) None None]) ++ h')),
    ([mkNode VAR (Var_val name) None None] ++ h'
     ++ [mkNode OP (Op_val ASS) (Some (length (heap s))) (Some p)]).
  rewrite !app_assoc. split; [do 2 f_equal; lia|].
  apply repr_in_new.
  - rewrite !length_app. lia.
  - apply repr_in_app. eapply repr_in_weaken;
      [| |apply (repr_in_new _ (length (heap s)) VAR (Var_val name) None None Leaf Leaf);
           (lia || constructor)]; [lia | rewrite !length_app; lia].
  - eapply repr_in_weaken; [..|exact Hp]; [rewrite length_app|]; lia.
Qed.

Lemma get_cmd_spec c fuel s rest :
  drop (id s) tokens = cmd_tokens c ++ rest →
  sce_debt s = 0%N →
  length (cmd_tokens c) + 4 ≤ fuel →
  ∃ p h',
    get_cmd tokens fuel s
    = Ret (Some (length (heap s ++ h')))
          (mkState (id s + length (cmd_tokens c)) 0
                   ((heap s ++ h') ++ [mkNode SMC No_val (Some p) NULL]))
    ∧ repr_in (heap s ++ h') (length (heap s)) (length (heap s ++ h')) (Some p) (ass_tree c).
Proof.
  intros Hdrop Hdebt Hfuel. unfold cmd_tokens in *.
  rewrite length_app in *. cbn [length] in *.
  rewrite <- app_assoc in Hdrop. cbn [app] in Hdrop.
  assert (Hl : tokens !! id s = Some (tVAR (fst c))).
  { destruct c. by apply drop_lookup_head in Hdrop as [? _]. }
  destruct fuel as [|n]; [lia|]. cbn [get_cmd].
  run_prim. cbn [tVAR tok_type]. rewrite decide_False by done.
  destruct (get_ass_spec c n s tSMC rest Hdrop stop_add_tSMC) as (p & h' & Hrun & Hp); [lia|].
  erewrite run_bind; [|exact Hrun]. cbn [CHECK_RET].
  apply drop_past, drop_lookup_head in Hdrop as [Hsmc _].
  assert (Hsmc' : tokens !! id (mkState (id s + length (ass_tokens c)) (sce_debt s)
                                  (heap s ++ h')) = Some tSMC) by exact Hsmc.
  rewrite (run_bind _ _ _ _ _ (run_CUR_TYPE _ _ Hsmc')).
  cbn [tSMC tok_type]. rewrite decide_True by done.
  run_prim. unfold finish_cmd. run_prim. rewrite Hdebt, decide_True by done.
  unfold CR_SMC, create_node. cbn [id sce_debt heap].
  exists p, h'. split; [|exact Hp]. do 2 f_equal. lia.
Qed.

(** [get_scope] at a token that opens no scope is [get_cmd]. *)
Lemma get_scope_cmd n s t p s' :
  tokens !! id s = Some t → tok_type t ≠ OCBR →
  get_cmd tokens n s = Ret (Some p) s' →
  get_scope tokens (S n) s = Ret (Some p) s'.
Proof.
  intros Hl Hty Hrun. cbn [get_scope]. run_prim.
  rewrite decide_False by done.
  erewrite run_bind; [|exact Hrun]. reflexivity.
Qed.

Lemma sce_wrap_comm k t :
  sce_wrap k (Node SCE No_val Leaf t) = Node SCE No_val Leaf (sce_wrap k t).
Proof. induction k as [|k IH]; simpl; [done | by rewrite IH]. Qed.

(** Paying a debt puts as many [SCE] nodes on top of a spine. *)
Lemma pay_scope_debt_spine times : ∀ root s lo e t,
  spine (heap s) lo e (Some root) t →
  ∃ root',
    pay_scope_debt times (Some root) s
    = Ret (Some root')
          (mkState (id s) (sce_debt s)
                   (heap s ++ sce_stack (length (heap s)) (Some root) times))
    ∧ spine (heap s ++ sce_stack (length (heap s)) (Some root) times) lo e
            (Some root') (sce_wrap times t).
Proof.
  induction times as [|k IH]; intros root s lo e t Hsp; cbn [pay_scope_debt sce_stack].
  - exists root. rewrite app_nil_r. split; [by destruct s | done].
  - unfold CR_SCE, create_node. run_prim.
    destruct (spine_end_lookup _ _ _ _ _ Hsp) as (Hlo & ne & He & _).
    pose proof (lookup_lt_Some _ _ _ He) as Hlt.
    destruct (IH (length (heap s))
                 (mkState (id s) (sce_debt s)
                    (heap s ++ [mkNode SCE No_val NULL (Some root)]))
                 lo e (Node SCE No_val Leaf t)) as (root' & Hrun & Hsp').
    { cbn [heap].
      apply (spine_step _ _ _ (length (heap s)) (mkNode SCE No_val NULL (Some root)) Leaf t);
        [lia | lia | by apply list_lookup_middle | constructor | by apply spine_app]. }
    cbn [id sce_debt heap] in Hrun, Hsp'.
    rewrite length_app, Nat.add_1_r, <- app_assoc in Hrun, Hsp'. cbn [app] in Hrun, Hsp'.
    exists root'. split; [exact Hrun|]. cbn [sce_wrap]. by rewrite <- sce_wrap_comm.
Qed.

Lemma length_sub_scope_tokens c :
  length (sub_scope_tokens c) = length (cmd_tokens c) + 2.
Proof. unfold sub_scope_tokens. cbn [length]. rewrite length_app. simpl. lia. Qed.

(** A scope of one statement, entered with any debt: the debt is paid on top
    of the statement, and one closure is owed at the return. *)
Lemma sub_scope_spec c fuel s rest :
  drop (id s) tokens = sub_scope_tokens c ++ rest →
  length (sub_scope_tokens c) + 4 ≤ fuel →
  ∃ root e h',
    get_scope tokens fuel s
    = Ret (Some root)
          (mkState (id s + length (sub_scope_tokens c)) 1 (heap s ++ h'))
    ∧ spine (heap s ++ h') (length (heap s)) e (Some root)
            (sub_scope_tree (N.to_nat (sce_debt s)) c).
Proof.
  intros Hdrop Hfuel. rewrite length_sub_scope_tokens in *.
  unfold sub_scope_tokens in Hdrop. cbn [app] in Hdrop.
  apply drop_lookup_head in Hdrop as [Hl Hdrop].
  rewrite <- app_assoc in Hdrop. cbn [app] in Hdrop.
  destruct fuel as [|[|n]]; [lia..|]. cbn [get_scope].
  run_prim. cbn [tOCBR tok_type]. rewrite decide_True by done.
  do 3 run_prim.
  destruct (get_cmd_spec c n (mkState (S (id s)) 0 (heap s)) (tCCBR :: rest) Hdrop eq_refl)
    as (p & h1 & Hcmd & Hp); [lia|].
  cbn [id sce_debt heap] in Hcmd, Hp.
  assert (Hfirst : tokens !! S (id s) = Some (tVAR (fst c))).
  { destruct c. unfold cmd_tokens, ass_tokens in Hdrop. cbn [app fst] in Hdrop.
    by apply drop_lookup_head in Hdrop as [? _]. }
  erewrite run_bind;
    [|by apply (get_scope_cmd n (mkState (S (id s)) 0 (heap s)) _ _ _ Hfirst ltac:(done) Hcmd)].
  cbn [CHECK_RET].
  (* the loop stops at once: the closing brace follows *)
  apply drop_past, drop_lookup_head in Hdrop as [Hclose _].
  cbn [get_scope_loop].
  assert (Hclose' : tokens !! id (mkState (S (id s) + length (cmd_tokens c)) 0
                                    ((heap s ++ h1) ++ [mkNode SMC No_val (Some p) None]))
                    = Some tCCBR) by exact Hclose.
  rewrite bind_assoc, (run_bind _ _ _ _ _ (run_CUR_TYPE _ _ Hclose')).
  cbn [tCCBR tok_type]. rewrite decide_True by done.
  do 3 run_prim.
  (* the statement node becomes the head of the sequence *)
  erewrite run_bind; [|apply run_load; cbn [heap]; by apply list_lookup_middle].
  cbn [type]. rewrite decide_False by done.
  rewrite bind_assoc.
  erewrite run_bind; [|apply run_store; cbn [heap]; by apply list_lookup_middle].
  cbn [id sce_debt heap set_type type value left right]. run_prim.
  rewrite insert_app_r_alt, Nat.sub_diag by done. cbn [insert list_insert].
  destruct (pay_scope_debt_spine (N.to_nat (sce_debt s)) (length (heap s ++ h1))
              (mkState (S (S (id s) + length (cmd_tokens c))) 1
                 ((heap s ++ h1) ++ [mkNode SCS No_val (Some p) None]))
              (length (heap s)) (length (heap s ++ h1))
              (Node SCS No_val (ass_tree c) Leaf)) as (root & Hpay & Hsp).
  { cbn [heap].
    apply (spine_end _ _ _ (mkNode SCS No_val (Some p) None) (ass_tree c));
      [rewrite length_app; lia | by apply list_lookup_middle | done |].
    cbn [left]. by apply repr_in_app. }
  cbn [id sce_debt heap] in Hpay, Hsp.
  exists root, (length (heap s ++ h1)),
    (h1 ++ [mkNode SCS No_val (Some p) None]
     ++ sce_stack (length ((heap s ++ h1) ++ [mkNode SCS No_val (Some p) None]))
          (Some (length (heap s ++ h1))) (N.to_nat (sce_debt s))).
  rewrite !app_assoc. split; [|exact Hsp].
  etransitivity; [exact Hpay|]. do 2 f_equal. lia.
Qed.

(** ** A scope of consecutive sub-scopes *)

Lemma spine_is_node h lo e p t : spine h lo e p t → spine_len t ≠ 0.
Proof. by destruct 1. Qed.

Lemma spine_len_sub_scope_tree k c : spine_len (sub_scope_tree k c) = S k.
Proof. unfold sub_scope_tree. induction k as [|k IH]; simpl; [done | by rewrite IH]. Qed.

(** The loop of [get_scope] over the sub-scopes that follow the first: each
    is entered with the debt of one closure, and hung at the end of the
    chain. *)
Lemma get_scope_loop_spec cs : ∀ fuel s r c e T Tc rest,
  drop (id s) tokens = flat_map sub_scope_tokens cs ++ tCCBR :: rest →
  sce_debt s = 1%N →
  spine (heap s) 0 e (Some r) T →
  spine (heap s) 0 e (Some c) Tc →
  spine_len Tc + length (flat_map sub_scope_tokens cs) + 4 ≤ fuel →
  ∃ s' e',
    get_scope_loop tokens fuel (Some c) s = Ret tt s'
    ∧ id s' = id s + length (flat_map sub_scope_tokens cs)
    ∧ sce_debt s' = 1%N
    ∧ tokens !! id s' = Some tCCBR
    ∧ spine (heap s') 0 e' (Some r)
        (fold_left (fun acc c' => attach_end acc (sub_scope_tree 1 c')) cs T).
Proof.
  induction cs as [|c1 cs IH]; intros fuel s r c e T Tc rest Hdrop Hdebt Hr Hc Hfuel;
    (destruct fuel as [|n]; [lia|]); cbn [get_scope_loop flat_map fold_left] in *.
  - apply drop_lookup_head in Hdrop as [Hl _].
    run_prim. cbn [tCCBR tok_type]. rewrite decide_True by done.
    exists s, e. rewrite Nat.add_0_r. done.
  - rewrite length_app in Hfuel. rewrite <- app_assoc in Hdrop.
    pose proof (length_sub_scope_tokens c1) as Hlen.
    assert (Hl : tokens !! id s = Some tOCBR).
    { unfold sub_scope_tokens in Hdrop. cbn [app] in Hdrop.
      by apply drop_lookup_head in Hdrop as [? _]. }
    pose proof (spine_is_node _ _ _ _ _ Hc) as Hnode.
    run_prim. cbn [tOCBR tok_type]. rewrite decide_False by done.
    erewrite run_bind; [|eapply get_scope_end_spine; [exact Hc | done | lia]].
    destruct (sub_scope_spec c1 n s _ Hdrop) as (x & e1 & h' & Hsub & Hx); [lia|].
    rewrite Hdebt in Hx. change (N.to_nat 1) with 1 in Hx.
    erewrite run_bind; [|exact Hsub].
    destruct (spine_end_lookup _ _ _ _ _ Hr) as (_ & ne & He & _).
    erewrite run_bind;
      [|apply run_store; cbn [heap]; by apply lookup_app_l_Some].
    cbn [id sce_debt heap].
    pose proof (spine_attach _ h' _ _ ne (Some x) _ _ _ Hr He Hx) as Hr'.
    pose proof (spine_attach _ h' _ _ ne (Some x) _ _ _ Hc He Hx) as Hc'.
    destruct Tc as [|ty v tl tr]; [done|]. cbn [attach_end] in Hc'.
    destruct (spine_next _ _ _ _ _ _ _ _ Hc') as (nc & Hnc & Hnext).
    { destruct tr; unfold sub_scope_tree; cbn; discriminate. }
    erewrite run_bind; [|apply run_load; cbn [heap]; exact Hnc].
    destruct (right nc) as [c'|]; [|by inversion Hnext].
    apply drop_past in Hdrop.
    destruct (IH n (mkState (id s + length (sub_scope_tokens c1)) 1
                      (<[e := set_right ne (Some x)]> (heap s ++ h')))
                r c' e1 _ _ rest Hdrop eq_refl Hr' Hnext)
      as (s' & e' & Hrun & Hid & Hdebt' & Hclose & Hsp).
    { rewrite spine_len_attach, spine_len_sub_scope_tree. cbn [spine_len] in Hfuel. lia. }
    cbn [id] in Hid.
    exists s', e'. split; [exact Hrun|]. split; [rewrite length_app; lia|]. done.
Qed.

Lemma repr_root_type h a ty v l r :
  repr h (Some a) (Node ty v l r) → ∃ n, h !! a = Some n ∧ type n = ty.
Proof. inversion 1; eauto. Qed.

Lemma attach_chain_root (f : assignment → tree) cs : ∀ ty v l r,
  ∃ r', fold_left (fun acc c' => attach_end acc (f c')) cs (Node ty v l r)
        = Node ty v l r'.
Proof.
  induction cs as [|c cs IH]; intros ty v l r; cbn [fold_left attach_end]; eauto.
Qed.

Lemma scope_chain_root c cs :
  ∃ r, scope_chain c cs = Node SCS No_val (ass_tree c) r.
Proof. apply attach_chain_root. Qed.

(** The enclosing scope of the sub-scopes [c :: cs], entered with the debt
    [sce_debt s]. *)
Lemma get_scope_spec c cs fuel s rest :
  drop (id s) tokens = scope_tokens (c :: cs) ++ rest →
  length (scope_tokens (c :: cs)) + 4 ≤ fuel →
  ∃ root s',
    get_scope tokens fuel s = Ret (Some root) s'
    ∧ id s' = id s + length (scope_tokens (c :: cs))
    ∧ sce_debt s' = 2%N
    ∧ repr (heap s') (Some root) (scope_tree (N.to_nat (sce_debt s)) c cs).
Proof.
  intros Hdrop Hfuel. unfold scope_tokens in *. cbn [app length flat_map] in *.
  rewrite !length_app in Hfuel. cbn [length] in Hfuel.
  apply drop_lookup_head in Hdrop as [Hl Hdrop].
  rewrite <- !app_assoc in Hdrop. cbn [app] in Hdrop.
  pose proof (length_sub_scope_tokens c) as Hlen.
  destruct fuel as [|n]; [lia|]. cbn [get_scope].
  run_prim. cbn [tOCBR tok_type]. rewrite decide_True by done.
  do 3 run_prim.
  (* the first sub-scope is entered with no debt *)
  destruct (sub_scope_spec c n (mkState (S (id s)) 0 (heap s)) _ Hdrop)
    as (r & e & h1 & Hsub & Hr); [lia|].
  cbn [id sce_debt heap] in Hsub, Hr. change (N.to_nat 0) with 0 in Hr.
  erewrite run_bind; [|exact Hsub]. cbn [CHECK_RET].
  apply (spine_weaken _ _ 0) in Hr; [|lia].
  apply drop_past in Hdrop.
  destruct (get_scope_loop_spec cs n
              (mkState (S (id s) + length (sub_scope_tokens c)) 1 (heap s ++ h1))
              r r e _ _ rest Hdrop eq_refl Hr Hr)
    as (s2 & e2 & Hloop & Hid & Hdebt & Hclose & Hchain).
  { rewrite spine_len_sub_scope_tree. lia. }
  cbn [id] in Hid.
  erewrite run_bind; [|exact Hloop].
  do 2 run_prim. rewrite Hdebt.
  (* the head of the chain is a [SCS] node already: a new one goes on top *)
  destruct (scope_chain_root c cs) as (tr & Hroot).
  fold (scope_chain c cs) in Hchain.
  pose proof (spine_repr _ _ _ _ _ Hchain) as Hrepr. rewrite Hroot in Hrepr.
  destruct (repr_root_type _ _ _ _ _ _ Hrepr) as (nr & Hnr & Hty).
  erewrite run_bind; [|apply run_load; cbn [heap]; exact Hnr].
  rewrite Hty, decide_True by done.
  unfold CR_SCS, create_node. run_prim.
  destruct (spine_end_lookup _ _ _ _ _ Hchain) as (_ & ne & He2 & _).
  pose proof (lookup_lt_Some _ _ _ He2) as Hlt.
  destruct (pay_scope_debt_spine (N.to_nat (sce_debt s)) (length (heap s2))
              (mkState (S (id s2)) 2 (heap s2 ++ [mkNode SCS No_val None (Some r)]))
              0 e2 (Node SCS No_val Leaf (scope_chain c cs))) as (root & Hpay & Hsp).
  { cbn [heap].
    apply (spine_step _ _ _ (length (heap s2)) (mkNode SCS No_val None (Some r)) Leaf);
      [lia | lia | by apply list_lookup_middle | constructor | by apply spine_app]. }
  eexists root, _. split; [exact Hpay|]. cbn [id sce_debt heap].
  split; [rewrite !length_app; cbn [length]; lia|]. split; [done|]. by eapply spine_repr.
Qed.

(** *** Counting the deferred continuation nodes *)

Lemma count_SCE_atom a : count_SCE (atom_tree a) = 0.
Proof. by destruct a. Qed.

Lemma count_SCE_pow_tail xs : ∀ t, count_SCE (pow_tail_tree xs t) = count_SCE t.
Proof.
  induction xs as [|x xs IH]; intros t; [done|].
  cbn [pow_tail_tree fold_left]. change (fold_left _ xs ?t) with (pow_tail_tree xs t).
  rewrite IH. cbn [count_SCE]. rewrite decide_False, count_SCE_atom by done. lia.
Qed.

Lemma count_SCE_power p : count_SCE (power_tree p) = 0.
Proof. unfold power_tree. by rewrite count_SCE_pow_tail, count_SCE_atom. Qed.

Lemma count_SCE_mul_tail ps : ∀ t, count_SCE (mul_tail_tree ps t) = count_SCE t.
Proof.
  induction ps as [|[o q] ps IH]; intros t; [done|].
  cbn [mul_tail_tree fold_left]. change (fold_left _ ps ?t) with (mul_tail_tree ps t).
  rewrite IH. cbn [count_SCE]. rewrite decide_False, count_SCE_power by done. lia.
Qed.

Lemma count_SCE_term t : count_SCE (term_tree t) = 0.
Proof. unfold term_tree. by rewrite count_SCE_mul_tail, count_SCE_power. Qed.

Lemma count_SCE_add_tail ts : ∀ t, count_SCE (add_tail_tree ts t) = count_SCE t.
Proof.
  induction ts as [|[o q] ts IH]; intros t; [done|].
  cbn [add_tail_tree fold_left]. change (fold_left _ ts ?t) with (add_tail_tree ts t).
  rewrite IH. cbn [count_SCE]. rewrite decide_False, count_SCE_term by done. lia.
Qed.

Lemma count_SCE_expr e : count_SCE (expr_tree e) = 0.
Proof. unfold expr_tree. by rewrite count_SCE_add_tail, count_SCE_term. Qed.

Lemma count_SCE_wrap k t : count_SCE (sce_wrap k t) = k + count_SCE t.
Proof.
  induction k as [|k IH]; cbn [sce_wrap count_SCE]; [done|].
  rewrite decide_True, IH by done. lia.
Qed.

Lemma count_SCE_attach t x : count_SCE (attach_end t x) = count_SCE t + count_SCE x.
Proof.
  induction t as [|ty v l _ r IH]; cbn [attach_end count_SCE]; [done | rewrite IH; lia].
Qed.

Lemma count_SCE_sub_scope k c : count_SCE (sub_scope_tree k c) = k.
Proof.
  unfold sub_scope_tree, ass_tree. rewrite count_SCE_wrap. cbn [count_SCE].
  rewrite !decide_False, count_SCE_expr by done. lia.
Qed.

Lemma count_SCE_chain cs : ∀ t,
  count_SCE (fold_left (fun acc c' => attach_end acc (sub_scope_tree 1 c')) cs t)
  = count_SCE t + length cs.
Proof.
  induction cs as [|c cs IH]; intros t; cbn [fold_left length]; [lia|].
  rewrite IH, count_SCE_attach, count_SCE_sub_scope. lia.
Qed.

Lemma count_SCE_scope_tree d c cs : count_SCE (scope_tree d c cs) = d + length cs.
Proof.
  unfold scope_tree, scope_chain. rewrite count_SCE_wrap. cbn [count_SCE].
  rewrite decide_False, count_SCE_chain, count_SCE_sub_scope by done. lia.
Qed.

(** C1, amended: a scope that consists of [k] consecutive sub-scopes
    [{ name = e ; }], entered with the debt [d], is parsed into the chain of
    its sub-scopes under a [SCS] node and [d] [SCE] nodes; the tree holds
    [d + k - 1] [SCE] nodes, and [sce_debt] is 2 at the return. *)
Theorem C1_scope_debt_amended (fuel : nat) (s : state)
    (c : assignment) (cs : list assignment) (rest : list Token) :
  drop (id s) tokens = scope_tokens (c :: cs) ++ rest →
  length (scope_tokens (c :: cs)) + 4 ≤ fuel →
  ∃ root s',
    get_scope tokens fuel s = Ret (Some root) s'
    ∧ id s' = id s + length (scope_tokens (c :: cs))
    ∧ repr (heap s') (Some root) (scope_tree (N.to_nat (sce_debt s)) c cs)
    ∧ count_SCE (scope_tree (N.to_nat (sce_debt s)) c cs) + 1
      = N.to_nat (sce_debt s) + length (c :: cs)
    ∧ sce_debt s' = 2%N.
Proof.
  intros Hdrop Hfuel.
  destruct (get_scope_spec c cs fuel s rest Hdrop Hfuel)
    as (root & s' & Hrun & Hid & Hdebt & Hrepr).
  exists root, s'. split_and!; try done.
  rewrite count_SCE_scope_tree. cbn [length]. lia.
Qed.


End Tokens.

(** C4: the parse of [{ x = 1 ; y = 2 }], where the semicolon after the
    second statement is missing, returns the tree of the first statement and
    no error, with any fuel from 20 on; so does the parse of
    [if ( x ) { y = 2 }], which returns a condition without a body. *)
Theorem C4_missing_semicolon_returns_tree (fuel : nat) :
  20 ≤ fuel →
  (∃ s',
     get_scope missing_semicolon fuel initial = Ret (Some 3) s'
     ∧ id s' = 9
     ∧ tree_of 5 (heap s') (Some 3)
       = Some (Node SCS No_val
                 (Node OP (Op_val ASS)
                    (Node VAR (Var_val "x") Leaf Leaf) (Node NUM (Num_val 1) Leaf Leaf))
                 Leaf))
  ∧ (∃ s',
       get_cmd missing_semicolon_in_cond fuel initial = Ret (Some 6) s'
       ∧ id s' = 9
       ∧ tree_of 5 (heap s') (Some 6)
         = Some (Node SMC No_val
                   (Node KWD (Var_val "if") (Node VAR (Var_val "x") Leaf Leaf) Leaf)
                   Leaf)).
Proof.
  intros Hfuel. split.
  - eexists. split; [|split].
    + apply (get_scope_fuel _ 20 fuel _ _ _ Hfuel). vm_compute. reflexivity.
    + reflexivity.
    + reflexivity.
  - eexists. split; [|split].
    + apply (get_cmd_fuel _ 20 fuel _ _ _ Hfuel). vm_compute. reflexivity.
    + reflexivity.
    + reflexivity.
Qed.

Lemma C10_get_scope_end_witness :
  right_chain three_linked 0 [0; 2; 1]
  ∧ 2 ∈ [0; 2; 1]
  ∧ get_scope_end 3 (Some 2) (mkState 0 0 three_linked) = Ret (Some 1) (mkState 0 0 three_linked).
Proof.
  assert (Hchain : right_chain three_linked 0 [0; 2; 1]).
  { eapply right_chain_step; [reflexivity..|].
    eapply right_chain_step; [reflexivity..|].
    eapply right_chain_end; reflexivity. }
  assert (Hin : 2 ∈ [0; 2; 1]) by (right; left).
  split; [exact Hchain|]. split; [exact Hin|].
  destruct (proj2 (C10_get_scope_end 3 (mkState 0 0 three_linked)) 0 [0; 2; 1] 2 Hchain Hin)
    as (e & n & Hrun & Hlast & _); [simpl; lia|].
  injection Hlast as <-. exact Hrun.
Defined.

Lemma C9_scope_debt_witness :
  ∃ s' root first s_first s_close,
    get_scope scope_in_scope 20 (mkState 0 2 []) = Ret (Some root) s'
    ∧ get_scope scope_in_scope 19 (mkState 1 0 []) = Ret (Some first) s_first
    ∧ get_scope_loop scope_in_scope 19 (Some first) s_first = Ret tt s_close
    ∧ sce_debt s_close = 1%N
    ∧ sce_debt s' = (sce_debt s_close + 1)%N
    ∧ ∃ q, sce_path (heap s') (Some root) 2 q.
Proof.
  let v := eval vm_compute in (get_scope scope_in_scope 20 (mkState 0 2 [])) in
  assert (Hrun : get_scope scope_in_scope 20 (mkState 0 2 []) = v) by (vm_compute; reflexivity).
  assert (Hsize : (N.of_nat (length scope_in_scope) ≤ size_max)%N) by (vm_compute; discriminate).
  destruct (C9_scope_debt scope_in_scope 20 (mkState 0 2 []) _ tOCBR _ Hsize eq_refl eq_refl Hrun)
    as (n & first & s_first & s_close & t_close & h0 & q & nq
        & Hn & Hfirst & Hloop & _ & _ & _ & Hdebt & _ & _ & _ & _ & _ & Hpath).
  injection Hn as <-.
  eexists _, _, first, s_first, s_close.
  split; [exact Hrun|]. split; [exact Hfirst|]. split; [exact Hloop|].
  split.
  - vm_compute in Hfirst. injection Hfirst as <- <-.
    vm_compute in Hloop. injection Hloop as <-. reflexivity.
  - split; [exact Hdebt|]. exists q. exact Hpath.
Defined.


Lemma C1_scope_debt_counterexample :
  ∃ root s' t,
    get_scope one_sub_scope 20 initial = Ret (Some root) s'
    ∧ tree_of 10 (heap s') (Some root) = Some t
    ∧ count_SCE t ≠ 1
    ∧ sce_debt s' ≠ 0%N.
Proof.
  eexists _, _, _. split; [vm_compute; reflexivity|].
  split; [vm_compute; reflexivity|]. split; [vm_compute; lia | vm_compute; discriminate].
Qed.

Lemma C1_scope_debt_amended_witness :
  ∃ root s',
    get_scope two_sub_scopes 30 initial = Ret (Some root) s'
    ∧ repr (heap s') (Some root) (scope_tree 0 a_is_one [b_is_six])
    ∧ count_SCE (scope_tree 0 a_is_one [b_is_six]) = 1
    ∧ sce_debt s' = 2%N.
Proof.
  destruct (C1_scope_debt_amended two_sub_scopes 30 initial a_is_one [b_is_six] [])
    as (root & s' & Hrun & _ & Hrepr & _ & Hdebt).
  - reflexivity.
  - vm_compute. lia.
  - exists root, s'. split_and!; [exact Hrun | exact Hrepr | reflexivity | exact Hdebt].
Defined.

Lemma C4_missing_semicolon_returns_tree_witness :
  ∃ s', get_scope missing_semicolon 20 initial = Ret (Some 3) s' ∧ id s' = 9.
Proof.
  destruct (C4_missing_semicolon_returns_tree 20 (le_n 20)) as [(s' & Hrun & Hid & _) _].
  exists s'. split; [exact Hrun | exact Hid].
Defined.

Lemma C2_precedence_witness :
  ∃ p h,
    get_add [tNUM 2; tOP ADD; tNUM 3; tOP MUL; tNUM 4; tSMC] 9 initial
    = Ret (Some p) (mkState 5 0 h)
    ∧ repr h (Some p)
        (Node OP (Op_val ADD)
           (Node NUM (Num_val 2) Leaf Leaf)
           (Node OP (Op_val MUL)
              (Node NUM (Num_val 3) Leaf Leaf) (Node NUM (Num_val 4) Leaf Leaf))).
Proof.
  destruct (proj2 (C2_precedence [tNUM 2; tOP ADD; tNUM 3; tOP MUL; tNUM 4; tSMC]
                     9 initial tSMC [] eq_refl) eq_refl (le_n 9))
    as (p & h & Hrun & Hrepr & _).
  exists p, h. split; [exact Hrun | exact Hrepr].
Defined.

Lemma C3_power_folds_left_witness :
  ∃ r h,
    get_pow [tNUM 2; tOP POW; tNUM 3; tOP POW; tNUM 2; tSMC] 7 initial
    = Ret (Some r) (mkState 5 0 h)
    ∧ repr h (Some r)
        (Node OP (Op_val POW)
           (Node OP (Op_val POW)
              (Node NUM (Num_val 2) Leaf Leaf) (Node NUM (Num_val 3) Leaf Leaf))
           (Node NUM (Num_val 2) Leaf Leaf)).
Proof.
  destruct (proj2 (proj2 (C3_power_folds_left
                            [tNUM 2; tOP POW; tNUM 3; tOP POW; tNUM 2; tSMC]
                            7 initial tSMC [] eq_refl)) eq_refl (le_n 7))
    as (r & h & Hrun & Hrepr & _).
  exists r, h. split; [exact Hrun | exact Hrepr].
Defined.

End ParserFacts.

(** * Facts about the assembler *)

Section AssemblerFacts.
Import Assembler.

(** ** Masking *)

Lemma xor_bits_involutive a b : xor_bits (xor_bits a b) b = a.
Proof.
  destruct a as (a0 & a1 & a2 & a3 & a4 & a5 & a6 & a7).
  destruct b as (b0 & b1 & b2 & b3 & b4 & b5 & b6 & b7).
  unfold xor_bits.
  repeat f_equal; (rewrite xorb_assoc, xorb_nilpotent; apply xorb_false_r).
Qed.

Lemma byte_xor_involutive x mask : byte_xor (byte_xor x mask) mask = x.
Proof.
  unfold byte_xor.
  rewrite Byte.to_bits_of_bits, xor_bits_involutive.
  apply Byte.of_bits_to_bits.
Qed.

(** C5: masking a buffer twice with the same mask gives the buffer back. *)
Theorem C5_mask_buffer_round_trip (B : Buffer_w_info) (m : byte) :
  mask_buffer (mask_buffer B m) m = B.
Proof.
  destruct B as [bytes]. unfold mask_buffer. cbn [buf]. f_equal.
  induction bytes as [|x bytes IH]; cbn [map]; [reflexivity|].
  by rewrite byte_xor_involutive, IH.
Qed.

(** ** Alignment *)

Lemma length_write_to_buf b value size :
  size ≤ List.length value →
  length (write_to_buf b value size) = length b + size.
Proof.
  intros Hle. unfold length, write_to_buf. cbn [buf].
  rewrite length_app, length_take. lia.
Qed.

Lemma length_align_buffer b k : length (align_buffer b k) = length b + k.
Proof. unfold length, align_buffer. cbn [buf]. by rewrite length_app, length_replicate. Qed.

Lemma length_write_char_w_alignment b value k :
  length (write_char_w_alignment b value k) = length b + sizeof_char + k.
Proof.
  unfold write_char_w_alignment.
  rewrite length_align_buffer, length_write_to_buf; [reflexivity|].
  cbn [List.length]. unfold sizeof_char. lia.
Qed.

Lemma length_emit_int b opcode operand :
  length (emit_int b opcode operand) = length b + sizeof_double.
Proof.
  unfold emit_int.
  rewrite length_write_to_buf, length_write_char_w_alignment.
  - cbv [sizeof_double sizeof_char ALIGN_TO_INT sizeof_int]. lia.
  - cbn [int_bytes List.length]. unfold sizeof_int. lia.
Qed.

Lemma length_emit_double b opcode (operand : vec byte sizeof_double) :
  length (emit_double b opcode (vec_to_list operand)) = length b + 2 * sizeof_double.
Proof.
  unfold emit_double.
  rewrite length_write_to_buf, length_write_char_w_alignment.
  - cbv [sizeof_double sizeof_char ALIGN_TO_DOUBLE]. lia.
  - by rewrite length_vec_to_list.
Qed.

(** Every item emits a whole number of [sizeof(double)] bytes. *)
Lemma cmd_process_aligned m c :
  length (byte_code m) `mod` sizeof_double = 0 →
  length (byte_code (cmd_process m c)) `mod` sizeof_double = 0.
Proof.
  intros Hal.
  destruct c as [l|opcode target|opcode operand|opcode operand]; cbn [cmd_process byte_code].
  - exact Hal.
  - unfold write_jmp. cbn [byte_code].
    fold (emit_int (byte_code m) opcode POISON_JMP_POS). rewrite length_emit_int.
    replace (length (byte_code m) + sizeof_double)
      with (length (byte_code m) + 1 * sizeof_double) by lia.
    by rewrite Nat.Div0.mod_add.
  - rewrite length_emit_int.
    replace (length (byte_code m) + sizeof_double)
      with (length (byte_code m) + 1 * sizeof_double) by lia.
    by rewrite Nat.Div0.mod_add.
  - rewrite length_emit_double. by rewrite Nat.Div0.mod_add.
Qed.

Lemma cmds_process_aligned text m :
  length (byte_code m) `mod` sizeof_double = 0 →
  length (byte_code (cmds_process m text)) `mod` sizeof_double = 0.
Proof.
  revert m. induction text as [|c text IH]; intros m Hal; [exact Hal|].
  unfold cmds_process in *. cbn [foldl]. apply IH. by apply cmd_process_aligned.
Qed.


(** ** The entry label *)

Section EntryLabel.
Variable JMP : byte.

Lemma find_label_app labels l target :
  find_label (labels ++ [l]) target =
  if decide (name l = target) then Some (IP_pos l) else find_label labels target.
Proof.
  induction labels as [|l0 labels IH]; cbn [app find_label]; [reflexivity|].
  rewrite IH. by destruct (decide (name l = target)).
Qed.

Lemma cmd_process_labels m c target :
  c ≠ LabelDef target →
  find_label (labels_w_carriage (cmd_process m c)) target
  = find_label (labels_w_carriage m) target.
Proof.
  intros Hc. destruct c as [l| | |]; simpl; try reflexivity.
  rewrite find_label_app. simpl.
  destruct (decide (l = target)); [congruence | reflexivity].
Qed.

Lemma cmds_process_labels text m target :
  LabelDef target ∉ text →
  find_label (labels_w_carriage (cmds_process m text)) target
  = find_label (labels_w_carriage m) target.
Proof.
  revert m. induction text as [|c text IH]; intros m Hnot; simpl; [reflexivity|].
  unfold cmds_process in *. simpl.
  rewrite IH by (intros H; apply Hnot; by right).
  apply cmd_process_labels. intros ->. apply Hnot. by left.
Qed.

Lemma cmds_process_defines text m target :
  LabelDef target ∈ text →
  is_Some (find_label (labels_w_carriage (cmds_process m text)) target).
Proof.
  revert m. induction text as [|c text IH] using rev_ind; intros m Hin.
  - by apply elem_of_nil in Hin.
  - unfold cmds_process in *. rewrite foldl_app. simpl.
    apply elem_of_app in Hin as [Hin | Hin].
    + destruct c as [l| | |]; simpl; try (by apply IH).
      rewrite find_label_app. simpl.
      destruct (decide (l = target)); [by eexists | by apply IH].
    + apply list_elem_of_singleton in Hin as <-. simpl.
      rewrite find_label_app. simpl. rewrite decide_True by reflexivity. by eexists.
Qed.

Lemma cmds_process_found text m target :
  is_Some (find_label (labels_w_carriage (cmds_process m text)) target) →
  is_Some (find_label (labels_w_carriage m) target) ∨ LabelDef target ∈ text.
Proof.
  revert m. induction text as [|c text IH]; intros m Hsome; [by left|].
  unfold cmds_process in *. cbn [foldl] in Hsome.
  destruct (IH _ Hsome) as [Hm | Hin]; [|right; by right].
  destruct c as [l|opcode target'|opcode operand|opcode operand];
    cbn [cmd_process write_jmp labels_w_carriage] in Hm; try (by left).
  rewrite find_label_app in Hm. cbn [name] in Hm.
  destruct (decide (l = target)) as [->|]; [right; by left | by left].
Qed.

(** The label table answers for exactly the labels the text defines. *)
Lemma find_label_defines text target :
  is_Some (find_label (labels_w_carriage (cmds_process init_manager text)) target)
  ↔ defines text target.
Proof.
  split; [|apply cmds_process_defines].
  intros Hsome. unfold defines.
  destruct (cmds_process_found text init_manager target Hsome) as [Hm | Hin]; [|exact Hin].
  by destruct Hm.
Qed.

(** The definition that wins is the last one, and the offset recorded is
    that of the bytes emitted before it. *)
Lemma find_label_last pre post target :
  LabelDef target ∉ post →
  find_label (labels_w_carriage (cmds_process init_manager (pre ++ LabelDef target :: post)))
             target
  = Some (length (byte_code (cmds_process init_manager pre))).
Proof.
  intros Hnot. unfold cmds_process. rewrite foldl_app. cbn [foldl].
  fold (cmds_process init_manager pre).
  fold (cmds_process (cmd_process (cmds_process init_manager pre) (LabelDef target)) post).
  rewrite (cmds_process_labels post _ target Hnot). cbn [cmd_process labels_w_carriage].
  rewrite find_label_app. cbn [name IP_pos]. by rewrite decide_True.
Qed.

(** The jump table holds the jumps of the text. *)
Lemma cmds_process_jmps text m j :
  j ∈ jmp_poses_w_carriage (cmds_process m text) ↔
  j ∈ jmp_poses_w_carriage m
  ∨ ∃ opcode, Jump opcode (jmp_name j) ∈ text
              ∧ j ∈ jmp_poses_w_carriage (cmds_process m text).
Proof.
  split; [|intros [H | (_ & _ & H)]; [|exact H]].
  - revert m. induction text as [|c text IH]; intros m Hin; [by left|].
    unfold cmds_process in *. cbn [foldl] in *.
    destruct (IH _ Hin) as [Hm | (opcode & Hj & _)].
    + destruct c as [l|opcode target|opcode operand|opcode operand];
        cbn [cmd_process write_jmp jmp_poses_w_carriage] in Hm; try (by left).
      apply elem_of_app in Hm as [Hm | Hm]; [by left|].
      apply list_elem_of_singleton in Hm as ->. right. exists opcode. cbn [jmp_name].
      split; [by left | exact Hin].
    + right. exists opcode. split; [by right | exact Hin].
  - revert m H. induction text as [|c text IH]; intros m Hin; [exact Hin|].
    unfold cmds_process in *. cbn [foldl]. apply IH.
    destruct c as [l|opcode target|opcode operand|opcode operand];
      cbn [cmd_process write_jmp jmp_poses_w_carriage]; try exact Hin.
    apply elem_of_app. by left.
Qed.

Lemma cmds_process_jumps text m opcode target :
  Jump opcode target ∈ text →
  ∃ j, j ∈ jmp_poses_w_carriage (cmds_process m text) ∧ jmp_name j = target.
Proof.
  revert m. induction text as [|c text IH] using rev_ind; intros m Hin.
  - by apply elem_of_nil in Hin.
  - unfold cmds_process in *. rewrite foldl_app. cbn [foldl].
    apply elem_of_app in Hin as [Hin | Hin].
    + destruct (IH m Hin) as (j & Hj & Hname). exists j. split; [|exact Hname].
      destruct c as [l|opcode' target'|opcode' operand|opcode' operand];
        cbn [cmd_process write_jmp jmp_poses_w_carriage]; try exact Hj.
      apply elem_of_app. by left.
    + apply list_elem_of_singleton in Hin as <-.
      cbn [cmd_process write_jmp jmp_poses_w_carriage].
      eexists. split; [apply elem_of_app; right; by left | reflexivity].
Qed.

(** The resolution pass either patches every reference, all of them being
    found, or stops at a reference whose target is not in the table. *)
Lemma arrange_labels_total labels jmps : ∀ b,
  (∃ b', arrange_labels labels jmps b = Ok b'
         ∧ Forall (λ j, is_Some (find_label labels (jmp_name j))) jmps)
  ∨ (∃ j, j ∈ jmps ∧ find_label labels (jmp_name j) = None
          ∧ arrange_labels labels jmps b = Err (UnresolvedLabelError (jmp_name j))).
Proof.
  induction jmps as [|j jmps IH]; intros b; cbn [arrange_labels].
  - left. exists b. split; [reflexivity | constructor].
  - destruct (find_label labels (jmp_name j)) as [pos|] eqn:Hfind.
    + destruct (IH (patch_int b (jmp_IP_pos j) (Z.of_nat pos)))
        as [(b' & Hrun & Hall) | (j' & Hin & Hnone & Hrun)].
      * left. exists b'. split; [exact Hrun|]. constructor; [by rewrite Hfind | exact Hall].
      * right. exists j'. split; [by right|]. by split.
    + right. exists j. split; [by left|]. by split.
Qed.

Lemma write_main_jmp_Ok m entry :
  find_label (labels_w_carriage m) MAIN_JMP_NAME = Some entry →
  write_main_jmp JMP m
  = Ok (mkManager (labels_w_carriage m) (jmp_poses_w_carriage m)
          (mkBuffer ([JMP] ++ replicate ALIGN_TO_INT x00 ++ int_bytes (Z.of_nat entry)
                     ++ buf (byte_code m)))).
Proof. intros Hfind. unfold write_main_jmp. by rewrite Hfind. Qed.

(** The errors of the assembly in memory. *)
Lemma assemble_Err text e :
  assemble JMP text = Err e →
  (e = MissingEntryLabelError ∧ ¬ defines text MAIN_JMP_NAME ∧ resolved text)
  ∨ (∃ opcode target, e = UnresolvedLabelError target
       ∧ Jump opcode target ∈ text ∧ ¬ defines text target).
Proof.
  unfold assemble.
  set (m := cmds_process init_manager text).
  destruct (arrange_labels_total (labels_w_carriage m) (jmp_poses_w_carriage m) (byte_code m))
    as [(b & -> & Hall) | (j & Hin & Hnone & ->)]; cbn [and_then].
  - unfold write_main_jmp. cbn [labels_w_carriage].
    destruct (find_label (labels_w_carriage m) MAIN_JMP_NAME) as [entry|] eqn:Hmain;
      cbn [and_then]; [discriminate|].
    intros [= <-]. left. split; [reflexivity|]. split.
    + intros Hdef. apply find_label_defines in Hdef. fold m in Hdef.
      rewrite Hmain in Hdef. by destruct Hdef.
    + intros opcode target Hjump.
      destruct (cmds_process_jumps text init_manager opcode target Hjump) as (j & Hj & <-).
      apply find_label_defines. fold m.
      rewrite Forall_forall in Hall. by apply Hall.
  - intros [= <-]. right.
    apply cmds_process_jmps in Hin as [Hin | (opcode & Hjump & _)];
      [by apply elem_of_nil in Hin|].
    exists opcode, (jmp_name j). split; [reflexivity|]. split; [exact Hjump|].
    intros Hdef. apply find_label_defines in Hdef. fold m in Hdef.
    rewrite Hnone in Hdef. by destruct Hdef.
Qed.


(** ** I/O checks *)

Section Files.
Variable arrange_tokens : list byte → list mnemonic.
Variable MASK : byte.

(** The assembly in memory reports no I/O error. *)
Lemma assemble_no_io text e :
  assemble JMP text = Err e → e ≠ ASM_INVALID_FREAD ∧ e ≠ ASM_INVALID_FWRITE.
Proof.
  intros He.
  destruct (assemble_Err text e He) as [(-> & _) | (opcode & target & -> & _)]; by split.
Qed.


End Files.

End EntryLabel.






End AssemblerFacts.

(** * More facts about the parser *)

Section Productions.
Import Parser.

Section Run.
Variable tokens : list Token.

Ltac pres :=
  repeat first
    [ assumption
    | match goal with H : context [preserves] |- _ => apply H end
    | apply preserves_ret
    | apply preserves_fault
    | apply preserves_out_of_fuel
    | apply preserves_load
    | apply preserves_store
    | apply preserves_create_node
    | apply preserves_get_sce_debt
    | apply preserves_reset_sce_debt
    | apply preserves_incr_id
    | apply preserves_CUR_TOKEN
    | apply preserves_incr_sce_debt_id
    | apply preserves_CHECK_RET
    | apply preserves_SYNTAX_CHECK
    | apply preserves_bind; [|intros ?]
    | case_decide
    | case_match
    | match goal with |- preserves (if ?b then _ else _) => destruct b end ].

Ltac run_prim :=
  rewrite ?bind_assoc;
  erewrite run_bind
    by (first [ eapply run_CUR_TYPE; eassumption
              | eapply run_CUR_OP; eassumption
              | eapply run_CUR_NUM; eassumption
              | eapply run_CUR_TOKEN; eassumption
              | eapply run_read_name; eassumption
              | eapply run_read_var_value; congruence
              | reflexivity ]);
  cbn [id sce_debt heap tok_type op_value num_value var_value].

(** ** Every production consumes a token *)

Lemma consumes_first {A B} (m : M A) (k : A → M B) :
  consumes m → (∀ a, preserves (k a)) → consumes (bind m k).
Proof.
  intros Hm Hk s b s' (a & s1 & H1 & H2)%bind_Ret_inv.
  apply Hm in H1. apply Hk in H2 as [H2 _]. lia.
Qed.

Lemma consumes_then {A B} (m : M A) (k : A → M B) :
  preserves m → (∀ a, consumes (k a)) → consumes (bind m k).
Proof.
  intros Hm Hk s b s' (a & s1 & H1 & H2)%bind_Ret_inv.
  apply Hm in H1 as [H1 _]. apply Hk in H2. lia.
Qed.

Lemma consumes_incr_id : consumes incr_id.
Proof. intros s a s' Hrun. unfold incr_id in Hrun. simplify_eq. simpl. lia. Qed.

Lemma consumes_get_num : consumes (get_num tokens).
Proof.
  unfold get_num, CR_NUM. apply consumes_then; [apply preserves_CUR_NUM|]. intros val.
  apply consumes_first; [apply consumes_incr_id|]. intros _. pres.
Qed.

Ltac cons :=
  repeat first
    [ assumption
    | apply consumes_first;
        [ solve [ assumption | apply consumes_incr_id | apply consumes_get_num ]
        | intros ?; solve [pres] ]
    | apply consumes_then; [solve [pres] | intros ?]
    | case_decide ].

Lemma consumes_expressions fuel :
  consumes (get_add tokens fuel)
  ∧ consumes (get_mul tokens fuel)
  ∧ consumes (get_pow tokens fuel)
  ∧ consumes (get_par tokens fuel)
  ∧ consumes (get_id tokens fuel).
Proof.
  pose proof preserves_CUR_TYPE. pose proof preserves_CUR_OP.
  pose proof preserves_CUR_TOKEN. pose proof preserves_get_num.
  pose proof preserves_read_var_value.
  induction fuel as [|n (IHadd & IHmul & IHpow & IHpar & IHid)];
    [split_and!; intros s a s'; discriminate|].
  destruct (preserves_expressions tokens n)
    as (Padd & Paddl & Pmul & Pmull & Ppow & Ppowl & Ppar & Pid).
  split_and!; simpl; unfold CR_OP, CR_KWD, CR_VAR, SYNTAX_ERROR; cons.
Qed.

Lemma consumes_get_ass fuel : consumes (get_ass tokens fuel).
Proof.
  pose proof preserves_CUR_TYPE. pose proof preserves_CUR_OP.
  destruct (consumes_expressions fuel) as (_ & _ & _ & _ & Cid).
  destruct (preserves_expressions tokens fuel) as (Padd & _ & _ & _ & _ & _ & _ & Pid).
  unfold get_ass, CR_ASS, SYNTAX_ERROR. cons.
Qed.

Lemma consumes_commands fuel :
  consumes (get_cmd tokens fuel) ∧ consumes (get_cond tokens fuel).
Proof.
  pose proof preserves_CUR_TYPE. pose proof preserves_finish_cmd.
  pose proof preserves_node_var_value.
  induction fuel as [|n (IHcmd & IHcond)];
    [split_and!; intros s a s'; discriminate|].
  pose proof (consumes_get_ass n). pose proof (preserves_get_ass tokens n).
  destruct (consumes_expressions n) as (_ & _ & _ & _ & Cid).
  destruct (preserves_expressions tokens n) as (Padd & _ & _ & _ & _ & _ & _ & Pid).
  destruct (preserves_commands tokens n) as (Pcmd & Pcond & Ploop).
  split_and!; simpl; unfold CR_KWD, SYNTAX_ERROR; cons.
Qed.

Lemma consumes_get_scope fuel : consumes (get_scope tokens fuel).
Proof.
  pose proof preserves_CUR_TYPE. pose proof preserves_get_scope_end.
  pose proof preserves_pay_scope_debt.
  induction fuel as [|n IH]; [intros s a s'; discriminate|].
  destruct (consumes_commands n) as (Ccmd & _).
  destruct (preserves_scopes tokens n) as (Pscope & Ploop).
  simpl. unfold CR_SCS. cons.
Qed.

(** X1: whatever the tokens, a production that returns, with a tree or with the
    null pointer of a syntax error, has consumed at least one token. *)
Theorem productions_consume (fuel : nat) (s s' : state) (p : ptr) :
  (get_scope tokens fuel s = Ret p s' → id s < id s')
  ∧ (get_cmd tokens fuel s = Ret p s' → id s < id s')
  ∧ (get_cond tokens fuel s = Ret p s' → id s < id s')
  ∧ (get_ass tokens fuel s = Ret p s' → id s < id s')
  ∧ (get_add tokens fuel s = Ret p s' → id s < id s')
  ∧ (get_mul tokens fuel s = Ret p s' → id s < id s')
  ∧ (get_pow tokens fuel s = Ret p s' → id s < id s')
  ∧ (get_par tokens fuel s = Ret p s' → id s < id s')
  ∧ (get_id tokens fuel s = Ret p s' → id s < id s')
  ∧ (get_num tokens s = Ret p s' → id s < id s').
Proof.
  destruct (consumes_expressions fuel) as (Cadd & Cmul & Cpow & Cpar & Cid).
  destruct (consumes_commands fuel) as (Ccmd & Ccond).
  split_and!; intros Hrun.
  - by eapply consumes_get_scope.
  - by eapply Ccmd.
  - by eapply Ccond.
  - by eapply consumes_get_ass.
  - by eapply Cadd.
  - by eapply Cmul.
  - by eapply Cpow.
  - by eapply Cpar.
  - by eapply Cid.
  - by eapply consumes_get_num.
Qed.

(** ** Statements that start with a keyword *)

Lemma bind_Ret_some {A B} (m : M A) (k : A → M B) s b s' :
  bind m k s = Ret b s' → ∃ a s1, m s = Ret a s1.
Proof. intros (a & s1 & H & _)%bind_Ret_inv. eauto. Qed.

(** A run that has returned the null pointer of a syntax error. *)
Ltac null_ret H :=
  cbn [CHECK_RET SYNTAX_CHECK] in H; unfold SYNTAX_ERROR, ret in H; simplify_eq.

(** X3: a statement that starts with a keyword other than [while] and [if] is
    never accepted: [get_cond] takes the node [get_id] has built for the call
    and rejects its name, so [get_cmd], and [get_scope] with it, returns the
    null pointer whenever it returns. *)
Theorem keyword_statement_rejected (fuel : nat) (s s' : state) (k : Token) (p : ptr) :
  tokens !! id s = Some k →
  tok_type k = KWD →
  var_value k ≠ "while" → var_value k ≠ "if" →
  (get_cmd tokens fuel s = Ret p s' → p = NULL)
  ∧ (get_scope tokens fuel s = Ret p s' → p = NULL).
Proof.
  intros Hk Hty Hw Hi.
  assert (Hcond : ∀ n q s1, get_cond tokens n s = Ret q s1 → q = NULL).
  { intros [|[|n]] q s1 Hrun; [done| |].
    - cbn [get_cond get_id] in Hrun. done.
    - cbn [get_cond get_id] in Hrun. revert Hrun. repeat run_prim.
      rewrite Hty, decide_True by done. run_prim.
      unfold IS_KWD. rewrite !bool_decide_false by done. cbn [orb negb].
      intros Hrun.
      apply bind_Ret_inv in Hrun as (kwd & s2 & Hid & Hrun).
      destruct kwd as [a|]; [|by null_ret Hrun].
      cbn [CHECK_RET] in Hrun.
      (* the node of the call holds the name of the keyword *)
      assert (heap s2 !! a = Some (mkNode KWD (Var_val (var_value k)) NULL
                                     (right (default (mkNode KWD No_val NULL NULL)
                                                     (heap s2 !! a)))))
        as Hnode.
      { apply bind_Ret_inv in Hid as (ty & s3 & (-> & t & Ht & ->)%CUR_TYPE_inv & Hid).
        case_decide; [|by null_ret Hid].
        apply bind_Ret_inv in Hid as ([] & s4 & Hincr & Hid).
        apply bind_Ret_inv in Hid as (child & s5 & _ & Hid).
        destruct child as [c|]; [|by null_ret Hid].
        cbn [CHECK_RET] in Hid.
        apply bind_Ret_inv in Hid as (ty & s6 & (-> & t' & Ht' & ->)%CUR_TYPE_inv & Hid).
        case_decide; [|by null_ret Hid].
        unfold bind, incr_id, CR_KWD, create_node in Hid. simplify_eq. cbn [heap].
        rewrite list_lookup_middle by done. done. }
      unfold node_var_value in Hrun. rewrite bind_assoc in Hrun.
      erewrite run_bind in Hrun; [|apply run_load; exact Hnode].
      cbn [value] in Hrun. unfold ret at 1 in Hrun. unfold bind at 1 in Hrun.
      unfold IS_KWD in Hrun. rewrite !bool_decide_false in Hrun by done.
      cbn [orb SYNTAX_CHECK] in Hrun. unfold SYNTAX_ERROR, ret in Hrun. by simplify_eq. }
  assert (Hcmd : ∀ n q s1, get_cmd tokens n s = Ret q s1 → q = NULL).
  { intros [|n] q s1 Hrun; [done|]. cbn [get_cmd] in Hrun. revert Hrun. run_prim.
    rewrite Hty, decide_True by done. intros Hrun.
    apply bind_Ret_inv in Hrun as (cmd & s2 & Hc & Hrun).
    destruct cmd as [a|]; [by apply Hcond in Hc|].
    by null_ret Hrun. }
  split; [apply Hcmd|].
  destruct fuel as [|n]; [done|]. cbn [get_scope]. run_prim.
  rewrite Hty, decide_False by done. intros Hrun.
  apply bind_Ret_inv in Hrun as (root & s2 & Hc & Hrun).
  destruct root as [a|]; [by apply Hcmd in Hc|].
  by null_ret Hrun.
Qed.

(** ** Empty braces *)

(** An assignment whose target is not followed by the assignment operator:
    the target has been consumed and its node built when [get_ass] fails. *)
Lemma get_ass_no_operator fuel s k nxt :
  tokens !! id s = Some k → tok_type k ≠ KWD → reads_name k →
  tokens !! S (id s) = Some nxt → is_op ASS nxt = false →
  1 ≤ fuel →
  get_ass tokens fuel s
  = Ret NULL (mkState (S (id s)) (sce_debt s)
                (heap s ++ [mkNode VAR (Var_val (var_value k)) NULL NULL])).
Proof.
  intros Hk Hty Hname Hnxt Hop Hfuel. destruct fuel as [|n]; [lia|].
  unfold get_ass. cbn [get_id]. do 3 run_prim. rewrite decide_False by done.
  unfold CR_VAR, create_node. do 2 run_prim. cbn [CHECK_RET].
  rewrite (run_guard tokens (fun op => bool_decide (op = ASS)) _
             (mkState (S (id s)) (sce_debt s)
                (heap s ++ [mkNode VAR (Var_val (var_value k)) None None])) _ Hnxt).
  unfold is_op in Hop. rewrite Hop. reflexivity.
Qed.

(** X4: [{ }] is rejected, and not at the brace: [get_scope] asks for the first
    statement of the scope whatever the token is, [get_id] takes the closing
    brace for the target of an assignment, and [get_ass] fails at the token
    after it.  The debt the scope was entered with is lost. *)
Theorem empty_scope_rejected (fuel : nat) (s : state) (o c nxt : Token) (rest : list Token) :
  drop (id s) tokens = o :: c :: nxt :: rest →
  tok_type o = OCBR → tok_type c = CCBR →
  is_op ASS nxt = false →
  4 ≤ fuel →
  get_scope tokens fuel s
  = Ret NULL (mkState (id s + 2) 0
                (heap s ++ [mkNode VAR (Var_val (var_value c)) NULL NULL])).
Proof.
  intros Hdrop Ho Hc Hnxt Hfuel.
  apply drop_lookup_head in Hdrop as [Hl0 Hdrop].
  apply drop_lookup_head in Hdrop as [Hl1 Hdrop].
  apply drop_lookup_head in Hdrop as [Hl2 _].
  destruct fuel as [|[|[|[|n]]]]; [lia..|].
  cbn [get_scope]. run_prim. rewrite Ho, decide_True by done.
  do 4 run_prim. rewrite Hc, decide_False by done.
  cbn [get_cmd]. run_prim. rewrite Hc, decide_False by done.
  rewrite !bind_assoc.
  erewrite run_bind;
    [|apply (get_ass_no_operator _ (mkState (S (id s)) 0 (heap s)) c nxt);
      [exact Hl1 | by rewrite Hc | split; by rewrite Hc | exact Hl2 | exact Hnxt | lia]].
  cbn [CHECK_RET id sce_debt heap]. repeat (run_prim; cbn [CHECK_RET]).
  unfold ret. do 2 f_equal. lia.
Qed.

(** ** What a command does to the debt *)

Lemma extend_sce_chain_debt k : ∀ cur_node s p s',
  extend_sce_chain k cur_node s = Ret p s' → sce_debt s' = sce_debt s.
Proof.
  induction k as [|k IH]; intros cur_node s p s' Hrun; cbn [extend_sce_chain] in Hrun.
  - unfold ret in Hrun. by simplify_eq.
  - apply bind_Ret_inv in Hrun as (r & s1 & Hc & Hrun).
    apply bind_Ret_inv in Hrun as ([] & s2 & Hst & Hrun).
    apply IH in Hrun. unfold CR_SCE, create_node in Hc.
    unfold store in Hst. repeat case_match; simplify_eq. done.
Qed.

Lemma finish_cmd_debt cmd s p s' :
  finish_cmd cmd s = Ret p s' → sce_debt s' = 0%N ∧ p ≠ NULL.
Proof.
  unfold finish_cmd. intros Hrun.
  apply bind_Ret_inv in Hrun as (debt & s1 & Hd & Hrun).
  unfold get_sce_debt in Hd. simplify_eq. case_decide as Hz.
  - unfold CR_SMC, create_node in Hrun. simplify_eq. done.
  - apply bind_Ret_inv in Hrun as (cmd_parent & s2 & Hc & Hrun).
    apply bind_Ret_inv in Hrun as (cur_node & s3 & He & Hrun).
    apply bind_Ret_inv in Hrun as ([] & s4 & Hst & Hrun).
    unfold bind, set_sce_debt, ret in Hrun. simplify_eq.
    unfold CR_SCE, create_node in Hc. simplify_eq. done.
Qed.

(** X5: whenever [get_cmd] returns a command, nothing is owed any more: the
    command has been hung under as many [SCE] nodes as were owed, and the
    counter is zero. *)
Theorem command_settles_debt (fuel : nat) (s s' : state) (p : addr) :
  get_cmd tokens fuel s = Ret (Some p) s' → sce_debt s' = 0%N.
Proof.
  destruct fuel as [|n]; [done|]. cbn [get_cmd]. intros Hrun.
  apply bind_Ret_inv in Hrun as (ty & s1 & _ & Hrun).
  case_decide.
  - apply bind_Ret_inv in Hrun as (cmd & s2 & _ & Hrun).
    destruct cmd as [c|]; [|by null_ret Hrun].
    by apply finish_cmd_debt in Hrun as [? _].
  - apply bind_Ret_inv in Hrun as (cmd & s2 & _ & Hrun).
    destruct cmd as [c|]; [|by null_ret Hrun]. cbn [CHECK_RET] in Hrun.
    apply bind_Ret_inv in Hrun as (ty' & s3 & _ & Hrun).
    case_decide; [|by null_ret Hrun].
    apply bind_Ret_inv in Hrun as ([] & s4 & _ & Hrun).
    by apply finish_cmd_debt in Hrun as [? _].
Qed.

(** ** Right links that never end *)

(** X6: when the right links from a node never reach a node without a right
    child (the chain runs into a cycle), the walk of [get_scope_end] does not
    end: with any fuel the model runs out of it. *)
Theorem get_scope_end_cycle (fuel : nat) (s : state) (a : addr) (on_chain : addr → Prop) :
  on_chain a →
  (∀ b, on_chain b → ∃ n c, heap s !! b = Some n ∧ right n = Some c ∧ on_chain c) →
  get_scope_end fuel (Some a) s = OutOfFuel.
Proof.
  intros Ha Hstep. cbn [get_scope_end]. revert a Ha.
  induction fuel as [|n IH]; intros a Ha; [done|].
  destruct (Hstep a Ha) as (nd & c & Hnd & Hr & Hc).
  cbn [scope_end_loop]. rewrite (run_bind _ _ _ _ _ (run_load s a nd Hnd)), Hr.
  by apply IH.
Qed.

(** ** A production that parses an operand and then loops: any operands *)

Section Level.

Variable f : nat → M ptr.
Variable L : nat → ptr → M ptr.
Variable F : nat → M ptr.
Variable accept : Ops → bool.
Variable cf : nat.
Variable stopf : Token → bool.
Variables Gf G : list Token → tree → Prop.

Hypothesis F_S : ∀ n, F (S n) = (val <- f n ;; CHECK_RET val (L n val)).
Hypothesis L_fault : ∀ n val s, tokens !! id s = None → L (S n) val s = Fault.
Hypothesis L_stop : ∀ n val s k,
  tokens !! id s = Some k → accepts accept k = false → L (S n) val s = Ret val s.
Hypothesis L_go : ∀ n val s k,
  tokens !! id s = Some k → accepts accept k = true →
  L (S n) val s
  = (incr_id ;;
     val_2 <- f n ;;
     CHECK_RET val_2 (val' <- CR_OP (op_value k) val val_2 ;; L n val')) s.
Hypothesis accept_stopf : ∀ k, accepts accept k = true → stopf k = true.

(** *** Every sentence is parsed *)

Lemma reaches_one toks t :
  toks ≠ [] → reads tokens f cf stopf toks t → reaches tokens F L (S cf) stopf toks t.
Proof.
  intros Hne Hf. exists 1. split; [destruct toks; [done | simpl; lia]|].
  intros fuel s nxt rest Hdrop Hstop Hfuel.
  destruct fuel as [|n]; [lia|]. rewrite F_S.
  destruct (Hf n s nxt rest Hdrop Hstop) as (p & h' & Hrun & Hp); [lia|].
  exists p, h'. split; [|exact Hp].
  erewrite run_bind; [|exact Hrun]. cbn [CHECK_RET]. by rewrite Nat.sub_1_r.
Qed.

Lemma reaches_more toks1 t1 k toks2 t2 :
  reaches tokens F L (S cf) stopf toks1 t1 →
  accepts accept k = true →
  reads tokens f cf stopf toks2 t2 →
  reaches tokens F L (S cf) stopf (toks1 ++ k :: toks2)
    (Node OP (Op_val (op_value k)) t1 t2).
Proof.
  intros (d & Hd & H1) Hk H2. exists (S d).
  rewrite length_app. cbn [length]. split; [lia|].
  intros fuel s nxt rest Hdrop Hstop Hfuel.
  rewrite <- app_assoc in Hdrop. cbn [app] in Hdrop.
  destruct (H1 fuel s k (toks2 ++ nxt :: rest) Hdrop (accept_stopf _ Hk))
    as (p1 & h1 & Hrun1 & Hp1); [lia|].
  rewrite Hrun1.
  destruct (fuel - d) as [|m] eqn:Hm; [lia|].
  replace (fuel - S d) with m by lia.
  apply drop_past, drop_lookup_head in Hdrop as [Hlk Hdrop].
  erewrite L_go; [|exact Hlk | exact Hk].
  run_prim.
  destruct (H2 m (mkState (S (id s + length toks1)) (sce_debt s) (heap s ++ h1))
              nxt rest Hdrop Hstop) as (p2 & h2 & Hrun2 & Hp2); [lia|].
  cbn [id sce_debt heap] in Hrun2, Hp2.
  erewrite run_bind; [|exact Hrun2]. cbn [CHECK_RET].
  unfold CR_OP, create_node. run_prim.
  pose proof (repr_in_bounds _ _ _ _ _ Hp1) as Hb1.
  exists (length ((heap s ++ h1) ++ h2)),
    (h1 ++ h2 ++ [mkNode OP (Op_val (op_value k)) (Some p1) (Some p2)]).
  rewrite !app_assoc. split.
  - do 2 f_equal. lia.
  - apply repr_in_new.
    + rewrite !length_app. lia.
    + apply repr_in_app. eapply repr_in_weaken; [..|exact Hp1];
        [lia | rewrite !length_app; lia].
    + eapply repr_in_weaken; [..|exact Hp2]; [rewrite length_app|]; lia.
Qed.

Lemma reads_of_reaches c stop toks t :
  (∀ k, stop k = true → stopf k = true ∧ accepts accept k = false) →
  reaches tokens F L c stopf toks t →
  reads tokens F c stop toks t.
Proof.
  intros Hstops (d & Hd & H) fuel s nxt rest Hdrop Hstop Hfuel.
  destruct (Hstops _ Hstop) as [Hsf Hrej].
  destruct (H fuel s nxt rest Hdrop Hsf Hfuel) as (p & h' & Hrun & Hp).
  exists p, h'. split; [|exact Hp]. rewrite Hrun.
  destruct (fuel - d) as [|m] eqn:Hm; [lia|].
  apply drop_past, drop_lookup_head in Hdrop as [Hl _].
  by erewrite L_stop.
Qed.

(** *** Every tree returned is the tree of a sentence *)

Hypothesis G_one : ∀ toks t, Gf toks t → G toks t.
Hypothesis G_more : ∀ toks1 t1 k toks2 t2,
  G toks1 t1 → accepts accept k = true → Gf toks2 t2 →
  G (toks1 ++ k :: toks2) (Node OP (Op_val (op_value k)) t1 t2).

Lemma sound_L n :
  sound tokens Gf (f n) → sound_loop tokens G (L n) → sound_loop tokens G (L (S n)).
Proof.
  intros Hf HL s v p s' lo toks0 tv Hrun H0 Hv.
  destruct (tokens !! id s) as [k|] eqn:Hk; [|by rewrite L_fault in Hrun].
  destruct (accepts accept k) eqn:Hacc.
  - erewrite L_go in Hrun; [|exact Hk | exact Hacc].
    revert Hrun. run_prim. intros Hrun.
    apply bind_Ret_inv in Hrun as (val_2 & s2 & Hrun2 & Hrun).
    destruct val_2 as [p2|]; [|cbn [CHECK_RET] in Hrun; unfold ret in Hrun; by simplify_eq].
    cbn [CHECK_RET] in Hrun.
    apply Hf in Hrun2 as (toks2 & rest2 & t2 & h2 & Hdrop2 & Hg2 & -> & Hp2).
    cbn [id sce_debt heap] in *.
    revert Hrun. unfold CR_OP, create_node. run_prim. intros Hrun.
    pose proof (repr_in_bounds _ _ _ _ _ Hv) as Hb.
    eapply (HL _ _ _ _ lo (toks0 ++ k :: toks2)) in Hrun
        as (toks1 & rest & t & h' & Hdrop1 & Hg & -> & Hp); [|by eapply G_more|].
    + cbn [id sce_debt heap] in *.
      exists (k :: toks2 ++ toks1), rest, t,
        (h2 ++ [mkNode OP (Op_val (op_value k)) (Some v) (Some p2)] ++ h').
      split_and!.
      * rewrite (drop_S _ _ _ Hk), Hdrop2.
        pose proof (drop_past _ _ _ _ Hdrop2) as Hd. rewrite Hdrop1 in Hd.
        rewrite <- Hd. cbn [app]. by rewrite <- app_assoc.
      * rewrite <- !app_assoc in Hg. cbn [app] in Hg. exact Hg.
      * rewrite !app_assoc. f_equal. cbn [length]. rewrite length_app. lia.
      * rewrite !app_assoc. exact Hp.
    + cbn [heap]. apply repr_in_new.
      * rewrite !length_app. lia.
      * apply repr_in_app. eapply repr_in_weaken; [..|exact Hv];
          [lia | rewrite !length_app; lia].
      * eapply repr_in_weaken; [..|exact Hp2]; [lia | rewrite !length_app; lia].
  - erewrite L_stop in Hrun; [|exact Hk | exact Hacc]. simplify_eq.
    exists [], (drop (id s') tokens), tv, [].
    rewrite !app_nil_r, Nat.add_0_r. split_and!; [done | done | by destruct s' | done].
Qed.

Lemma sound_F n :
  sound tokens Gf (f n) → sound_loop tokens G (L n) → sound tokens G (F (S n)).
Proof.
  intros Hf HL s p s' Hrun. rewrite F_S in Hrun.
  apply bind_Ret_inv in Hrun as (val & s1 & Hrun0 & Hrun).
  destruct val as [v|]; [|cbn [CHECK_RET] in Hrun; unfold ret in Hrun; by simplify_eq].
  cbn [CHECK_RET] in Hrun.
  apply Hf in Hrun0 as (toks0 & rest0 & t0 & h0 & Hdrop0 & Hg0 & -> & Hp0).
  eapply (HL _ _ _ _ (length (heap s)) toks0) in Hrun
      as (toks1 & rest & t & h' & Hdrop1 & Hg & -> & Hp); [|by apply G_one|exact Hp0].
  cbn [id sce_debt heap] in *.
  exists (toks0 ++ toks1), rest, t, (h0 ++ h'). split_and!.
  - rewrite Hdrop0. apply drop_past in Hdrop0. rewrite Hdrop1 in Hdrop0.
    by rewrite <- Hdrop0, <- app_assoc.
  - exact Hg.
  - rewrite !app_assoc. f_equal. rewrite length_app. lia.
  - rewrite !app_assoc. exact Hp.
Qed.

End Level.

(** *** The three operator loops, one step at a time *)

Lemma loop_read_fault {A} (k : Node_type → M A) s :
  tokens !! id s = None → (ty <- CUR_TYPE tokens ;; k ty) s = Fault.
Proof. intros H. unfold bind at 1. unfold CUR_TYPE, CUR_TOKEN, bind. by rewrite H. Qed.

Lemma get_add_loop_stop n val s k :
  tokens !! id s = Some k → accepts additive k = false →
  get_add_loop tokens (S n) val s = Ret val s.
Proof.
  intros Hk Hacc. cbn [get_add_loop].
  rewrite (run_guard tokens (fun op => bool_decide (op = ADD) || bool_decide (op = SUB)) _ _ _ Hk).
  unfold accepts, additive in Hacc. by rewrite Hacc.
Qed.

Lemma get_add_loop_go n val s k :
  tokens !! id s = Some k → accepts additive k = true →
  get_add_loop tokens (S n) val s
  = (incr_id ;;
     val_2 <- get_mul tokens n ;;
     CHECK_RET val_2 (val' <- CR_OP (op_value k) val val_2 ;; get_add_loop tokens n val')) s.
Proof.
  intros Hk Hacc. cbn [get_add_loop].
  rewrite (run_guard tokens (fun op => bool_decide (op = ADD) || bool_decide (op = SUB)) _ _ _ Hk).
  unfold accepts, additive in Hacc. rewrite Hacc.
  by rewrite (run_bind _ _ _ _ _ (run_CUR_OP tokens _ _ Hk)).
Qed.

Lemma get_mul_loop_stop n val s k :
  tokens !! id s = Some k → accepts multiplicative k = false →
  get_mul_loop tokens (S n) val s = Ret val s.
Proof.
  intros Hk Hacc. cbn [get_mul_loop].
  rewrite (run_guard tokens (fun op => bool_decide (op = MUL) || bool_decide (op = DIV)) _ _ _ Hk).
  unfold accepts, multiplicative in Hacc. by rewrite Hacc.
Qed.

Lemma get_mul_loop_go n val s k :
  tokens !! id s = Some k → accepts multiplicative k = true →
  get_mul_loop tokens (S n) val s
  = (incr_id ;;
     val_2 <- get_pow tokens n ;;
     CHECK_RET val_2 (val' <- CR_OP (op_value k) val val_2 ;; get_mul_loop tokens n val')) s.
Proof.
  intros Hk Hacc. cbn [get_mul_loop].
  rewrite (run_guard tokens (fun op => bool_decide (op = MUL) || bool_decide (op = DIV)) _ _ _ Hk).
  unfold accepts, multiplicative in Hacc. rewrite Hacc.
  by rewrite (run_bind _ _ _ _ _ (run_CUR_OP tokens _ _ Hk)).
Qed.

Lemma get_pow_loop_stop n val s k :
  tokens !! id s = Some k → accepts is_pow k = false →
  get_pow_loop tokens (S n) val s = Ret val s.
Proof.
  intros Hk Hacc. cbn [get_pow_loop].
  rewrite (run_guard tokens (fun op => bool_decide (op = POW)) _ _ _ Hk).
  unfold accepts, is_pow in Hacc. by rewrite Hacc.
Qed.

Lemma get_pow_loop_go n val s k :
  tokens !! id s = Some k → accepts is_pow k = true →
  get_pow_loop tokens (S n) val s
  = (incr_id ;;
     val_2 <- get_par tokens n ;;
     CHECK_RET val_2 (val' <- CR_OP (op_value k) val val_2 ;; get_pow_loop tokens n val')) s.
Proof.
  intros Hk Hacc. cbn [get_pow_loop].
  rewrite (run_guard tokens (fun op => bool_decide (op = POW)) _ _ _ Hk).
  unfold accepts, is_pow in Hacc. rewrite Hacc.
  apply andb_true_iff in Hacc as [_ Hpow%bool_decide_eq_true]. by rewrite Hpow.
Qed.

Lemma accepts_additive k :
  accepts additive k = true ↔ tok_type k = OP ∧ additive (op_value k) = true.
Proof. unfold accepts. rewrite andb_true_iff, bool_decide_eq_true. done. Qed.

Lemma accepts_multiplicative k :
  accepts multiplicative k = true ↔ tok_type k = OP ∧ multiplicative (op_value k) = true.
Proof. unfold accepts. rewrite andb_true_iff, bool_decide_eq_true. done. Qed.

Lemma accepts_is_pow k :
  accepts is_pow k = true ↔ tok_type k = OP ∧ op_value k = POW.
Proof. unfold accepts, is_pow. rewrite andb_true_iff, !bool_decide_eq_true. done. Qed.

Lemma additive_stop_mul k : accepts additive k = true → stop_mul k = true.
Proof.
  intros [Hty Hop]%accepts_additive. unfold stop_mul, stop_pow, is_op.
  rewrite !bool_decide_true by done. cbn [andb].
  unfold additive in Hop. by destruct (op_value k).
Qed.

Lemma multiplicative_stop_pow k : accepts multiplicative k = true → stop_pow k = true.
Proof.
  intros [Hty Hop]%accepts_multiplicative. unfold stop_pow, is_op.
  rewrite !bool_decide_true by done. cbn [andb].
  unfold multiplicative in Hop. by destruct (op_value k).
Qed.

Lemma stop_add_level k :
  stop_add k = true → stop_mul k = true ∧ accepts additive k = false.
Proof.
  intros H. split; [by apply stop_add_mul|]. by apply stop_add_rejects.
Qed.

Lemma stop_mul_level k :
  stop_mul k = true → stop_pow k = true ∧ accepts multiplicative k = false.
Proof.
  intros H. split; [by apply stop_mul_pow|]. by apply stop_mul_rejects.
Qed.

Lemma stop_pow_level k :
  stop_pow k = true → stop_any k = true ∧ accepts is_pow k = false.
Proof.
  intros H. split; [done|]. unfold stop_pow, is_op in H. by apply negb_true_iff in H.
Qed.

Lemma stop_add_closing c : tok_type c ≠ OP → stop_add c = true.
Proof.
  intros H. unfold stop_add, stop_mul, stop_pow, is_op.
  by rewrite !(bool_decide_false (tok_type c = OP)) by done.
Qed.

(** ** Every sentence of the grammar is parsed *)

Lemma reaches_nonempty F L c stop toks t : reaches tokens F L c stop toks t → toks ≠ [].
Proof. intros (d & Hd & _) ->. simpl in Hd. lia. Qed.

Lemma get_mul_reads toks t :
  reaches tokens (get_mul tokens) (get_mul_loop tokens) 3 stop_pow toks t →
  reads tokens (get_mul tokens) 3 stop_mul toks t.
Proof.
  eapply reads_of_reaches; [apply get_mul_loop_stop | apply stop_mul_level].
Qed.

Lemma get_pow_reads toks t :
  reaches tokens (get_pow tokens) (get_pow_loop tokens) 2 stop_any toks t →
  reads tokens (get_pow tokens) 2 stop_pow toks t.
Proof.
  eapply reads_of_reaches; [apply get_pow_loop_stop | apply stop_pow_level].
Qed.

Lemma get_add_reads toks t :
  reaches tokens (get_add tokens) (get_add_loop tokens) 4 stop_mul toks t →
  reads tokens (get_add tokens) 4 stop_add toks t.
Proof.
  eapply reads_of_reaches; [apply get_add_loop_stop | apply stop_add_level].
Qed.

Lemma g_sentences_parsed :
  (∀ toks t, g_add is_var toks t →
     reaches tokens (get_add tokens) (get_add_loop tokens) 4 stop_mul toks t)
  ∧ (∀ toks t, g_mul is_var toks t →
       reaches tokens (get_mul tokens) (get_mul_loop tokens) 3 stop_pow toks t)
  ∧ (∀ toks t, g_pow is_var toks t →
       reaches tokens (get_pow tokens) (get_pow_loop tokens) 2 stop_any toks t)
  ∧ (∀ toks t, g_par is_var toks t → toks ≠ [] ∧ reads tokens (get_par tokens) 1 stop_any toks t)
  ∧ (∀ toks t, g_id is_var toks t → toks ≠ [] ∧ reads tokens (get_id tokens) 0 stop_any toks t).
Proof.
  apply g_mutind.
  - (* a product is a sum *)
    intros toks t _ Hmul.
    eapply reaches_one; [reflexivity | by eapply reaches_nonempty | by apply get_mul_reads].
  - (* one more product *)
    intros toks1 t1 k toks2 t2 _ H1 Hty Hop _ H2.
    eapply reaches_more;
      [apply get_add_loop_go | apply additive_stop_mul | exact H1
      | by apply accepts_additive | by apply get_mul_reads].
  - intros toks t _ Hpow.
    eapply reaches_one; [reflexivity | by eapply reaches_nonempty | by apply get_pow_reads].
  - intros toks1 t1 k toks2 t2 _ H1 Hty Hop _ H2.
    eapply reaches_more;
      [apply get_mul_loop_go | apply multiplicative_stop_pow | exact H1
      | by apply accepts_multiplicative | by apply get_pow_reads].
  - intros toks t _ [Hne Hpar].
    eapply reaches_one; [reflexivity | done | done].
  - intros toks1 t1 k toks2 t2 _ H1 Hty Hop _ [_ H2].
    rewrite <- Hop.
    eapply reaches_more;
      [apply get_pow_loop_go | done | exact H1 | by apply accepts_is_pow | done].
  - (* a parenthesis *)
    intros o toks t c Ho _ Hadd%get_add_reads Hc. split; [done|].
    intros fuel s nxt rest Hdrop _ Hfuel.
    cbn [length] in Hfuel. rewrite length_app in Hfuel. cbn [length] in Hfuel.
    cbn [app] in Hdrop. rewrite <- app_assoc in Hdrop. cbn [app] in Hdrop.
    apply drop_lookup_head in Hdrop as [Hlo Hdrop].
    destruct fuel as [|n]; [lia|]. cbn [get_par].
    run_prim. rewrite Ho, decide_True by done. run_prim.
    destruct (Hadd n (mkState (S (id s)) (sce_debt s) (heap s)) c (nxt :: rest) Hdrop)
      as (p & h' & Hrun & Hp); [apply stop_add_closing; by rewrite Hc | lia |].
    cbn [id sce_debt heap] in Hrun, Hp.
    erewrite run_bind; [|exact Hrun]. cbn [CHECK_RET].
    apply drop_past, drop_lookup_head in Hdrop as [Hlc _].
    assert (Hlc' : tokens !! id (mkState (S (id s) + length toks) (sce_debt s) (heap s ++ h'))
                   = Some c) by exact Hlc.
    rewrite (run_bind _ _ _ _ _ (run_CUR_TYPE tokens _ _ Hlc')).
    rewrite Hc, bool_decide_true by done. cbn [SYNTAX_CHECK]. run_prim.
    exists p, h'. split; [|exact Hp]. unfold ret. do 2 f_equal.
    cbn [length]. rewrite length_app. cbn [length]. lia.
  - (* a number *)
    intros k Hk. split; [done|].
    intros fuel s nxt rest Hdrop _ Hfuel. cbn [length] in Hfuel.
    apply drop_lookup_head in Hdrop as [Hl _].
    destruct fuel as [|n]; [lia|]. cbn [get_par].
    run_prim. rewrite Hk, decide_False, decide_True by done.
    unfold get_num, CR_NUM, create_node. repeat run_prim. cbn [CHECK_RET].
    exists (length (heap s)), [mkNode NUM (Num_val (num_value k)) NULL NULL].
    split; [unfold ret; do 2 f_equal; cbn [length]; lia|].
    apply repr_in_new; [lia | constructor | constructor].
  - (* anything else goes to [get_id] *)
    intros k toks t Ho Hn _ [_ Hid]. split; [done|].
    intros fuel s nxt rest Hdrop _ Hfuel.
    pose proof Hdrop as [Hl _]%drop_lookup_head.
    destruct fuel as [|n]; [lia|]. cbn [get_par].
    run_prim. rewrite !decide_False by done.
    destruct (Hid n s nxt rest Hdrop eq_refl) as (p & h' & Hrun & Hp); [lia|].
    erewrite run_bind; [|exact Hrun]. cbn [CHECK_RET].
    by exists p, h'.
  - (* a call *)
    intros k o toks t c Hk Hname Ho _ Hadd%get_add_reads Hc. split; [done|].
    intros fuel s nxt rest Hdrop _ Hfuel.
    cbn [length] in Hfuel. rewrite length_app in Hfuel. cbn [length] in Hfuel.
    cbn [app] in Hdrop. rewrite <- app_assoc in Hdrop. cbn [app] in Hdrop.
    apply drop_lookup_head in Hdrop as [Hlk Hdrop].
    apply drop_lookup_head in Hdrop as [Hlo Hdrop].
    destruct fuel as [|n]; [lia|]. cbn [get_id].
    do 3 run_prim. rewrite Hk, decide_True by done. run_prim.
    rewrite Hname. cbn [negb]. run_prim. rewrite Ho, decide_True by done. run_prim.
    destruct (Hadd n (mkState (S (S (id s))) (sce_debt s) (heap s)) c (nxt :: rest) Hdrop)
      as (p & h' & Hrun & Hp); [apply stop_add_closing; by rewrite Hc | lia |].
    cbn [id sce_debt heap] in Hrun, Hp.
    erewrite run_bind; [|exact Hrun]. cbn [CHECK_RET].
    apply drop_past, drop_lookup_head in Hdrop as [Hlc _].
    assert (Hlc' : tokens !! id (mkState (S (S (id s)) + length toks) (sce_debt s)
                                   (heap s ++ h')) = Some c) by exact Hlc.
    rewrite (run_bind _ _ _ _ _ (run_CUR_TYPE tokens _ _ Hlc')).
    rewrite Hc, decide_True by done. run_prim.
    unfold CR_KWD, create_node. cbn [id sce_debt heap].
    exists (length (heap s ++ h')), (h' ++ [mkNode KWD (Var_val (var_value k)) NULL (Some p)]).
    rewrite !app_assoc. split.
    + do 2 f_equal. cbn [length]. rewrite length_app. cbn [length]. lia.
    + apply repr_in_new; [rewrite length_app; lia | constructor |].
      eapply repr_in_weaken; [..|exact Hp]; lia.
  - (* [while] and [if] *)
    intros k Hk Hname. split; [done|].
    intros fuel s nxt rest Hdrop _ Hfuel. cbn [length] in Hfuel.
    apply drop_lookup_head in Hdrop as [Hl _].
    destruct fuel as [|n]; [lia|]. cbn [get_id].
    do 3 run_prim. rewrite Hk, decide_True by done. run_prim.
    rewrite Hname. cbn [negb]. unfold CR_KWD, create_node. cbn [id sce_debt heap].
    exists (length (heap s)), [mkNode KWD (Var_val (var_value k)) NULL NULL].
    split; [do 2 f_equal; cbn [length]; lia|].
    apply repr_in_new; [lia | constructor | constructor].
  - (* a variable *)
    intros k Hk Hv. unfold is_var in Hv. split; [done|].
    intros fuel s nxt rest Hdrop _ Hfuel. cbn [length] in Hfuel.
    apply drop_lookup_head in Hdrop as [Hl _].
    destruct fuel as [|n]; [lia|]. cbn [get_id].
    do 3 run_prim. rewrite decide_False by done. run_prim.
    unfold CR_VAR, create_node. cbn [id sce_debt heap].
    exists (length (heap s)), [mkNode VAR (Var_val (var_value k)) NULL NULL].
    split; [do 2 f_equal; cbn [length]; lia|].
    apply repr_in_new; [lia | constructor | constructor].
Qed.

Lemma g_add_reads toks t :
  g_add is_var toks t → reads tokens (get_add tokens) 4 stop_add toks t.
Proof. intros Hg. apply get_add_reads. by apply g_sentences_parsed. Qed.

(** X7: completeness of the expression productions: every sentence of the
    grammar whose variables are identifiers, followed by a token that is no
    binary operator ([+ - * / ^]), is consumed to its end by [get_add], which
    returns the tree of the sentence, built from new nodes; the debt is left
    alone.  Four units of fuel for each token of
    the sentence and four more are enough. *)
Theorem expression_parsed (toks : list Token) (t : tree) (fuel : nat) (s : state)
    (nxt : Token) (rest : list Token) :
  g_add is_var toks t →
  drop (id s) tokens = toks ++ nxt :: rest →
  stop_add nxt = true →
  4 * length toks + 4 ≤ fuel →
  ∃ p h',
    get_add tokens fuel s
    = Ret (Some p) (mkState (id s + length toks) (sce_debt s) (heap s ++ h'))
    ∧ repr_in (heap s ++ h') (length (heap s)) (length (heap s ++ h')) (Some p) t.
Proof.
  intros Hg. by apply g_add_reads.
Qed.

(** ** Every tree returned is the tree of a sentence *)

Lemma sound_out_of_fuel G : sound tokens G out_of_fuel.
Proof. intros s p s' [=]. Qed.

Lemma g_expressions_sound fuel :
  sound tokens (g_add reads_name) (get_add tokens fuel)
  ∧ sound_loop tokens (g_add reads_name) (get_add_loop tokens fuel)
  ∧ sound tokens (g_mul reads_name) (get_mul tokens fuel)
  ∧ sound_loop tokens (g_mul reads_name) (get_mul_loop tokens fuel)
  ∧ sound tokens (g_pow reads_name) (get_pow tokens fuel)
  ∧ sound_loop tokens (g_pow reads_name) (get_pow_loop tokens fuel)
  ∧ sound tokens (g_par reads_name) (get_par tokens fuel)
  ∧ sound tokens (g_id reads_name) (get_id tokens fuel).
Proof.
  induction fuel as [|n (IHadd & IHaddl & IHmul & IHmull & IHpow & IHpowl & IHpar & IHid)].
  { split_and!; try apply sound_out_of_fuel; intros s v p s' lo toks0 tv [=]. }
  split_and!.
  - eapply sound_F; [reflexivity | apply g_add_mul | exact IHmul | exact IHaddl].
  - eapply sound_L;
      [intros; by apply loop_read_fault | apply get_add_loop_stop | apply get_add_loop_go
      | | exact IHmul | exact IHaddl].
    intros toks1 t1 k toks2 t2 H1 [Hty Hop]%accepts_additive H2. by apply g_add_op.
  - eapply sound_F; [reflexivity | apply g_mul_pow | exact IHpow | exact IHmull].
  - eapply sound_L;
      [intros; by apply loop_read_fault | apply get_mul_loop_stop | apply get_mul_loop_go
      | | exact IHpow | exact IHmull].
    intros toks1 t1 k toks2 t2 H1 [Hty Hop]%accepts_multiplicative H2. by apply g_mul_op.
  - eapply sound_F; [reflexivity | apply g_pow_par | exact IHpar | exact IHpowl].
  - eapply sound_L;
      [intros; by apply loop_read_fault | apply get_pow_loop_stop | apply get_pow_loop_go
      | | exact IHpar | exact IHpowl].
    intros toks1 t1 k toks2 t2 H1 [Hty Hop]%accepts_is_pow H2. rewrite Hop. by apply g_pow_op.
  - (* [get_par] *)
    intros s p s' Hrun. cbn [get_par] in Hrun.
    apply bind_Ret_inv in Hrun as (ty & s1 & (-> & k & Hk & ->)%CUR_TYPE_inv & Hrun).
    case_decide as Ho; [|case_decide as Hn].
    + revert Hrun. run_prim. intros Hrun.
      apply bind_Ret_inv in Hrun as (val & s2 & Hadd & Hrun).
      destruct val as [v|]; [|by null_ret Hrun]. cbn [CHECK_RET] in Hrun.
      apply IHadd in Hadd as (toks & rest & t & h' & Hdrop & Hg & -> & Hp).
      cbn [id sce_debt heap] in *.
      apply bind_Ret_inv in Hrun as (ty & s3 & (-> & c & Hc & ->)%CUR_TYPE_inv & Hrun).
      case_bool_decide as Hcbr; [|by null_ret Hrun]. cbn [SYNTAX_CHECK] in Hrun.
      unfold bind, incr_id, ret in Hrun. simplify_eq. cbn [id sce_debt heap] in *.
      pose proof (drop_past _ _ _ _ Hdrop) as Hrest.
      rewrite (drop_S _ _ _ Hc) in Hrest.
      exists (k :: toks ++ [c]), (drop (S (S (id s) + length toks)) tokens), t, h'.
      split_and!; [| by apply g_par_br | | exact Hp].
      * rewrite (drop_S _ _ _ Hk), Hdrop, <- Hrest. cbn [app]. by rewrite <- app_assoc.
      * f_equal. cbn [length]. rewrite length_app. cbn [length]. lia.
    + apply bind_Ret_inv in Hrun as (val & s2 & Hnum & Hrun).
      destruct val as [v|]; [|by null_ret Hrun]. cbn [CHECK_RET] in Hrun.
      unfold ret in Hrun. simplify_eq.
      unfold get_num, CR_NUM, create_node in Hnum. revert Hnum. repeat run_prim.
      intros Hnum. simplify_eq.
      exists [k], (drop (S (id s)) tokens), (Node NUM (Num_val (num_value k)) Leaf Leaf),
        [mkNode NUM (Num_val (num_value k)) NULL NULL].
      split_and!; [by apply drop_S | by apply g_par_num | f_equal; cbn [length]; lia |].
      apply repr_in_new; [lia | constructor | constructor].
    + apply bind_Ret_inv in Hrun as (val & s2 & Hid & Hrun).
      destruct val as [v|]; [|by null_ret Hrun]. cbn [CHECK_RET] in Hrun.
      unfold ret in Hrun. simplify_eq.
      apply IHid in Hid as (toks & rest & t & h' & Hdrop & Hg & -> & Hp).
      exists toks, rest, t, h'. split_and!; [done | | done | done].
      destruct toks as [|k' toks]; [by inversion Hg|].
      rewrite (drop_S _ _ _ Hk) in Hdrop. cbn [app] in Hdrop. simplify_eq.
      by apply g_par_id.
  - (* [get_id] *)
    intros s p s' Hrun. cbn [get_id] in Hrun.
    apply bind_Ret_inv in Hrun as (tok & s1 & Htok & Hrun).
    unfold CUR_TOKEN in Htok. destruct (tokens !! id s) as [k|] eqn:Hk; [|done].
    injection Htok as <- <-.
    apply bind_Ret_inv in Hrun as (name & s1 & (Hreads & -> & ->)%read_var_value_inv & Hrun).
    apply bind_Ret_inv in Hrun as (ty & s2 & Hty & Hrun).
    rewrite (run_CUR_TYPE tokens _ _ Hk) in Hty. injection Hty as <- <-.
    case_decide as Hkwd.
    + revert Hrun. run_prim. intros Hrun.
      destruct (IS_KWD (var_value k) "while" || IS_KWD (var_value k) "if") eqn:Hname;
        cbn [negb] in Hrun.
      * unfold CR_KWD, create_node in Hrun. simplify_eq. cbn [id sce_debt heap] in *.
        exists [k], (drop (S (id s)) tokens), (Node KWD (Var_val (var_value k)) Leaf Leaf),
          [mkNode KWD (Var_val (var_value k)) NULL NULL].
        split_and!; [by apply drop_S | by apply g_id_kwd | f_equal; cbn [length]; lia |].
        apply repr_in_new; [lia | constructor | constructor].
      * apply bind_Ret_inv in Hrun as (ty & s3 & (-> & o & Ho & ->)%CUR_TYPE_inv & Hrun).
        cbn [id] in Ho.
        case_decide as Hobr; [|by null_ret Hrun].
        revert Hrun. run_prim. intros Hrun.
        apply bind_Ret_inv in Hrun as (child & s4 & Hadd & Hrun).
        destruct child as [v|]; [|by null_ret Hrun]. cbn [CHECK_RET] in Hrun.
        apply IHadd in Hadd as (toks & rest & t & h' & Hdrop & Hg & -> & Hp).
        cbn [id sce_debt heap] in *.
        apply bind_Ret_inv in Hrun as (ty & s5 & (-> & c & Hc & ->)%CUR_TYPE_inv & Hrun).
        case_decide as Hcbr; [|by null_ret Hrun].
        unfold bind, incr_id, CR_KWD, create_node in Hrun. simplify_eq.
        cbn [id sce_debt heap] in *.
        pose proof (drop_past _ _ _ _ Hdrop) as Hrest.
        rewrite (drop_S _ _ _ Hc) in Hrest.
        exists (k :: o :: toks ++ [c]), (drop (S (S (S (id s)) + length toks)) tokens),
          (Node KWD (Var_val (var_value k)) Leaf t),
          (h' ++ [mkNode KWD (Var_val (var_value k)) NULL (Some v)]).
        rewrite !app_assoc. split_and!; [| by apply g_id_call | |].
        -- rewrite (drop_S _ _ _ Hk), (drop_S _ _ _ Ho), Hdrop, <- Hrest. cbn [app].
           by rewrite <- app_assoc.
        -- f_equal. cbn [length]. rewrite length_app. cbn [length]. lia.
        -- apply repr_in_new; [rewrite length_app; lia | constructor |].
           eapply repr_in_weaken; [..|exact Hp]; lia.
    + unfold bind, incr_id, CR_VAR, create_node in Hrun. simplify_eq.
      cbn [id sce_debt heap] in *.
      exists [k], (drop (S (id s)) tokens), (Node VAR (Var_val (var_value k)) Leaf Leaf),
        [mkNode VAR (Var_val (var_value k)) NULL NULL].
      split_and!; [by apply drop_S | by apply g_id_var | f_equal; cbn [length]; lia |].
      apply repr_in_new; [lia | constructor | constructor].
Qed.

(** X8: soundness of the expression productions: whenever [get_add] returns a
    tree, the tokens it has consumed are a sentence of the grammar (a
    variable being a token that is no keyword, no number and no operator)
    and the tree is the tree of this sentence, built from new nodes; the
    debt is as before and no node that existed has changed. *)
Theorem expression_accepted (fuel : nat) (s s' : state) (p : addr) :
  get_add tokens fuel s = Ret (Some p) s' →
  ∃ toks rest t h',
    drop (id s) tokens = toks ++ rest
    ∧ g_add reads_name toks t
    ∧ s' = mkState (id s + length toks) (sce_debt s) (heap s ++ h')
    ∧ repr_in (heap s ++ h') (length (heap s)) (length (heap s ++ h')) (Some p) t.
Proof. apply g_expressions_sound. Qed.

(** ** The commands never run out of fuel *)

Lemma reads_first_bind {A B} (m : M A) (k : A → M B) :
  reads_first tokens m → reads_first tokens (bind m k).
Proof. intros Hm s b s' (a & s1 & H1 & _)%bind_Ret_inv. by eapply Hm. Qed.

Lemma reads_first_CUR_TOKEN : reads_first tokens (CUR_TOKEN tokens).
Proof.
  intros s a s'. unfold CUR_TOKEN. destruct (tokens !! id s) eqn:H; [|done].
  intros _. by eapply lookup_lt_Some.
Qed.

Lemma reads_first_CUR_TYPE : reads_first tokens (CUR_TYPE tokens).
Proof. apply reads_first_bind, reads_first_CUR_TOKEN. Qed.

Lemma reads_first_expressions fuel :
  reads_first tokens (get_add tokens fuel)
  ∧ reads_first tokens (get_mul tokens fuel)
  ∧ reads_first tokens (get_pow tokens fuel)
  ∧ reads_first tokens (get_par tokens fuel)
  ∧ reads_first tokens (get_id tokens fuel).
Proof.
  induction fuel as [|n (IHadd & IHmul & IHpow & IHpar & IHid)];
    [split_and!; intros s a s'; discriminate|].
  split_and!; simpl; apply reads_first_bind;
    first [assumption | apply reads_first_CUR_TYPE | apply reads_first_CUR_TOKEN].
Qed.

Lemma reads_first_get_ass fuel : reads_first tokens (get_ass tokens fuel).
Proof. apply reads_first_bind, reads_first_expressions. Qed.

Lemma reads_first_get_cmd fuel : reads_first tokens (get_cmd tokens fuel).
Proof.
  destruct fuel; [intros s a s'; discriminate|].
  simpl. apply reads_first_bind, reads_first_CUR_TYPE.
Qed.

Lemma runs_S {A} n c (m : M A) : runs tokens n c m → runs tokens (S n) (S c) m.
Proof. intros H s Hs. apply H. lia. Qed.

Lemma runs_weaken {A} n c c' (m : M A) : c' ≤ c → runs tokens n c' m → runs tokens n c m.
Proof. intros Hc H s Hs. apply H. lia. Qed.

Lemma runs_at_runs {A} n c (m : M A) : runs tokens n c m → runs_at tokens n c m.
Proof. intros H s _ Hs. by apply H. Qed.

Lemma not_out_of_fuel_bind {A B} (m : M A) (k : A → M B) s :
  m s ≠ OutOfFuel → (∀ a s1, m s = Ret a s1 → k a s1 ≠ OutOfFuel) →
  bind m k s ≠ OutOfFuel.
Proof. unfold bind. destruct (m s); [by eauto | done | done]. Qed.

Lemma runs_ret {A} n c (a : A) : runs tokens n c (ret a).
Proof. intros s _. done. Qed.

Lemma runs_at_ret {A} n c (a : A) : runs_at tokens n c (ret a).
Proof. intros s _ _. done. Qed.

(** Reading the current token. *)
Lemma runs_CUR_TOKEN {A} n c (k : Token → M A) :
  (∀ t, runs_at tokens n c (k t)) → runs tokens n c (t <- CUR_TOKEN tokens ;; k t).
Proof.
  intros Hk s Hs. apply not_out_of_fuel_bind.
  - unfold CUR_TOKEN. by destruct (tokens !! id s).
  - intros t s1 Hrun. pose proof (reads_first_CUR_TOKEN _ _ _ Hrun).
    unfold CUR_TOKEN in Hrun. destruct (tokens !! id s); [|done]. simplify_eq.
    by apply Hk.
Qed.

Lemma runs_at_CUR_TOKEN {A} n c (k : Token → M A) :
  (∀ t, runs_at tokens n c (k t)) → runs_at tokens n c (t <- CUR_TOKEN tokens ;; k t).
Proof. intros Hk s _. by apply runs_CUR_TOKEN. Qed.

Lemma runs_CUR_TYPE {A} n c (k : Node_type → M A) :
  (∀ t, runs_at tokens n c (k t)) → runs tokens n c (t <- CUR_TYPE tokens ;; k t).
Proof.
  intros Hk s Hs. unfold CUR_TYPE. rewrite bind_assoc.
  refine (runs_CUR_TOKEN n c _ _ s Hs). intros t s1 H1 H2. by apply Hk.
Qed.

Lemma runs_at_CUR_TYPE {A} n c (k : Node_type → M A) :
  (∀ t, runs_at tokens n c (k t)) → runs_at tokens n c (t <- CUR_TYPE tokens ;; k t).
Proof. intros Hk s _. by apply runs_CUR_TYPE. Qed.

Lemma runs_at_CUR_OP {A} n c (k : Ops → M A) :
  (∀ t, runs_at tokens n c (k t)) → runs_at tokens n c (t <- CUR_OP tokens ;; k t).
Proof.
  intros Hk s _ Hs. unfold CUR_OP. rewrite bind_assoc.
  refine (runs_CUR_TOKEN n c _ _ s Hs). intros t s1 H1 H2. by apply Hk.
Qed.

(** The token read is consumed: four more units are free. *)
Lemma runs_at_incr_id {A} n c (k : M A) :
  runs tokens n (c + 4) k → runs_at tokens n c (incr_id ;; k).
Proof. intros Hk s Hlt Hs. unfold bind, incr_id. apply Hk. simpl. lia. Qed.

Lemma runs_incr_id {A} n c (k : M A) :
  runs tokens n c k → runs tokens n c (incr_id ;; k).
Proof. intros Hk s Hs. unfold bind, incr_id. apply Hk. simpl. lia. Qed.

(** A production that returns has consumed a token. *)
Lemma runs_call {A} n c (m : M ptr) (k : ptr → M A) :
  consumes m → reads_first tokens m →
  runs tokens n c m → (∀ a, runs tokens n (c + 4) (k a)) →
  runs tokens n c (bind m k).
Proof.
  intros Hc Hr Hm Hk s Hs. apply not_out_of_fuel_bind; [by apply Hm|].
  intros a s1 Hrun. apply Hk.
  pose proof (Hc _ _ _ Hrun). pose proof (Hr _ _ _ Hrun). lia.
Qed.

Lemma runs_at_call {A} n c (m : M ptr) (k : ptr → M A) :
  consumes m → reads_first tokens m →
  runs tokens n c m → (∀ a, runs tokens n (c + 4) (k a)) →
  runs_at tokens n c (bind m k).
Proof. intros. by apply runs_at_runs, runs_call. Qed.

(** Whatever does not move the cursor back. *)
Lemma runs_then {A B} n c (m : M A) (k : A → M B) :
  runs tokens n c m → preserves m → (∀ a, runs tokens n c (k a)) →
  runs tokens n c (bind m k).
Proof.
  intros Hm Hp Hk s Hs. apply not_out_of_fuel_bind; [by apply Hm|].
  intros a s1 Hrun. apply Hk. apply Hp in Hrun as [Hle _]. lia.
Qed.

(** What uses no fuel and leaves the cursor. *)
Lemma runs_steady {A B} n c (m : M A) (k : A → M B) :
  steady m → (∀ a, runs tokens n c (k a)) → runs tokens n c (bind m k).
Proof.
  intros Hm Hk s Hs. destruct (Hm s) as [Hno Hid].
  apply not_out_of_fuel_bind; [done|]. intros a s1 Hrun. apply Hk.
  by rewrite (Hid _ _ Hrun).
Qed.

Lemma runs_at_steady {A B} n c (m : M A) (k : A → M B) :
  steady m → (∀ a, runs_at tokens n c (k a)) → runs_at tokens n c (bind m k).
Proof.
  intros Hm Hk s Hlt Hs. destruct (Hm s) as [Hno Hid].
  apply not_out_of_fuel_bind; [done|]. intros a s1 Hrun.
  apply Hk; by rewrite (Hid _ _ Hrun).
Qed.

Lemma steady_ret {A} (a : A) : steady (ret a).
Proof. intros s. split; [done|]. by intros ? ? [= _ <-]. Qed.

Lemma steady_fault {A} : steady (@fault A).
Proof. intros s. split; [done|]. by intros ? ? [=]. Qed.

Lemma steady_bind {A B} (m : M A) (k : A → M B) :
  steady m → (∀ a, steady (k a)) → steady (bind m k).
Proof.
  intros Hm Hk s. destruct (Hm s) as [Hno Hid]. split.
  - apply not_out_of_fuel_bind; [done|]. intros a s1 _. apply Hk.
  - intros b s' (a & s1 & H1 & H2)%bind_Ret_inv.
    apply Hid in H1. apply Hk in H2. congruence.
Qed.

Lemma steady_load p : steady (load p).
Proof.
  intros s. unfold load. destruct p as [a|]; [|by split].
  destruct (heap s !! a); [|by split]. split; [done|]. by intros ? ? [= _ <-].
Qed.

Lemma steady_store p f : steady (store p f).
Proof.
  intros s. unfold store. destruct p as [a|]; [|by split].
  destruct (heap s !! a); [|by split]. split; [done|]. by intros ? ? [= _ <-].
Qed.

Lemma steady_create_node t v l r : steady (create_node t v l r).
Proof. intros s. split; [done|]. by intros ? ? [= _ <-]. Qed.

Lemma steady_get_sce_debt : steady get_sce_debt.
Proof. intros s. split; [done|]. by intros ? ? [= _ <-]. Qed.

Lemma steady_set_sce_debt d : steady (set_sce_debt d).
Proof. intros s. split; [done|]. by intros ? ? [= _ <-]. Qed.

Lemma steady_CUR_TOKEN : steady (CUR_TOKEN tokens).
Proof.
  intros s. unfold CUR_TOKEN. destruct (tokens !! id s); [|by split].
  split; [done|]. by intros ? ? [= _ <-].
Qed.

Ltac steady :=
  repeat first
    [ assumption
    | match goal with H : context [steady] |- _ => apply H end
    | apply steady_ret
    | apply steady_fault
    | apply steady_load
    | apply steady_store
    | apply steady_create_node
    | apply steady_get_sce_debt
    | apply steady_set_sce_debt
    | apply steady_CUR_TOKEN
    | apply steady_bind; [|intros ?]
    | case_decide
    | case_match ].

Lemma steady_extend_sce_chain k : ∀ p, steady (extend_sce_chain k p).
Proof. induction k as [|k IH]; intros p; simpl; unfold CR_SCE; steady. Qed.

Lemma steady_finish_cmd cmd : steady (finish_cmd cmd).
Proof.
  pose proof steady_extend_sce_chain.
  unfold finish_cmd, CR_SMC, CR_SCE. steady.
Qed.

Lemma steady_node_var_value p : steady (node_var_value p).
Proof. unfold node_var_value. steady. Qed.

Lemma steady_read_var_value tok : steady (read_var_value tok).
Proof. unfold read_var_value. steady. Qed.

Lemma steady_guard (f : Ops → bool) ty :
  steady (if decide (ty = OP) then op <- CUR_OP tokens ;; ret (f op) else ret false).
Proof. unfold CUR_OP. steady. Qed.

Lemma runs_of_steady {A} n c (m : M A) : steady m → runs tokens n c m.
Proof. intros Hm s _. apply Hm. Qed.

Lemma never_out_of_fuel_get_num s : get_num tokens s ≠ OutOfFuel.
Proof.
  unfold get_num, CUR_NUM, CUR_TOKEN, bind, ret, incr_id, CR_NUM, create_node.
  by destruct (tokens !! id s).
Qed.

Lemma runs_get_num n c : runs tokens n c (get_num tokens).
Proof. intros s _. apply never_out_of_fuel_get_num. Qed.

Lemma reads_first_get_num : reads_first tokens (get_num tokens).
Proof.
  intros s a s'. unfold get_num, CUR_NUM, CUR_TOKEN, bind.
  destruct (tokens !! id s) eqn:H; [|done]. intros _. by eapply lookup_lt_Some.
Qed.

Ltac runs_known :=
  first
    [ assumption
    | apply runs_get_num
    | match goal with
      | H : runs _ _ _ ?m |- runs _ _ _ ?m => eapply runs_weaken; [|exact H]; cbn; lia
      | H : ∀ v, runs _ _ _ (?f v) |- runs _ _ _ (?f _) =>
          eapply runs_weaken; [|apply H]; cbn; lia
      end ].

Ltac runs :=
  repeat first
    [ runs_known
    | apply runs_ret
    | apply runs_at_ret
    | apply runs_call; [assumption | assumption | solve [runs_known] | intros ?]
    | apply runs_at_call; [assumption | assumption | solve [runs_known] | intros ?]
    | apply runs_then;
        [ solve [runs_known]
        | solve [ assumption | match goal with H : context [preserves] |- _ => apply H end ]
        | intros ? ]
    | apply runs_CUR_TYPE; intros ?
    | apply runs_CUR_TOKEN; intros ?
    | apply runs_at_CUR_TYPE; intros ?
    | apply runs_at_CUR_TOKEN; intros ?
    | apply runs_at_CUR_OP; intros ?
    | apply runs_at_incr_id
    | apply runs_incr_id
    | apply runs_of_steady;
        solve [ apply steady_finish_cmd | apply steady_node_var_value
              | apply steady_read_var_value | steady ]
    | apply runs_steady;
        [ solve [ apply steady_guard | apply steady_finish_cmd | apply steady_node_var_value
                | apply steady_read_var_value | steady ] | intros ? ]
    | apply runs_at_steady;
        [ solve [ apply steady_guard | apply steady_finish_cmd | apply steady_node_var_value
                | apply steady_read_var_value | steady ] | intros ? ]
    | match goal with
      | |- runs _ _ _ (CHECK_RET ?p _) => destruct p; cbn [CHECK_RET]
      | |- runs_at _ _ _ (CHECK_RET ?p _) => destruct p; cbn [CHECK_RET]
      | |- runs _ _ _ (SYNTAX_CHECK ?b _) => destruct b; cbn [SYNTAX_CHECK]; unfold SYNTAX_ERROR
      | |- runs_at _ _ _ (SYNTAX_CHECK ?b _) =>
          destruct b; cbn [SYNTAX_CHECK]; unfold SYNTAX_ERROR
      | |- runs _ _ _ (if ?b then _ else _) => destruct b
      | |- runs_at _ _ _ (if ?b then _ else _) => destruct b
      | |- runs _ _ _ (match ?e with Finished => _ | Returned _ => _ end) => destruct e
      | |- runs _ _ _ (match ?p with Some _ => _ | None => _ end) => destruct p
      end
    | apply runs_at_runs ].

Lemma expressions_run n :
  runs tokens n 5 (get_add tokens n)
  ∧ (∀ val, runs tokens n 1 (get_add_loop tokens n val))
  ∧ runs tokens n 4 (get_mul tokens n)
  ∧ (∀ val, runs tokens n 1 (get_mul_loop tokens n val))
  ∧ runs tokens n 3 (get_pow tokens n)
  ∧ (∀ val, runs tokens n 1 (get_pow_loop tokens n val))
  ∧ runs tokens n 2 (get_par tokens n)
  ∧ runs tokens n 1 (get_id tokens n).
Proof.
  induction n as [|n (IHadd & IHaddl & IHmul & IHmull & IHpow & IHpowl & IHpar & IHid)].
  { split_and!; intros; intros s Hs; lia. }
  destruct (consumes_expressions n) as (Cadd & Cmul & Cpow & Cpar & Cid).
  destruct (reads_first_expressions n) as (Radd & Rmul & Rpow & Rpar & Rid).
  pose proof consumes_get_num as Cnum. pose proof reads_first_get_num as Rnum.
  split_and!; intros.
  - apply (runs_S n 4). cbn [get_add]. runs.
  - apply (runs_S n 0). cbn [get_add_loop]. runs.
  - apply (runs_S n 3). cbn [get_mul]. runs.
  - apply (runs_S n 0). cbn [get_mul_loop]. runs.
  - apply (runs_S n 2). cbn [get_pow]. runs.
  - apply (runs_S n 0). cbn [get_pow_loop]. runs.
  - apply (runs_S n 1). cbn [get_par]. runs.
  - apply (runs_S n 0). cbn [get_id]. unfold CR_KWD, CR_VAR. runs.
Qed.

Lemma get_ass_runs n : runs tokens n 1 (get_ass tokens n).
Proof.
  destruct (expressions_run n) as (IHadd & _ & _ & _ & _ & _ & _ & IHid).
  destruct (consumes_expressions n) as (Cadd & _ & _ & _ & Cid).
  destruct (reads_first_expressions n) as (Radd & _ & _ & _ & Rid).
  unfold get_ass, CR_ASS. runs.
Qed.

Lemma commands_run n :
  runs tokens n 3 (get_cmd tokens n)
  ∧ runs tokens n 2 (get_cond tokens n)
  ∧ (∀ cur_node, runs tokens n 4 (get_cond_loop tokens n cur_node)).
Proof.
  induction n as [|n (IHcmd & IHcond & IHloop)].
  { split_and!; intros; intros s Hs; lia. }
  destruct (expressions_run n) as (IHadd & _ & _ & _ & _ & _ & _ & IHid).
  destruct (consumes_expressions n) as (Cadd & _ & _ & _ & Cid).
  destruct (reads_first_expressions n) as (Radd & _ & _ & _ & Rid).
  destruct (consumes_commands n) as (Ccmd & Ccond).
  pose proof (reads_first_get_cmd n) as Rcmd.
  pose proof (consumes_get_ass n) as Cass. pose proof (reads_first_get_ass n) as Rass.
  pose proof (get_ass_runs n) as IHass.
  destruct (preserves_commands tokens n) as (_ & _ & Ploop).
  assert (Rcond : reads_first tokens (get_cond tokens n)).
  { destruct n; [intros s a s'; discriminate|]. simpl.
    apply reads_first_bind, reads_first_expressions. }
  split_and!; intros.
  - apply (runs_S n 2). cbn [get_cmd]. runs.
  - apply (runs_S n 1). cbn [get_cond]. unfold CR_KWD. runs.
  - apply (runs_S n 3). cbn [get_cond_loop]. runs.
Qed.

(** X2: with four units of fuel for every token left to read and five more, no
    production of commands and expressions runs out of fuel, on any token
    array: the recursion of [get_cmd] and of what it calls is bounded by the
    tokens left.  (A run that does not return has stopped at an operation
    the language leaves undefined: a token read past the end of the array,
    the name of a number or operator token, a node reached through the null
    pointer.) *)
Theorem commands_terminate (fuel : nat) (s : state) :
  4 * (length tokens - id s) + 5 ≤ fuel →
  get_cmd tokens fuel s ≠ OutOfFuel
  ∧ get_cond tokens fuel s ≠ OutOfFuel
  ∧ get_ass tokens fuel s ≠ OutOfFuel
  ∧ get_add tokens fuel s ≠ OutOfFuel
  ∧ get_mul tokens fuel s ≠ OutOfFuel
  ∧ get_pow tokens fuel s ≠ OutOfFuel
  ∧ get_par tokens fuel s ≠ OutOfFuel
  ∧ get_id tokens fuel s ≠ OutOfFuel.
Proof.
  intros Hfuel.
  destruct (expressions_run fuel) as (Hadd & _ & Hmul & _ & Hpow & _ & Hpar & Hid).
  destruct (commands_run fuel) as (Hcmd & Hcond & _).
  split_and!;
    [apply Hcmd | apply Hcond | apply get_ass_runs | apply Hadd | apply Hmul
    | apply Hpow | apply Hpar | apply Hid]; lia.
Qed.

(** ** Assignments, whatever is owed *)

Lemma extend_sce_chain_run k : ∀ h0 s,
  heap s = h0 ++ [mkNode SCE No_val NULL NULL] →
  extend_sce_chain k (Some (length h0)) s
  = Ret (Some (length h0 + k))
        (mkState (id s) (sce_debt s)
           (h0 ++ sce_links (length h0) k (mkNode SCE No_val NULL NULL))).
Proof.
  induction k as [|k IH]; intros h0 s Hs; cbn [extend_sce_chain sce_links].
  - rewrite Nat.add_0_r, <- Hs. by destruct s.
  - unfold CR_SCE, create_node. run_prim.
    erewrite run_bind;
      [|apply run_store; cbn [heap]; rewrite Hs, <- app_assoc; by apply list_lookup_middle].
    cbn [id sce_debt heap set_right type value left].
    rewrite Hs, !length_app, Nat.add_1_r. cbn [length].
    rewrite <- app_assoc, insert_app_r_alt, Nat.sub_diag by done. cbn [app insert list_insert].
    pose proof (IH (h0 ++ [mkNode SCE No_val None (Some (S (length h0)))])
                  (mkState (id s) (sce_debt s)
                     ((h0 ++ [mkNode SCE No_val None (Some (S (length h0)))])
                      ++ [mkNode SCE No_val None None])) eq_refl) as Hrun.
    rewrite length_app, Nat.add_1_r, <- !app_assoc in Hrun.
    cbn [length app id sce_debt] in Hrun.
    replace (length h0 + S k) with (S (length h0) + k) by lia. exact Hrun.
Qed.

Lemma sce_links_last k : ∀ h0 x y,
  (h0 ++ sce_links (length h0) k x) !! (length h0 + k) = Some x
  ∧ <[length h0 + k := y]> (h0 ++ sce_links (length h0) k x)
    = h0 ++ sce_links (length h0) k y.
Proof.
  induction k as [|k IH]; intros h0 x y; cbn [sce_links].
  - rewrite Nat.add_0_r. split; [by apply list_lookup_middle|].
    by rewrite insert_app_r_alt, Nat.sub_diag by done.
  - destruct (IH (h0 ++ [mkNode SCE No_val NULL (Some (S (length h0)))]) x y) as [Hl Hi].
    rewrite length_app, Nat.add_1_r, <- !app_assoc in Hl, Hi. cbn [length app] in Hl, Hi.
    replace (length h0 + S k) with (S (length h0) + k) by lia.
    split; [exact Hl|]. by rewrite Hi, <- app_assoc.
Qed.

Lemma length_sce_links k : ∀ base x, length (sce_links base k x) = S k.
Proof. induction k as [|k IH]; intros base x; cbn; [done | by rewrite IH]. Qed.

Lemma sce_links_repr k : ∀ h0 lo c tc,
  lo ≤ length h0 →
  repr_in h0 lo (length h0) c tc →
  repr_in (h0 ++ sce_links (length h0) k (mkNode SCE No_val c NULL)) lo
          (length (h0 ++ sce_links (length h0) k (mkNode SCE No_val c NULL)))
          (Some (length h0)) (sce_chain k tc).
Proof.
  induction k as [|k IH]; intros h0 lo c tc Hlo Hc; cbn [sce_links sce_chain].
  - apply repr_in_new; [done | done | constructor].
  - pose proof (IH (h0 ++ [mkNode SCE No_val NULL (Some (S (length h0)))]) lo c tc) as Hr.
    rewrite length_app, Nat.add_1_r, <- !app_assoc in Hr. cbn [length app] in Hr.
    rewrite length_app in *. cbn [length] in *. rewrite length_sce_links in *.
    apply (repr_in_node _ _ _ (length h0) (mkNode SCE No_val NULL (Some (S (length h0))))).
    + lia.
    + by apply list_lookup_middle.
    + constructor.
    + cbn [right]. eapply repr_in_weaken; [| |apply Hr]; [lia | lia | lia |].
      apply repr_in_app. eapply repr_in_weaken; [..|exact Hc]; lia.
Qed.

(** The end of both branches of [get_cmd]: a command is hung under a [SMC]
    node when nothing is owed, and at the end of a chain of as many [SCE]
    nodes as are owed otherwise; nothing is owed after it. *)
Lemma finish_cmd_run s c tc lo :
  lo ≤ length (heap s) →
  repr_in (heap s) lo (length (heap s)) (Some c) tc →
  ∃ h',
    finish_cmd (Some c) s
    = Ret (Some (length (heap s))) (mkState (id s) 0 (heap s ++ h'))
    ∧ repr_in (heap s ++ h') lo (length (heap s ++ h')) (Some (length (heap s)))
              (cmd_tree (N.to_nat (sce_debt s)) tc).
Proof.
  intros Hlo Hc. unfold finish_cmd. run_prim. case_decide as Hz.
  - exists [mkNode SMC No_val (Some c) NULL]. rewrite Hz. cbn [N.to_nat cmd_tree].
    split; [unfold CR_SMC, create_node; by rewrite Hz|].
    apply repr_in_new; [done | done | constructor].
  - destruct (N.to_nat (sce_debt s)) as [|k] eqn:Hk; [lia|].
    replace (N.to_nat (sce_debt s - 1)) with k by lia. cbn [cmd_tree].
    unfold CR_SCE, create_node. run_prim.
    erewrite run_bind; [|by apply extend_sce_chain_run].
    cbn [id sce_debt heap].
    destruct (sce_links_last k (heap s) (mkNode SCE No_val NULL NULL)
                (mkNode SCE No_val (Some c) NULL)) as [Hl Hi].
    erewrite run_bind; [|apply run_store; exact Hl].
    cbn [id sce_debt heap].
    exists (sce_links (length (heap s)) k (mkNode SCE No_val (Some c) NULL)).
    split; [|by apply sce_links_repr].
    unfold bind, set_sce_debt, ret. cbn [id sce_debt heap]. do 2 f_equal. exact Hi.
Qed.

Lemma get_ass_reads k a toks t fuel s nxt rest :
  tok_type k = VAR → tok_type a = OP → op_value a = ASS → g_add is_var toks t →
  drop (id s) tokens = k :: a :: toks ++ nxt :: rest →
  stop_add nxt = true →
  4 * length toks + 4 ≤ fuel →
  ∃ p h',
    get_ass tokens fuel s
    = Ret (Some p) (mkState (id s + (2 + length toks)) (sce_debt s) (heap s ++ h'))
    ∧ repr_in (heap s ++ h') (length (heap s)) (length (heap s ++ h')) (Some p)
              (assign_tree k t).
Proof.
  intros Hv Ha Hop Hg Hdrop Hstop Hfuel.
  assert (Hk : tok_type k ≠ KWD) by congruence.
  apply drop_lookup_head in Hdrop as [Hlk Hdrop].
  apply drop_lookup_head in Hdrop as [Hla Hdrop].
  destruct fuel as [|n]; [lia|]. unfold get_ass. cbn [get_id].
  do 3 run_prim. rewrite decide_False by done.
  unfold CR_VAR, create_node. do 2 run_prim. cbn [CHECK_RET].
  rewrite (run_guard tokens (fun op => bool_decide (op = ASS)) _
             (mkState (S (id s)) (sce_debt s)
                (heap s ++ [mkNode VAR (Var_val (var_value k)) None None])) _ Hla).
  rewrite Ha, Hop, !bool_decide_true by done. cbn [andb]. run_prim.
  destruct (g_add_reads toks t Hg (S n)
              (mkState (S (S (id s))) (sce_debt s)
                 (heap s ++ [mkNode VAR (Var_val (var_value k)) None None]))
              nxt rest Hdrop Hstop) as (p & h' & Hrun & Hp); [lia|].
  cbn [id sce_debt heap] in Hrun, Hp.
  erewrite run_bind; [|exact Hrun]. cbn [CHECK_RET].
  unfold CR_ASS, create_node. cbn [id sce_debt heap].
  exists (length ((heap s ++ [mkNode VAR (Var_val (var_value k)) None None]) ++ h')),
    ([mkNode VAR (Var_val (var_value k)) None None] ++ h'
     ++ [mkNode OP (Op_val ASS) (Some (length (heap s))) (Some p)]).
  rewrite !app_assoc. split; [do 2 f_equal; lia|].
  apply repr_in_new.
  - rewrite !length_app. lia.
  - apply repr_in_app. eapply repr_in_weaken;
      [| |apply (repr_in_new _ (length (heap s)) VAR (Var_val (var_value k))
                   None None Leaf Leaf); (lia || constructor)];
      [lia | rewrite !length_app; lia].
  - eapply repr_in_weaken; [..|exact Hp]; [rewrite length_app|]; lia.
Qed.

(** [get_cmd] on an assignment statement: the assignment is parsed, the
    semicolon consumed, and the command finished. *)
Lemma get_cmd_assign_run k a c toks t fuel s rest :
  tok_type k = VAR → tok_type a = OP → op_value a = ASS → g_add is_var toks t →
  tok_type c = SMC →
  drop (id s) tokens = k :: a :: toks ++ c :: rest →
  4 * length toks + 5 ≤ fuel →
  ∃ q h1,
    get_cmd tokens fuel s
    = finish_cmd (Some q)
        (mkState (id s + (3 + length toks)) (sce_debt s) (heap s ++ h1))
    ∧ repr_in (heap s ++ h1) (length (heap s)) (length (heap s ++ h1)) (Some q)
              (assign_tree k t).
Proof.
  intros Hv Ha Hop Hg Hc Hdrop Hfuel.
  assert (Hk : tok_type k ≠ KWD) by congruence.
  pose proof Hdrop as [Hlk _]%drop_lookup_head.
  destruct fuel as [|n]; [lia|]. cbn [get_cmd].
  run_prim. rewrite decide_False by done.
  destruct (get_ass_reads k a toks t n s c rest Hv Ha Hop Hg Hdrop)
    as (q & h1 & Hrun & Hq); [apply stop_add_closing; by rewrite Hc | lia |].
  erewrite run_bind; [|exact Hrun]. cbn [CHECK_RET].
  change (k :: a :: toks ++ c :: rest) with ([k; a] ++ toks ++ c :: rest) in Hdrop.
  rewrite app_assoc in Hdrop.
  apply drop_past, drop_lookup_head in Hdrop as [Hlc _].
  rewrite length_app in Hlc. cbn [length] in Hlc.
  assert (Hlc' : tokens !! id (mkState (id s + (2 + length toks)) (sce_debt s) (heap s ++ h1))
                 = Some c) by exact Hlc.
  rewrite (run_bind _ _ _ _ _ (run_CUR_TYPE tokens _ _ Hlc')).
  rewrite Hc, decide_True by done. run_prim.
  exists q, h1. split; [|exact Hq]. do 2 f_equal. lia.
Qed.

(** X9: an assignment statement [x = e ;], with an identifier for its target,
    any sentence of the expression grammar whose variables are identifiers
    for [e], and any debt: [get_cmd] consumes it to the semicolon and
    returns the assignment under a [SMC] node when nothing is owed, and at
    the end of a chain of as many [SCE] nodes as closures are owed
    otherwise; the debt is zero after it. *)
Theorem assignment_parsed (k a c : Token) (toks : list Token) (t : tree)
    (fuel : nat) (s : state) (rest : list Token) :
  tok_type k = VAR → tok_type a = OP → op_value a = ASS →
  g_add is_var toks t →
  tok_type c = SMC →
  drop (id s) tokens = k :: a :: toks ++ c :: rest →
  4 * length toks + 5 ≤ fuel →
  ∃ p h',
    get_cmd tokens fuel s
    = Ret (Some p) (mkState (id s + (3 + length toks)) 0 (heap s ++ h'))
    ∧ repr_in (heap s ++ h') (length (heap s)) (length (heap s ++ h')) (Some p)
              (cmd_tree (N.to_nat (sce_debt s)) (assign_tree k t)).
Proof.
  intros Hk Ha Hop Hg Hc Hdrop Hfuel.
  destruct (get_cmd_assign_run k a c toks t fuel s rest Hk Ha Hop Hg Hc Hdrop Hfuel)
    as (q & h1 & Hrun & Hq).
  destruct (finish_cmd_run
              (mkState (id s + (3 + length toks)) (sce_debt s) (heap s ++ h1))
              q (assign_tree k t) (length (heap s))) as (h2 & Hfin & Hp).
  { cbn [heap]. rewrite length_app. lia. }
  { exact Hq. }
  cbn [id sce_debt heap] in Hfin, Hp.
  exists (length (heap s ++ h1)), (h1 ++ h2). rewrite !app_assoc.
  split; [by rewrite Hrun | exact Hp].
Qed.

(** ** Statements *)

Lemma repr_in_ext h h' lo hi p t :
  (∀ a, lo ≤ a < hi → h' !! a = h !! a) →
  repr_in h lo hi p t → repr_in h' lo hi p t.
Proof.
  intros Hsame. induction 1 as [|a n tl tr Ha Hn _ IH1 _ IH2]; [constructor|].
  econstructor; [done| |done..]. by rewrite Hsame.
Qed.

Lemma heap_grown (h h' : list B_tree_node) :
  length h ≤ length h' → (∀ a, a < length h → h' !! a = h !! a) →
  h' = h ++ drop (length h) h'.
Proof.
  intros Hlen Hsame. rewrite <- (take_drop (length h) h') at 1. f_equal.
  apply list_eq. intros a. destruct (decide (a < length h)) as [Hlt|Hge].
  - rewrite lookup_take_lt by done. by apply Hsame.
  - rewrite lookup_take_ge, lookup_ge_None_2 by lia. done.
Qed.

Lemma head_type_lookup s toks rest :
  drop (id s) tokens = toks ++ rest → toks ≠ [] →
  ∃ k, tokens !! id s = Some k ∧ head_type toks = Some (tok_type k).
Proof.
  intros Hdrop Hne. destruct toks as [|k toks]; [done|].
  apply drop_lookup_head in Hdrop as [Hl _]. by exists k.
Qed.

Lemma get_cond_loop_closed n cur s c :
  tokens !! id s = Some c → tok_type c = CCBR →
  get_cond_loop tokens (S n) cur s = Ret Finished s.
Proof.
  intros Hl Hc. cbn [get_cond_loop]. run_prim. by rewrite Hc, decide_True.
Qed.

(** The head of a condition: the keyword, and the expression in
    parentheses. *)
Lemma get_cond_head k o toks t c more m s :
  tok_type k = KWD →
  IS_KWD (var_value k) "while" || IS_KWD (var_value k) "if" = true →
  tok_type o = OBR → g_add is_var toks t → tok_type c = CBR →
  drop (id s) tokens = k :: o :: toks ++ c :: more →
  4 * length toks + 4 ≤ m →
  ∃ p h',
    repr_in (heap s ++ h') (length (heap s)) (length (heap s ++ h')) (Some p) t
    ∧ get_cond tokens (S m) s
      = (ty <- CUR_TYPE tokens ;;
         if decide (ty = OCBR) then
           incr_id ;;
           root <- get_cmd tokens m ;;
           e <- get_cond_loop tokens m root ;;
           match e with
           | Returned p' => ret p'
           | Finished => incr_id ;; CR_KWD (var_value k) (Some p) root
           end
         else
           cmd <- get_cmd tokens m ;;
           CHECK_RET cmd (CR_KWD (var_value k) (Some p) cmd))
          (mkState (id s + (3 + length toks)) (sce_debt s) (heap s ++ h')).
Proof.
  intros Hk Hname Ho Hg Hc Hdrop Hfuel.
  apply drop_lookup_head in Hdrop as [Hlk Hdrop].
  apply drop_lookup_head in Hdrop as [Hlo Hdrop].
  destruct m as [|m']; [lia|]. cbn [get_cond get_id].
  do 3 run_prim. rewrite Hk, decide_True by done. run_prim.
  rewrite Hname. cbn [negb]. unfold CR_KWD at 1, create_node at 1. run_prim.
  cbn [CHECK_RET]. unfold node_var_value. rewrite bind_assoc.
  erewrite run_bind; [|apply run_load; cbn [heap]; by apply list_lookup_middle].
  cbn [value]. run_prim. rewrite Hname. cbn [SYNTAX_CHECK].
  run_prim. rewrite Ho, decide_True by done. run_prim.
  destruct (g_add_reads toks t Hg (S m')
              (mkState (S (S (id s))) (sce_debt s)
                 (heap s ++ [mkNode KWD (Var_val (var_value k)) None None]))
              c more Hdrop) as (p & he & Hrun & Hp);
    [apply stop_add_closing; by rewrite Hc | lia |].
  cbn [id sce_debt heap] in Hrun, Hp.
  erewrite run_bind; [|exact Hrun]. cbn [CHECK_RET].
  apply drop_past, drop_lookup_head in Hdrop as [Hlc _].
  assert (Hlc' : tokens !! id (mkState (S (S (id s)) + length toks) (sce_debt s)
                   ((heap s ++ [mkNode KWD (Var_val (var_value k)) None None]) ++ he))
                 = Some c) by exact Hlc.
  rewrite (run_bind _ _ _ _ _ (run_CUR_TYPE tokens _ _ Hlc')).
  rewrite Hc, decide_True by done. run_prim.
  exists p, ([mkNode KWD (Var_val (var_value k)) None None] ++ he).
  rewrite !app_assoc. split.
  - eapply repr_in_weaken; [..|exact Hp]; [rewrite length_app; lia | lia].
  - replace (S (S (S (id s)) + length toks)) with (id s + (3 + length toks)) by lia.
    reflexivity.
Qed.

Lemma bind_eq {A B} (m m' : M A) (k : A → M B) s s' :
  m s = m' s' → bind m k s = bind m' k s'.
Proof. intros H. unfold bind. by rewrite H. Qed.

(** A command finished when nothing is owed. *)
Lemma finish_cmd_SMC c s :
  sce_debt s = 0%N →
  finish_cmd c s
  = Ret (Some (length (heap s)))
        (mkState (id s) 0 (heap s ++ [mkNode SMC No_val c NULL])).
Proof.
  intros Hd. unfold finish_cmd. run_prim. rewrite Hd, decide_True by done.
  unfold CR_SMC, create_node. by rewrite Hd.
Qed.

Ltac learn_length a b :=
  lazymatch goal with
  | H : length (a ++ b) = length a + length b |- _ => fail
  | _ => pose proof (length_app a b)
  end.

(** Arithmetic over the lengths of stores. *)
Ltac learn_lengths :=
  repeat match goal with
         | |- context [length (?a ++ ?b)] => learn_length a b
         | H : context [length (?a ++ ?b)] |- _ => learn_length a b
         end.

Ltac lens :=
  learn_lengths; rewrite ?length_insert in *; learn_lengths;
  cbn [length] in *; lia.

Lemma g_statements_parsed :
  (∀ toks t, g_cmd is_var toks t → cmd_reads tokens toks t)
  ∧ (∀ toks t, g_cmds is_var toks t →
       toks ≠ [] ∧ body_reads tokens toks t ∧ loop_reads tokens toks t).
Proof.
  apply g_cmd_mutind.
  - (* an assignment *)
    intros k a toks t c _ Hk Ha Hop Hg Hc. split; [done|].
    exists (assign_tree k t). split; [done|].
    intros fuel s rest Hdrop Hdebt Hfuel.
    cbn [length] in Hfuel. rewrite length_app in Hfuel. cbn [length] in Hfuel.
    cbn [app] in Hdrop. rewrite <- app_assoc in Hdrop. cbn [app] in Hdrop.
    destruct (get_cmd_assign_run k a c toks t fuel s rest Hk Ha Hop Hg Hc Hdrop)
      as (q & h1 & Hrun & Hq); [lia|].
    exists q, h1. split; [|exact Hq].
    rewrite Hrun, finish_cmd_SMC by done. cbn [id heap].
    do 2 f_equal. cbn [length]. rewrite length_app. cbn [length]. lia.
  - (* a condition and one command *)
    intros k o toks t c body tb Hk Hname Ho Hg Hc Hhead _ (Hne & xb & -> & Hb).
    split; [done|]. eexists. split; [reflexivity|].
    intros fuel s rest Hdrop Hdebt Hfuel.
    cbn [length] in Hfuel. rewrite length_app in Hfuel. cbn [length] in Hfuel.
    cbn [app] in Hdrop. rewrite <- app_assoc in Hdrop. cbn [app] in Hdrop.
    pose proof Hdrop as [Hlk Hdrop1]%drop_lookup_head.
    apply drop_lookup_head in Hdrop1 as [_ Hdrop1].
    apply drop_past, drop_lookup_head in Hdrop1 as [_ Hdropb].
    replace (S (S (S (id s)) + length toks)) with (id s + (3 + length toks)) in Hdropb by lia.
    destruct fuel as [|[|m]]; [lia..|]. cbn [get_cmd].
    run_prim. rewrite Hk, decide_True by done.
    destruct (get_cond_head k o toks t c (body ++ rest) m s Hk Hname Ho Hg Hc Hdrop)
      as (p & he & Hp & Hrun); [lia|].
    rewrite (bind_eq _ _ _ _ _ Hrun), !bind_assoc.
    set (s2 := mkState (id s + (3 + length toks)) (sce_debt s) (heap s ++ he)) in *.
    destruct (head_type_lookup s2 body rest Hdropb Hne) as (kb & Hlkb & Hht).
    rewrite (run_bind _ _ _ _ _ (run_CUR_TYPE tokens _ _ Hlkb)).
    rewrite decide_False by (intros Heq; apply Hhead; by rewrite Hht, Heq).
    destruct (Hb m s2 rest Hdropb Hdebt) as (qb & hb & Hrunb & Hqb); [lia|].
    rewrite bind_assoc. erewrite run_bind; [|exact Hrunb]. cbn [CHECK_RET].
    unfold CR_KWD, create_node. run_prim. cbn [CHECK_RET].
    rewrite finish_cmd_SMC by done. cbn [id heap]. subst s2. cbn [id sce_debt heap] in *.
    exists (length (((heap s ++ he) ++ hb) ++ [mkNode SMC No_val (Some qb) None])),
      (he ++ hb ++ [mkNode SMC No_val (Some qb) None]
       ++ [mkNode KWD (Var_val (var_value k)) (Some p)
             (Some (length ((heap s ++ he) ++ hb)))]).
    rewrite !app_assoc. split.
    + do 2 f_equal. cbn [length]. rewrite length_app. cbn [length]. lia.
    + apply repr_in_new.
      * rewrite !length_app. lia.
      * do 2 apply repr_in_app. eapply repr_in_weaken; [..|exact Hp];
          [lia | rewrite !length_app; lia].
      * eapply repr_in_weaken;
          [| |apply (repr_in_new _ (length (heap s)) SMC No_val (Some qb) None xb Leaf)];
          [lia | lia | rewrite !length_app; lia | | constructor].
        eapply repr_in_weaken; [..|exact Hqb]; [rewrite length_app; lia | lia].
  - (* a condition and a body in braces *)
    intros k o toks t c ob body tb cb Hk Hname Ho Hg Hc Hob _ (Hne & Hbody & _) Hcb.
    split; [done|]. eexists. split; [reflexivity|].
    intros fuel s rest Hdrop Hdebt Hfuel.
    cbn [length] in Hfuel. rewrite !length_app in Hfuel. cbn [length] in Hfuel.
    rewrite length_app in Hfuel. cbn [length] in Hfuel.
    cbn [app] in Hdrop. rewrite <- !app_assoc in Hdrop. cbn [app] in Hdrop.
    rewrite <- !app_assoc in Hdrop. cbn [app] in Hdrop.
    pose proof Hdrop as [Hlk Hdrop1]%drop_lookup_head.
    apply drop_lookup_head in Hdrop1 as [_ Hdrop1].
    apply drop_past, drop_lookup_head in Hdrop1 as [_ Hdropb].
    replace (S (S (S (id s)) + length toks)) with (id s + (3 + length toks)) in Hdropb by lia.
    apply drop_lookup_head in Hdropb as [Hlob Hdropb].
    destruct fuel as [|[|m]]; [lia..|]. cbn [get_cmd].
    run_prim. rewrite Hk, decide_True by done.
    destruct (get_cond_head k o toks t c (ob :: body ++ cb :: rest) m s Hk Hname Ho Hg Hc Hdrop)
      as (p & he & Hp & Hrun); [lia|].
    rewrite (bind_eq _ _ _ _ _ Hrun), !bind_assoc.
    assert (Hlob' : tokens !! id (mkState (id s + (3 + length toks)) (sce_debt s) (heap s ++ he))
                    = Some ob) by exact Hlob.
    rewrite (run_bind _ _ _ _ _ (run_CUR_TYPE tokens _ _ Hlob')).
    rewrite Hob, decide_True by done. run_prim.
    destruct (Hbody m (mkState (S (id s + (3 + length toks))) (sce_debt s) (heap s ++ he))
                cb rest Hdropb Hcb Hdebt) as (root & s1 & hb & Hrun1 & Hrun2 & Hroot); [lia|].
    cbn [id sce_debt heap] in Hrun2, Hroot.
    rewrite bind_assoc. erewrite run_bind; [|exact Hrun1].
    rewrite bind_assoc. erewrite run_bind; [|exact Hrun2].
    unfold CR_KWD, create_node. do 2 run_prim. cbn [CHECK_RET].
    rewrite finish_cmd_SMC by done. cbn [id heap].
    exists (length ((heap s ++ he) ++ hb)),
      (he ++ hb ++ [mkNode KWD (Var_val (var_value k)) (Some p) (Some root)]).
    rewrite !app_assoc. split.
    + do 2 f_equal. cbn [length]. rewrite !length_app. cbn [length].
      rewrite length_app. cbn [length]. lia.
    + apply repr_in_new.
      * rewrite !length_app. lia.
      * apply repr_in_app. eapply repr_in_weaken; [..|exact Hp];
          [lia | rewrite !length_app; lia].
      * eapply repr_in_weaken; [..|exact Hroot]; [rewrite length_app; lia | lia].
  - (* the last command of a body *)
    intros toks t _ (Hne & x & -> & Hcmd). split; [done|]. split.
    + intros fuel s c rest Hdrop Hc Hdebt Hfuel.
      destruct (Hcmd fuel s (c :: rest) Hdrop Hdebt) as (q & h' & Hrun & Hq); [lia|].
      eexists _, _, (h' ++ [mkNode SMC No_val (Some q) NULL]).
      split; [exact Hrun|]. rewrite app_assoc.
      apply drop_past, drop_lookup_head in Hdrop as [Hlc _].
      destruct fuel as [|n]; [lia|]. split.
      * by apply get_cond_loop_closed with (c := c).
      * apply repr_in_new; [rewrite length_app; lia | exact Hq | constructor].
    + intros fuel s cur ncur c rest Hcur Hdrop Hc Hhead Hdebt Hfuel.
      destruct (head_type_lookup s toks (c :: rest) Hdrop Hne) as (kb & Hlkb & Hht).
      destruct fuel as [|n]; [lia|]. cbn [get_cond_loop].
      run_prim. rewrite decide_False by (intros Heq; apply Hhead; by rewrite Hht, Heq).
      destruct (Hcmd n s (c :: rest) Hdrop Hdebt) as (q & h' & Hrun & Hq); [lia|].
      erewrite run_bind; [|exact Hrun].
      pose proof (lookup_lt_Some _ _ _ Hcur) as Hlt.
      erewrite run_bind;
        [|apply run_store; cbn [heap]; by do 2 apply lookup_app_l_Some].
      cbn [id sce_debt heap].
      apply drop_past, drop_lookup_head in Hdrop as [Hlc _].
      destruct n as [|n]; [lia|].
      rewrite get_cond_loop_closed with (c := c) by done.
      eexists _, _. split; [reflexivity|]. cbn [id sce_debt heap].
      split_and!; [done | done | rewrite length_insert, !length_app; lia | | |].
      * intros a Ha Hne'. rewrite list_lookup_insert_ne by done.
        rewrite <- app_assoc. by rewrite lookup_app_l.
      * rewrite list_lookup_insert_eq by (rewrite !length_app; lia). done.
      * rewrite length_insert. apply repr_in_insert; [lia|].
        apply repr_in_new; [rewrite length_app; lia | exact Hq | constructor].
  - (* a command and more *)
    intros toks1 x toks2 t2 _ (Hne1 & x' & Heq & Hcmd) Hhead _ (Hne2 & _ & Hloop).
    injection Heq as <-.
    assert (1 ≤ length toks1) by (destruct toks1; [done | simpl; lia]).
    assert (1 ≤ length toks2) by (destruct toks2; [done | simpl; lia]).
    split; [by destruct toks1|]. split.
    + intros fuel s c rest Hdrop Hc Hdebt Hfuel.
      rewrite length_app in Hfuel. rewrite <- app_assoc in Hdrop.
      destruct (Hcmd fuel s (toks2 ++ c :: rest) Hdrop Hdebt) as (q & h1 & Hrun1 & Hq); [lia|].
      apply drop_past in Hdrop.
      destruct (Hloop fuel
                  (mkState (id s + length toks1) 0
                     ((heap s ++ h1) ++ [mkNode SMC No_val (Some q) NULL]))
                  (length (heap s ++ h1)) (mkNode SMC No_val (Some q) NULL) c rest)
        as (r2 & s' & Hrun2 & Hid & Hdebt' & Hlen & Hsame & Hroot & Hr2);
        [by apply list_lookup_middle | exact Hdrop | done | done | done | lia |].
      cbn [id sce_debt heap] in *.
      assert (Hgrown : heap s' = heap s ++ drop (length (heap s)) (heap s')).
      { apply heap_grown; [lens|]. intros a Ha.
        rewrite Hsame by lens. rewrite <- app_assoc. by rewrite lookup_app_l. }
      eexists _, _, (drop (length (heap s)) (heap s')). split; [exact Hrun1|].
      rewrite <- Hgrown. split.
      * rewrite Hrun2. f_equal. destruct s'. cbn [id sce_debt heap] in *.
        f_equal; [rewrite length_app; lia | done].
      * apply (repr_in_node _ _ _ _ (set_right (mkNode SMC No_val (Some q) NULL) (Some r2)));
          [lens | exact Hroot | |].
        -- cbn [set_right left]. eapply repr_in_weaken;
             [| |eapply (repr_in_ext (heap s ++ h1)); [|exact Hq]]; [lia | lens |].
           intros a Ha. rewrite Hsame by lens. by rewrite lookup_app_l by lens.
        -- cbn [set_right right]. eapply repr_in_weaken; [..|exact Hr2]; lens.
    + intros fuel s cur ncur c rest Hcur Hdrop Hc Hhead1 Hdebt Hfuel.
      rewrite length_app in Hfuel. rewrite <- app_assoc in Hdrop.
      destruct (head_type_lookup s toks1 (toks2 ++ c :: rest) Hdrop Hne1) as (kb & Hlkb & Hht).
      assert (Hkb : tok_type kb ≠ CCBR).
      { intros Heq. apply Hhead1. destruct toks1 as [|k1 toks1]; [done|].
        cbn in Hht |- *. congruence. }
      destruct fuel as [|n]; [lia|]. cbn [get_cond_loop].
      run_prim. rewrite decide_False by done.
      destruct (Hcmd n s (toks2 ++ c :: rest) Hdrop Hdebt) as (q & h1 & Hrun1 & Hq); [lia|].
      erewrite run_bind; [|exact Hrun1].
      pose proof (lookup_lt_Some _ _ _ Hcur) as Hlt.
      erewrite run_bind;
        [|apply run_store; cbn [heap]; by do 2 apply lookup_app_l_Some].
      cbn [id sce_debt heap].
      apply drop_past in Hdrop.
      destruct (Hloop n
                  (mkState (id s + length toks1) 0
                     (<[cur := set_right ncur (Some (length (heap s ++ h1)))]>
                        ((heap s ++ h1) ++ [mkNode SMC No_val (Some q) NULL])))
                  (length (heap s ++ h1)) (mkNode SMC No_val (Some q) NULL) c rest)
        as (r2 & s' & Hrun2 & Hid & Hdebt' & Hlen & Hsame & Hroot & Hr2);
        [ cbn [heap]; rewrite list_lookup_insert_ne by lens;
          by apply list_lookup_middle
        | exact Hdrop | done | done | done | lia |].
      cbn [id sce_debt heap] in *.
      exists (length (heap s ++ h1)), s'.
      split_and!; [exact Hrun2 | rewrite length_app; lia | done | lens | | |].
      * intros a Ha Hne'. rewrite Hsame by lens.
        rewrite list_lookup_insert_ne by done.
        rewrite <- app_assoc. by rewrite lookup_app_l.
      * rewrite Hsame by lens.
        rewrite list_lookup_insert_eq by lens. done.
      * apply (repr_in_node _ _ _ _ (set_right (mkNode SMC No_val (Some q) NULL) (Some r2)));
          [lens | exact Hroot | |].
        -- cbn [set_right left]. eapply repr_in_weaken;
             [| |eapply (repr_in_ext (heap s ++ h1)); [|exact Hq]]; [lia | lens |].
           intros a Ha. rewrite Hsame by lens.
           rewrite list_lookup_insert_ne by lens.
           by rewrite lookup_app_l by lens.
        -- cbn [set_right right]. eapply repr_in_weaken; [..|exact Hr2]; lens.
Qed.

Lemma g_cmd_reads toks t : g_cmd is_var toks t → cmd_reads tokens toks t.
Proof. apply g_statements_parsed. Qed.

(** X10: every statement of the grammar (an assignment to an identifier, or
    [while] or [if] with one command or a braced sequence of commands for
    its body, nested to any depth; the variables are identifiers) is consumed to its end by [get_cmd] when nothing is owed at its
    start, and the tree returned is the tree of the statement, built from
    new nodes: a [SMC] node over the command, the commands of a braced body
    linked by [right] in the order of the text.  Nothing is owed after
    it. *)
Theorem statement_parsed (toks : list Token) (t : tree) (fuel : nat) (s : state)
    (rest : list Token) :
  g_cmd is_var toks t →
  drop (id s) tokens = toks ++ rest →
  sce_debt s = 0%N →
  4 * length toks + 6 ≤ fuel →
  ∃ p h',
    get_cmd tokens fuel s
    = Ret (Some p) (mkState (id s + length toks) 0 (heap s ++ h'))
    ∧ repr_in (heap s ++ h') (length (heap s)) (length (heap s ++ h')) (Some p) t.
Proof.
  intros (_ & x & -> & Hcmd)%g_cmd_reads Hdrop Hdebt Hfuel.
  destruct (Hcmd fuel s rest Hdrop Hdebt Hfuel) as (q & h' & Hrun & Hq).
  exists (length (heap s ++ h')), (h' ++ [mkNode SMC No_val (Some q) NULL]).
  rewrite app_assoc. split; [exact Hrun|].
  apply repr_in_new; [rewrite length_app; lia | exact Hq | constructor].
Qed.

(** ** Blocks of statements *)

Lemma g_stmts_nonempty toks t : g_stmts is_var toks t → toks ≠ [].
Proof.
  induction 1 as [toks t _ (Hne & _)%g_cmd_reads
                 |toks1 x toks2 t2 _ (Hne & _)%g_cmd_reads _ _ _]; [done|].
  by destruct toks1.
Qed.

Lemma g_stmts_head toks t : g_stmts is_var toks t → head_type toks ≠ Some OCBR.
Proof.
  induction 1 as [toks t Hh _|toks1 x toks2 t2 Hh (Hne & _)%g_cmd_reads _ _ _]; [done|].
  by destruct toks1.
Qed.

Lemma g_stmts_root toks t : g_stmts is_var toks t → ∃ x r, t = Node SMC No_val x r.
Proof.
  induction 1 as [toks t _ (_ & x & -> & _)%g_cmd_reads|]; eauto.
Qed.

(** A statement where [get_scope] is asked for a scope. *)
Lemma get_scope_statement toks x fuel s rest :
  head_type toks ≠ Some OCBR → g_cmd is_var toks (Node SMC No_val x Leaf) →
  drop (id s) tokens = toks ++ rest →
  sce_debt s = 0%N →
  4 * length toks + 7 ≤ fuel →
  ∃ q h',
    get_scope tokens fuel s
    = Ret (Some (length (heap s ++ h')))
          (mkState (id s + length toks) 0
             ((heap s ++ h') ++ [mkNode SMC No_val (Some q) NULL]))
    ∧ repr_in (heap s ++ h') (length (heap s)) (length (heap s ++ h')) (Some q) x.
Proof.
  intros Hh (Hne & x' & Heq & Hcmd)%g_cmd_reads Hdrop Hdebt Hfuel.
  injection Heq as <-.
  destruct (head_type_lookup s toks rest Hdrop Hne) as (kb & Hlkb & Hht).
  destruct fuel as [|n]; [lia|].
  destruct (Hcmd n s rest Hdrop Hdebt) as (q & h' & Hrun & Hq); [lia|].
  exists q, h'. split; [|exact Hq].
  eapply get_scope_cmd; [exact Hlkb | | exact Hrun].
  intros Heq. apply Hh. by rewrite Hht, Heq.
Qed.

Lemma get_scope_end_last m s cur ncur :
  heap s !! cur = Some ncur → right ncur = NULL → 1 ≤ m →
  get_scope_end m (Some cur) s = Ret (Some cur) s.
Proof.
  intros Hcur Hr Hm. destruct m as [|n]; [lia|]. cbn [get_scope_end scope_end_loop].
  erewrite run_bind; [|apply run_load; exact Hcur]. by rewrite Hr.
Qed.

(** One turn of the loop of [get_scope] at a node that ends its chain, when
    the scope asked for is a statement: the statement is hung to the right
    of the node, and the loop goes on at the node of the statement. *)
Lemma get_scope_loop_turn toks x m s cur ncur rest :
  head_type toks ≠ Some OCBR → g_cmd is_var toks (Node SMC No_val x Leaf) →
  heap s !! cur = Some ncur → right ncur = NULL →
  drop (id s) tokens = toks ++ rest →
  head_type toks ≠ Some CCBR →
  sce_debt s = 0%N →
  4 * length toks + 7 ≤ m →
  ∃ q h',
    get_scope_loop tokens (S m) (Some cur) s
    = get_scope_loop tokens m (Some (length (heap s ++ h')))
        (mkState (id s + length toks) 0
           (<[cur := set_right ncur (Some (length (heap s ++ h')))]>
              ((heap s ++ h') ++ [mkNode SMC No_val (Some q) NULL])))
    ∧ repr_in (heap s ++ h') (length (heap s)) (length (heap s ++ h')) (Some q) x.
Proof.
  intros Hh Hg Hcur Hr Hdrop Hhead Hdebt Hfuel.
  pose proof Hg as (Hne & _)%g_cmd_reads.
  destruct (head_type_lookup s toks rest Hdrop Hne) as (kb & Hlkb & Hht).
  cbn [get_scope_loop].
  run_prim. rewrite decide_False by (intros Heq; apply Hhead; by rewrite Hht, Heq).
  erewrite run_bind; [|apply (get_scope_end_last m s cur ncur Hcur Hr); lia].
  destruct (get_scope_statement toks x m s rest Hh Hg Hdrop Hdebt)
    as (q & h' & Hrun & Hq); [lia|].
  erewrite run_bind; [|exact Hrun].
  pose proof (lookup_lt_Some _ _ _ Hcur) as Hlt.
  erewrite run_bind;
    [|apply run_store; cbn [heap]; by do 2 apply lookup_app_l_Some].
  cbn [id sce_debt heap].
  erewrite run_bind; [|apply run_load; cbn [heap]; apply list_lookup_insert_eq; lens].
  cbn [set_right right]. by exists q, h'.
Qed.

(** The loop of [get_scope] over the statements of a block: one turn for each
    statement, after which the loop is at the node of the last one. *)
Lemma get_scope_loop_turns toks t :
  g_stmts is_var toks t →
  ∀ fuel s cur ncur rest,
    heap s !! cur = Some ncur → right ncur = NULL →
    drop (id s) tokens = toks ++ rest →
    head_type toks ≠ Some CCBR →
    sce_debt s = 0%N →
    4 * length toks + 8 ≤ fuel →
    ∃ root last nlast s' fuel',
      get_scope_loop tokens fuel (Some cur) s
      = get_scope_loop tokens fuel' (Some last) s'
      ∧ fuel ≤ fuel' + length toks
      ∧ heap s' !! last = Some nlast ∧ right nlast = NULL
      ∧ length (heap s) ≤ last
      ∧ id s' = id s + length toks
      ∧ sce_debt s' = 0%N
      ∧ length (heap s) ≤ length (heap s')
      ∧ (∀ a, a < length (heap s) → a ≠ cur → heap s' !! a = heap s !! a)
      ∧ heap s' !! cur = Some (set_right ncur (Some root))
      ∧ repr_in (heap s') (length (heap s)) (length (heap s')) (Some root) t.
Proof.
  induction 1 as [toks t Hh Hg|toks1 x toks2 t2 Hh Hg Hh2 Hrest IH];
    intros fuel s cur ncur rest Hcur Hr Hdrop Hhead Hdebt Hfuel.
  - pose proof Hg as (Hne & x & -> & _)%g_cmd_reads.
    assert (1 ≤ length toks) by (destruct toks; [done | simpl; lia]).
    pose proof (lookup_lt_Some _ _ _ Hcur) as Hlt.
    destruct fuel as [|m]; [lia|].
    destruct (get_scope_loop_turn toks x m s cur ncur rest Hh Hg Hcur Hr Hdrop Hhead Hdebt)
      as (q & h' & Hrun & Hq); [lia|].
    eexists _, _, (mkNode SMC No_val (Some q) NULL), _, _.
    split; [exact Hrun|]. cbn [id sce_debt heap].
    split_and!; [lia | | done | lens | done | done | lens | | |].
    + rewrite list_lookup_insert_ne by lens. by apply list_lookup_middle.
    + intros a Ha Hne'. rewrite list_lookup_insert_ne by done.
      rewrite <- app_assoc. by rewrite lookup_app_l.
    + rewrite list_lookup_insert_eq by lens. done.
    + rewrite length_insert. apply repr_in_insert; [lia|].
      apply repr_in_new; [rewrite length_app; lia | exact Hq | constructor].
  - pose proof Hg as (Hne1 & _)%g_cmd_reads.
    assert (1 ≤ length toks1) by (destruct toks1; [done | simpl; lia]).
    rewrite length_app in Hfuel. rewrite <- app_assoc in Hdrop.
    assert (Hhead1 : head_type toks1 ≠ Some CCBR).
    { intros Heq. apply Hhead. by destruct toks1. }
    pose proof (lookup_lt_Some _ _ _ Hcur) as Hlt.
    destruct fuel as [|m]; [lia|].
    destruct (get_scope_loop_turn toks1 x m s cur ncur (toks2 ++ rest)
                Hh Hg Hcur Hr Hdrop Hhead1 Hdebt) as (q & h1 & Hrun1 & Hq); [lia|].
    apply drop_past in Hdrop.
    destruct (IH m
                (mkState (id s + length toks1) 0
                   (<[cur := set_right ncur (Some (length (heap s ++ h1)))]>
                      ((heap s ++ h1) ++ [mkNode SMC No_val (Some q) NULL])))
                (length (heap s ++ h1)) (mkNode SMC No_val (Some q) NULL) rest)
      as (r2 & last & nlast & s' & fuel' & Hrun2 & Hfuel' & Hlast & Hrl & Hlastlo
          & Hid & Hdebt' & Hlen & Hsame & Hroot & Hr2);
      [ cbn [heap]; rewrite list_lookup_insert_ne by lens;
        by apply list_lookup_middle
      | done | exact Hdrop | done | done | lia |].
    cbn [id sce_debt heap] in *.
    exists (length (heap s ++ h1)), last, nlast, s', fuel'.
    split_and!; [by rewrite Hrun1 | rewrite length_app; lia | done | done | lens
                | rewrite length_app; lia | done | lens | | |].
    + intros a Ha Hne'. rewrite Hsame by lens.
      rewrite list_lookup_insert_ne by done.
      rewrite <- app_assoc. by rewrite lookup_app_l.
    + rewrite Hsame by lens.
      rewrite list_lookup_insert_eq by lens. done.
    + apply (repr_in_node _ _ _ _ (set_right (mkNode SMC No_val (Some q) NULL) (Some r2)));
        [lens | exact Hroot | |].
      * cbn [set_right left]. eapply repr_in_weaken;
          [| |eapply (repr_in_ext (heap s ++ h1)); [|exact Hq]]; [lia | lens |].
        intros a Ha. rewrite Hsame by lens.
        rewrite list_lookup_insert_ne by lens.
        by rewrite lookup_app_l by lens.
      * cbn [set_right right]. eapply repr_in_weaken; [..|exact Hr2]; lens.
Qed.

(** The body of a block: [get_scope] returns the first statement, and its
    loop takes the others; it is then at the node [last] of the last
    statement, and the statements hang from the node [r] of the first. *)
Lemma block_body_run body t :
  g_stmts is_var body t →
  ∀ n s rest,
    drop (id s) tokens = body ++ rest →
    sce_debt s = 0%N →
    4 * length body + 8 ≤ n →
    ∃ r s1 nr x rt last nlast s2 fuel2,
      get_scope tokens n s = Ret (Some r) s1
      ∧ get_scope_loop tokens n (Some r) s1 = get_scope_loop tokens fuel2 (Some last) s2
      ∧ n ≤ fuel2 + length body
      ∧ t = Node SMC No_val x rt
      ∧ id s2 = id s + length body
      ∧ sce_debt s2 = 0%N
      ∧ length (heap s) ≤ r
      ∧ length (heap s) ≤ length (heap s2)
      ∧ (∀ a, a < length (heap s) → heap s2 !! a = heap s !! a)
      ∧ heap s2 !! r = Some nr ∧ type nr = SMC ∧ value nr = No_val
      ∧ repr_in (heap s2) (length (heap s)) r (left nr) x
      ∧ repr_in (heap s2) (S r) (length (heap s2)) (right nr) rt
      ∧ heap s2 !! last = Some nlast ∧ right nlast = NULL.
Proof.
  intros Hbody n s rest Hdrop Hdebt Hfuel.
  destruct Hbody as [toks t Hh Hg|toks1 x toks2 t2 Hh Hg Hh2 Hrest].
  - pose proof Hg as (_ & x & -> & _)%g_cmd_reads.
    destruct (get_scope_statement toks x n s rest Hh Hg Hdrop Hdebt)
      as (q & h1 & Hrun1 & Hq); [lia|].
    eexists _, _, (mkNode SMC No_val (Some q) NULL), x, Leaf, _,
      (mkNode SMC No_val (Some q) NULL), _, n.
    split; [exact Hrun1|]. split; [reflexivity|]. cbn [id sce_debt heap].
    split_and!; [lia | done | done | done | lens | lens | | | done | done | | | | done].
    + intros a Ha. rewrite <- app_assoc. by rewrite lookup_app_l.
    + by apply list_lookup_middle.
    + cbn [left]. by apply repr_in_app.
    + constructor.
    + by apply list_lookup_middle.
  - pose proof Hg as (Hne1 & _)%g_cmd_reads.
    assert (1 ≤ length toks1) by (destruct toks1; [done | simpl; lia]).
    rewrite length_app in Hfuel. rewrite <- app_assoc in Hdrop.
    destruct (get_scope_statement toks1 x n s (toks2 ++ rest) Hh Hg Hdrop Hdebt)
      as (q & h1 & Hrun1 & Hq); [lia|].
    apply drop_past in Hdrop.
    destruct (get_scope_loop_turns toks2 t2 Hrest n
                (mkState (id s + length toks1) 0
                   ((heap s ++ h1) ++ [mkNode SMC No_val (Some q) NULL]))
                (length (heap s ++ h1)) (mkNode SMC No_val (Some q) NULL) rest)
      as (r2 & last & nlast & s2 & fuel2 & Hloop & Hfuel2 & Hlast & Hrl & Hlastlo
          & Hid & Hdebt2 & Hlen & Hsame & Hroot & Hr2);
      [by apply list_lookup_middle | done | exact Hdrop | done | done | lia |].
    cbn [id sce_debt heap] in Hid, Hlen, Hsame, Hroot, Hr2, Hlastlo.
    eexists _, _, (set_right (mkNode SMC No_val (Some q) NULL) (Some r2)), x, t2,
      last, nlast, s2, fuel2.
    split; [exact Hrun1|]. split; [exact Hloop|].
    split_and!; [rewrite length_app; lia | done | rewrite Hid, length_app; lia | done
                | lens | lens | | exact Hroot | done | done | | | done | done].
    + intros a Ha. rewrite Hsame by lens. rewrite <- app_assoc. by rewrite lookup_app_l.
    + cbn [set_right left]. eapply (repr_in_ext (heap s ++ h1)); [|exact Hq].
      intros a Ha. rewrite Hsame by lens. by rewrite lookup_app_l by lens.
    + cbn [set_right right]. eapply repr_in_weaken; [..|exact Hr2]; lens.
Qed.

(** Paying the debt over a tree. *)
Lemma pay_scope_debt_repr times : ∀ root s lo t,
  lo ≤ length (heap s) →
  repr_in (heap s) lo (length (heap s)) (Some root) t →
  ∃ root',
    pay_scope_debt times (Some root) s
    = Ret (Some root')
          (mkState (id s) (sce_debt s)
             (heap s ++ sce_stack (length (heap s)) (Some root) times))
    ∧ repr_in (heap s ++ sce_stack (length (heap s)) (Some root) times) lo
        (length (heap s ++ sce_stack (length (heap s)) (Some root) times))
        (Some root') (sce_wrap times t).
Proof.
  induction times as [|k IH]; intros root s lo t Hlo Ht; cbn [pay_scope_debt sce_stack].
  - exists root. rewrite app_nil_r. split; [by destruct s | done].
  - unfold CR_SCE, create_node. run_prim.
    destruct (IH (length (heap s))
                 (mkState (id s) (sce_debt s)
                    (heap s ++ [mkNode SCE No_val NULL (Some root)]))
                 lo (Node SCE No_val Leaf t)) as (root' & Hrun & Hp).
    { cbn [heap]. lens. }
    { cbn [heap]. apply repr_in_new; [done | constructor | done]. }
    cbn [id sce_debt heap] in Hrun, Hp.
    rewrite length_app, Nat.add_1_r, <- app_assoc in Hrun, Hp. cbn [app] in Hrun, Hp.
    exists root'. split; [exact Hrun|]. cbn [sce_wrap]. by rewrite <- sce_wrap_comm.
Qed.

(** The end of [get_scope] after a loop that has left a command at the head
    of the sequence: one closure is owed, the brace is consumed, the head
    becomes a [SCS] node, and the debt of the scope is paid on top of it. *)
Lemma scope_close_run s r nr x rt d lo :
  heap s !! r = Some nr → type nr = SMC → value nr = No_val →
  repr_in (heap s) lo r (left nr) x →
  repr_in (heap s) (S r) (length (heap s)) (right nr) rt →
  lo ≤ r →
  sce_debt s = 0%N →
  ∃ root',
    (incr_sce_debt ;;
     incr_id ;;
     rn <- load (Some r) ;;
     root' <- (if decide (type rn = SCS) then CR_SCS NULL (Some r)
               else store (Some r) (fun x => set_type x SCS) ;; ret (Some r)) ;;
     pay_scope_debt d root') s
    = Ret (Some root')
          (mkState (S (id s)) 1
             (<[r := set_type nr SCS]> (heap s)
              ++ sce_stack (length (heap s)) (Some r) d))
    ∧ repr_in (<[r := set_type nr SCS]> (heap s)
               ++ sce_stack (length (heap s)) (Some r) d) lo
        (length (<[r := set_type nr SCS]> (heap s)
                 ++ sce_stack (length (heap s)) (Some r) d))
        (Some root') (sce_wrap d (Node SCS No_val x rt)).
Proof.
  intros Hr Hty Hv Hx Hrt Hlo Hdebt.
  pose proof (lookup_lt_Some _ _ _ Hr) as Hlt.
  unfold incr_sce_debt at 1, incr_id at 1. do 2 run_prim.
  rewrite Hdebt. change ((0 + 1) mod size_max)%N with 1%N.
  erewrite run_bind; [|apply run_load; exact Hr].
  rewrite Hty, decide_False by done. rewrite bind_assoc.
  erewrite run_bind; [|apply run_store; exact Hr].
  cbn [id sce_debt heap]. run_prim.
  destruct (pay_scope_debt_repr d r
              (mkState (S (id s)) 1 (<[r := set_type nr SCS]> (heap s)))
              lo (Node SCS No_val x rt)) as (root' & Hrun & Hp).
  { cbn [heap]. lens. }
  { cbn [heap]. rewrite length_insert, <- Hv.
    apply (repr_in_node _ _ _ _ (set_type nr SCS)).
    - lia.
    - by apply list_lookup_insert_eq.
    - cbn [set_type left].
      eapply repr_in_weaken; [| |apply repr_in_insert; [|exact Hx]]; lia.
    - cbn [set_type right].
      eapply repr_in_weaken; [| |apply repr_in_insert; [|exact Hrt]]; lia. }
  cbn [id sce_debt heap] in Hrun, Hp. rewrite length_insert in Hrun, Hp.
  exists root'. split; [exact Hrun | exact Hp].
Qed.


(** The same, for a store that has grown from [h0] without a change to the
    nodes of [h0]. *)
Lemma scope_close_grown h0 s r nr x rt d :
  length h0 ≤ length (heap s) →
  (∀ a, a < length h0 → heap s !! a = h0 !! a) →
  heap s !! r = Some nr → type nr = SMC → value nr = No_val →
  length h0 ≤ r →
  repr_in (heap s) (length h0) r (left nr) x →
  repr_in (heap s) (S r) (length (heap s)) (right nr) rt →
  sce_debt s = 0%N →
  ∃ root' h',
    (incr_sce_debt ;;
     incr_id ;;
     rn <- load (Some r) ;;
     root' <- (if decide (type rn = SCS) then CR_SCS NULL (Some r)
               else store (Some r) (fun x => set_type x SCS) ;; ret (Some r)) ;;
     pay_scope_debt d root') s
    = Ret (Some root') (mkState (S (id s)) 1 (h0 ++ h'))
    ∧ repr_in (h0 ++ h') (length h0) (length (h0 ++ h')) (Some root')
        (sce_wrap d (Node SCS No_val x rt)).
Proof.
  intros Hlen Hsame Hr Hty Hv Hlo Hx Hrt Hdebt.
  destruct (scope_close_run s r nr x rt d (length h0) Hr Hty Hv Hx Hrt Hlo Hdebt)
    as (root' & Hrun & Hp).
  pose proof (lookup_lt_Some _ _ _ Hr) as Hlt.
  set (hf := <[r := set_type nr SCS]> (heap s)
             ++ sce_stack (length (heap s)) (Some r) d) in *.
  assert (Hgrown : hf = h0 ++ drop (length h0) hf).
  { apply heap_grown; [subst hf; lens|]. intros a Ha. subst hf.
    rewrite lookup_app_l by lens. rewrite list_lookup_insert_ne by lia.
    by apply Hsame. }
  exists root', (drop (length h0) hf). rewrite <- Hgrown. done.
Qed.

(** The loop of [get_scope] at a closing brace. *)
Lemma get_scope_loop_closed m cur s c :
  tokens !! id s = Some c → tok_type c = CCBR → 1 ≤ m →
  get_scope_loop tokens m cur s = Ret tt s.
Proof.
  intros Hl Hc Hm. destruct m as [|n]; [lia|]. cbn [get_scope_loop].
  run_prim. by rewrite Hc, decide_True.
Qed.

(** A command, and a scope, asked for at a token that is no keyword, whose
    name can be read, and that is not followed by the assignment operator:
    the token is taken for the target of an assignment, and the failure
    comes after it. *)
Lemma get_cmd_no_operator m s k nxt :
  tokens !! id s = Some k → tok_type k ≠ KWD → reads_name k →
  tokens !! S (id s) = Some nxt → is_op ASS nxt = false →
  2 ≤ m →
  get_cmd tokens m s
  = Ret NULL (mkState (S (id s)) (sce_debt s)
                (heap s ++ [mkNode VAR (Var_val (var_value k)) NULL NULL])).
Proof.
  intros Hk Hty Hname Hnxt Hop Hm. destruct m as [|n]; [lia|].
  cbn [get_cmd]. run_prim. rewrite decide_False by done.
  erewrite run_bind;
    [|apply (get_ass_no_operator n s k nxt); [done | done | done | done | done | lia]].
  reflexivity.
Qed.

Lemma get_scope_no_operator m s k nxt :
  tokens !! id s = Some k → tok_type k ≠ KWD → tok_type k ≠ OCBR → reads_name k →
  tokens !! S (id s) = Some nxt → is_op ASS nxt = false →
  3 ≤ m →
  get_scope tokens m s
  = Ret NULL (mkState (S (id s)) (sce_debt s)
                (heap s ++ [mkNode VAR (Var_val (var_value k)) NULL NULL])).
Proof.
  intros Hk Hkwd Hocbr Hname Hnxt Hop Hm. destruct m as [|n]; [lia|].
  cbn [get_scope]. run_prim. rewrite decide_False by done.
  erewrite run_bind;
    [|apply (get_cmd_no_operator n s k nxt); [done | done | done | done | done | lia]].
  reflexivity.
Qed.

(** A turn of the loop of [get_scope] at a token that starts no statement
    and ends none, before the closing brace: the token is taken for the
    target of an assignment that fails, the failure is written to the right
    of the last statement, where nothing was, and the loop ends. *)
Lemma get_scope_loop_stray m s last nlast k c :
  heap s !! last = Some nlast → right nlast = NULL →
  tokens !! id s = Some k →
  tok_type k ≠ KWD → tok_type k ≠ OCBR → tok_type k ≠ CCBR → reads_name k →
  tokens !! S (id s) = Some c → tok_type c = CCBR →
  4 ≤ m →
  get_scope_loop tokens m (Some last) s
  = Ret tt (mkState (S (id s)) (sce_debt s)
              (heap s ++ [mkNode VAR (Var_val (var_value k)) NULL NULL])).
Proof.
  intros Hlast Hr Hk Hkwd Hocbr Hccbr Hname Hc Hty Hm.
  destruct m as [|n]; [lia|]. cbn [get_scope_loop].
  run_prim. rewrite decide_False by done.
  erewrite run_bind; [|apply (get_scope_end_last n s last nlast Hlast Hr); lia].
  erewrite run_bind;
    [|apply (get_scope_no_operator n s k c);
      [done | done | done | done | done | unfold is_op; by rewrite Hty | lia]].
  pose proof (lookup_lt_Some _ _ _ Hlast) as Hlt.
  assert (Hsame : <[last := set_right nlast NULL]>
                    (heap s ++ [mkNode VAR (Var_val (var_value k)) NULL NULL])
                  = heap s ++ [mkNode VAR (Var_val (var_value k)) NULL NULL]).
  { assert (set_right nlast NULL = nlast) as -> by (destruct nlast; simpl in *; by subst).
    apply list_insert_id. by apply lookup_app_l_Some. }
  erewrite run_bind;
    [|apply run_store; cbn [heap]; by apply lookup_app_l_Some].
  cbn [id sce_debt heap]. rewrite Hsame.
  erewrite run_bind; [|apply run_load; cbn [heap]; by apply lookup_app_l_Some].
  rewrite Hr. by eapply get_scope_loop_closed; [| |lia].
Qed.

(** X11: a block [{ c1 c2 ... }] of statements of the grammar (targets and
    variables are identifiers), entered with any debt: [get_scope]
    consumes it to the closing brace; the first command becomes the [SCS]
    head of the sequence, the commands after it follow on its right in the
    order of the text, and as many [SCE] nodes as closures were owed at the
    entry are put on top.  One closure is owed at the return. *)
Theorem block_parsed (o c : Token) (body : list Token) (t : tree) (fuel : nat)
    (s : state) (rest : list Token) :
  tok_type o = OCBR → g_stmts is_var body t → tok_type c = CCBR →
  drop (id s) tokens = o :: body ++ c :: rest →
  4 * length body + 9 ≤ fuel →
  ∃ root h',
    get_scope tokens fuel s
    = Ret (Some root) (mkState (id s + (2 + length body)) 1 (heap s ++ h'))
    ∧ repr_in (heap s ++ h') (length (heap s)) (length (heap s ++ h')) (Some root)
        (sce_wrap (N.to_nat (sce_debt s)) (block_tree t)).
Proof.
  intros Ho Hbody Hc Hdrop Hfuel.
  apply drop_lookup_head in Hdrop as [Hlo Hdrop].
  destruct fuel as [|n]; [lia|]. cbn [get_scope].
  run_prim. rewrite Ho, decide_True by done. do 3 run_prim.
  destruct (block_body_run body t Hbody n (mkState (S (id s)) 0 (heap s)) (c :: rest)
              Hdrop eq_refl)
    as (r & s1 & nr & x & rt & last & nlast & s2 & fuel2 & Hrun1 & Hloop & Hfuel2 & ->
        & Hid & Hdebt & Hr & Hlen & Hsame & Hnr & Hty & Hv & Hx & Hrt & _); [lia|].
  cbn [id sce_debt heap] in Hid, Hr, Hlen, Hsame, Hx.
  erewrite run_bind; [|exact Hrun1]. cbn [CHECK_RET].
  apply drop_past, drop_lookup_head in Hdrop as [Hlc _]. cbn [id] in Hlc.
  rewrite (bind_eq _ _ _ _ _ Hloop).
  erewrite run_bind;
    [|apply (get_scope_loop_closed fuel2 _ s2 c); [by rewrite Hid | done | lia]].
  destruct (scope_close_grown (heap s) s2 r nr x rt (N.to_nat (sce_debt s)))
    as (root' & h' & Hrun & Hp); [done..|].
  exists root', h'. split; [|exact Hp].
  etransitivity; [exact Hrun|]. do 2 f_equal. lia.
Qed.

(** X15: a semicolon or an identifier, alone between the last statement of
    a block and its closing brace, is no error: [get_scope] takes it for the
    target of an assignment, the assignment fails, the failure is not
    checked, and the loop ends at the brace.  The block is accepted with the
    tree it has without the token. *)
Theorem stray_token_dropped (o k c : Token) (body : list Token) (t : tree) (fuel : nat)
    (s : state) (rest : list Token) :
  tok_type o = OCBR → g_stmts is_var body t →
  tok_type k = SMC ∨ tok_type k = VAR →
  tok_type c = CCBR →
  drop (id s) tokens = o :: body ++ k :: c :: rest →
  4 * length body + 9 ≤ fuel →
  ∃ root h',
    get_scope tokens fuel s
    = Ret (Some root) (mkState (id s + (3 + length body)) 1 (heap s ++ h'))
    ∧ repr_in (heap s ++ h') (length (heap s)) (length (heap s ++ h')) (Some root)
        (sce_wrap (N.to_nat (sce_debt s)) (block_tree t)).
Proof.
  intros Ho Hbody Hstray Hc Hdrop Hfuel.
  assert (tok_type k ≠ KWD ∧ tok_type k ≠ OCBR ∧ tok_type k ≠ CCBR ∧ reads_name k)
    as (Hkwd & Hocbr & Hccbr & Hname)
    by (unfold reads_name; destruct Hstray as [-> | ->]; by split_and!).
  pose proof (g_stmts_nonempty _ _ Hbody) as Hne.
  assert (1 ≤ length body) by (destruct body; [done | simpl; lia]).
  apply drop_lookup_head in Hdrop as [Hlo Hdrop].
  destruct fuel as [|n]; [lia|]. cbn [get_scope].
  run_prim. rewrite Ho, decide_True by done. do 3 run_prim.
  destruct (block_body_run body t Hbody n (mkState (S (id s)) 0 (heap s)) (k :: c :: rest)
              Hdrop eq_refl)
    as (r & s1 & nr & x & rt & last & nlast & s2 & fuel2 & Hrun1 & Hloop & Hfuel2 & ->
        & Hid & Hdebt & Hr & Hlen & Hsame & Hnr & Hty & Hv & Hx & Hrt & Hlast & Hrl); [lia|].
  cbn [id sce_debt heap] in Hid, Hr, Hlen, Hsame, Hx.
  erewrite run_bind; [|exact Hrun1]. cbn [CHECK_RET].
  apply drop_past, drop_lookup_head in Hdrop as [Hlk Hdrop]. cbn [id] in Hlk.
  apply drop_lookup_head in Hdrop as [Hlc _].
  rewrite (bind_eq _ _ _ _ _ Hloop).
  erewrite run_bind;
    [|apply (get_scope_loop_stray fuel2 s2 last nlast k c);
      [done | done | by rewrite Hid | done | done | done | done | by rewrite Hid | done
      | lia]].
  rewrite Hdebt.
  pose proof (lookup_lt_Some _ _ _ Hnr) as Hlt.
  destruct (scope_close_grown (heap s)
              (mkState (S (id s2)) 0
                 (heap s2 ++ [mkNode VAR (Var_val (var_value k)) NULL NULL]))
              r nr x rt (N.to_nat (sce_debt s)))
    as (root' & h' & Hrun & Hp); cbn [id sce_debt heap].
  - rewrite length_app. lia.
  - intros a Ha. rewrite lookup_app_l by lia. by apply Hsame.
  - by apply lookup_app_l_Some.
  - done.
  - done.
  - done.
  - by apply repr_in_app.
  - apply repr_in_app. eapply repr_in_weaken; [..|exact Hrt]; [lia | rewrite length_app; lia].
  - done.
  - exists root', h'. split; [|exact Hp].
    etransitivity; [exact Hrun|]. cbn [id]. do 2 f_equal. lia.
Qed.

(** ** An empty body in braces *)

(** The loop of [get_cond] entered without a first command, at a token that
    is no closing brace: the next command is written through the null
    pointer. *)
Lemma get_cond_loop_null m s nxt :
  tokens !! id s = Some nxt → tok_type nxt ≠ CCBR →
  ∀ e s', get_cond_loop tokens m NULL s ≠ Ret e s'.
Proof.
  intros Hnxt Hty e s'. destruct m as [|n]; [done|].
  cbn [get_cond_loop]. run_prim. rewrite decide_False by done.
  unfold bind at 1. destruct (get_cmd tokens n s) as [next s1| |]; [|done..].
  unfold bind, store. done.
Qed.

(** X14: a [while] or [if] whose body is the empty braces [{ }], followed by
    a token that is not the assignment operator.  The first command of the
    body is asked for whatever the token is, fails after the closing brace,
    and its failure is not checked.  When the token that follows is one more
    closing brace, [get_cond] consumes it as well and returns the condition
    with no body; when it is any other token (but the assignment operator)
    [get_cond] never returns: the next command is written through the null
    pointer. *)
Theorem empty_body_not_rejected (k o c ob cb nxt : Token) (toks : list Token) (t : tree)
    (fuel : nat) (s : state) (rest : list Token) :
  tok_type k = KWD →
  IS_KWD (var_value k) "while" || IS_KWD (var_value k) "if" = true →
  tok_type o = OBR → g_add is_var toks t → tok_type c = CBR →
  tok_type ob = OCBR → tok_type cb = CCBR →
  is_op ASS nxt = false →
  drop (id s) tokens = k :: o :: toks ++ c :: ob :: cb :: nxt :: rest →
  4 * length toks + 7 ≤ fuel →
  (tok_type nxt = CCBR →
   ∃ p h',
     get_cond tokens fuel s
     = Ret (Some p) (mkState (id s + (6 + length toks)) (sce_debt s) (heap s ++ h'))
     ∧ repr_in (heap s ++ h') (length (heap s)) (length (heap s ++ h')) (Some p)
               (Node KWD (Var_val (var_value k)) t Leaf))
  ∧ (tok_type nxt ≠ CCBR → ∀ p s', get_cond tokens fuel s ≠ Ret p s').
Proof.
  intros Hk Hname Ho Hg Hc Hob Hcb Hop Hdrop Hfuel.
  destruct fuel as [|m]; [lia|].
  destruct (get_cond_head k o toks t c (ob :: cb :: nxt :: rest) m s Hk Hname Ho Hg Hc Hdrop)
    as (p & he & Hp & Hrun); [lia|].
  apply drop_lookup_head in Hdrop as [_ Hdrop].
  apply drop_lookup_head in Hdrop as [_ Hdrop].
  apply drop_past, drop_lookup_head in Hdrop as [_ Hdrop].
  apply drop_lookup_head in Hdrop as [Hlob Hdrop].
  apply drop_lookup_head in Hdrop as [Hlcb Hdrop].
  apply drop_lookup_head in Hdrop as [Hlnxt _].
  replace (S (S (id s)) + length toks) with (id s + (2 + length toks)) in * by lia.
  assert (Hbody :
    get_cond tokens (S m) s
    = (e <- get_cond_loop tokens m NULL ;;
       match e with
       | Returned p' => ret p'
       | Finished => incr_id ;; CR_KWD (var_value k) (Some p) NULL
       end)
        (mkState (id s + (5 + length toks)) (sce_debt s)
           ((heap s ++ he) ++ [mkNode VAR (Var_val (var_value cb)) NULL NULL]))).
  { rewrite Hrun.
    assert (Hlob' : tokens !! id (mkState (id s + (3 + length toks)) (sce_debt s)
                                    (heap s ++ he)) = Some ob).
    { cbn [id]. rewrite <- Hlob. f_equal. lia. }
    rewrite (run_bind _ _ _ _ _ (run_CUR_TYPE tokens _ _ Hlob')).
    rewrite Hob, decide_True by done. run_prim.
    erewrite run_bind;
      [|apply (get_cmd_no_operator m _ cb nxt); cbn [id];
        [rewrite <- Hlcb; f_equal; lia | by rewrite Hcb | split; by rewrite Hcb
        | rewrite <- Hlnxt; f_equal; lia | done | lia]].
    cbn [id sce_debt heap]. do 3 f_equal. lia. }
  assert (Hlnxt' : tokens !! id (mkState (id s + (5 + length toks)) (sce_debt s)
                     ((heap s ++ he) ++ [mkNode VAR (Var_val (var_value cb)) NULL NULL]))
                   = Some nxt).
  { cbn [id]. rewrite <- Hlnxt. f_equal. lia. }
  split.
  - intros Hnxt. rewrite Hbody. destruct m as [|m']; [lia|].
    erewrite run_bind; [|by eapply get_cond_loop_closed].
    unfold CR_KWD, create_node. run_prim.
    exists (length ((heap s ++ he) ++ [mkNode VAR (Var_val (var_value cb)) NULL NULL])),
      (he ++ [mkNode VAR (Var_val (var_value cb)) NULL NULL]
          ++ [mkNode KWD (Var_val (var_value k)) (Some p) NULL]).
    rewrite !app_assoc. split.
    + do 2 f_equal. lia.
    + apply repr_in_new; [rewrite !length_app; lia | | constructor].
      apply repr_in_app. eapply repr_in_weaken; [..|exact Hp];
        [lia | rewrite !length_app; lia].
  - intros Hnxt q s'. rewrite Hbody. unfold bind at 1.
    destruct (get_cond_loop tokens m NULL _) as [e s1| |] eqn:Hloop; [|done..].
    by destruct (get_cond_loop_null _ _ _ Hlnxt' Hnxt _ _ Hloop).
Qed.

(** ** The store stays tidy *)

Lemma ptr_in_mono lo hi hi' p : hi ≤ hi' → ptr_in lo hi p → ptr_in lo hi' p.
Proof. destruct p; simpl; [lia | done]. Qed.

Lemma tidy_ptr lo h p :
  tidy lo h → ptr_in lo (length h) p → ∃ t, repr_in h lo (length h) p t.
Proof.
  intros [_ Ht] Hp. destruct p as [a|]; [by apply Ht|]. exists Leaf. constructor.
Qed.

Lemma repr_in_ptr h lo hi p t : repr_in h lo hi p t → ptr_in lo hi p.
Proof. destruct 1; simpl; [done | lia]. Qed.

Lemma tidy_children lo h a n :
  tidy lo h → lo ≤ a → h !! a = Some n → node_ok lo (length h) n.
Proof.
  intros [_ Ht] Hlo Ha. pose proof (lookup_lt_Some _ _ _ Ha) as Hlt.
  destruct (Ht a) as (t & Hrepr); [lia|].
  inversion Hrepr as [|a' n' tl tr _ Hn Hl Hr]; subst.
  assert (n' = n) as -> by congruence.
  split; by eapply repr_in_ptr.
Qed.

Lemma tidy_new lo h t v l r :
  tidy lo h → ptr_in lo (length h) l → ptr_in lo (length h) r →
  tidy lo (h ++ [mkNode t v l r]).
Proof.
  intros Ht Hl Hr. pose proof Ht as [Hlo Hall].
  destruct (tidy_ptr _ _ _ Ht Hl) as (tl & Htl).
  destruct (tidy_ptr _ _ _ Ht Hr) as (tr & Htr).
  split; [rewrite length_app; lia|]. intros a Ha.
  rewrite length_app in Ha. cbn [length] in Ha.
  destruct (decide (a = length h)) as [->|Hne].
  - eexists. by apply repr_in_new.
  - destruct (Hall a) as (ta & Hta); [lia|]. exists ta.
    apply repr_in_app. eapply repr_in_weaken; [..|exact Hta]; [lia | rewrite length_app; lia].
Qed.

(** Writing a node whose children are children of the node it replaces, or a
    pointer into a part of the store that does not hold the node. *)
Lemma tidy_insert lo h p n n' y ty lb hb :
  tidy lo h → h !! p = Some n →
  (left n' = left n ∨ left n' = y) →
  (right n' = right n ∨ right n' = y) →
  lo ≤ lb → hb ≤ length h → p < lb ∨ hb ≤ p →
  repr_in h lb hb y ty →
  tidy lo (<[p := n']> h).
Proof.
  intros [Hlo Hall] Hp Hl Hr Hlb Hhb Hout Hy.
  pose proof (lookup_lt_Some _ _ _ Hp) as Hlt.
  assert (Hy' : repr_in (<[p := n']> h) lo (length h) y ty).
  { eapply repr_in_weaken; [| |apply repr_in_insert; [|exact Hy]]; [lia | lia | done]. }
  assert (Hall' : ∀ q t, repr_in h lo (length h) q t →
                         ∃ t', repr_in (<[p := n']> h) lo (length h) q t').
  { induction 1 as [|b nb tl tr Hb Hnb _ [tl' IHl] _ [tr' IHr]]; [exists Leaf; constructor|].
    destruct (decide (b = p)) as [->|Hne].
    - assert (nb = n) as -> by congruence.
      assert (∃ t1, repr_in (<[p := n']> h) lo (length h) (left n') t1) as [t1 H1].
      { destruct Hl as [->| ->]; eauto. }
      assert (∃ t2, repr_in (<[p := n']> h) lo (length h) (right n') t2) as [t2 H2].
      { destruct Hr as [->| ->]; eauto. }
      eexists. apply (repr_in_node _ _ _ p n'); [done| |done..].
      by apply list_lookup_insert_eq.
    - eexists. apply (repr_in_node _ _ _ b nb); [done| |done..].
      by rewrite list_lookup_insert_ne. }
  split; [by rewrite length_insert|]. rewrite length_insert. intros a Ha.
  destruct (Hall a Ha) as (t & Ht). by eapply Hall'.
Qed.

Lemma tidy_grown lo h h' : tidy lo h → tidy (length h) (h ++ h') → tidy lo (h ++ h').
Proof.
  intros [Hlo Hall] [Hlen Hnew]. split; [lia|]. intros a Ha.
  destruct (decide (a < length h)) as [Hlt|Hge].
  - destruct (Hall a) as (t & Ht); [lia|]. exists t.
    apply repr_in_app. eapply repr_in_weaken; [..|exact Ht]; lia.
  - destruct (Hnew a) as (t & Ht); [lia|]. exists t.
    eapply repr_in_weaken; [..|exact Ht]; lia.
Qed.

Lemma tidy_start h : tidy (length h) h.
Proof. split; [done|]. intros a Ha. lia. Qed.

(** *** Rules *)

Lemma keeps_bind {A B} lo hi0 (ok1 : nat → A → Prop) (ok2 : nat → B → Prop)
    (m : M A) (k : A → M B) :
  keeps lo hi0 ok1 m →
  (∀ a hi1, hi0 ≤ hi1 → ok1 hi1 a → keeps lo hi1 ok2 (k a)) →
  keeps lo hi0 ok2 (bind m k).
Proof.
  intros Hm Hk s b s' Hhi Ht (a & s1 & H1 & H2)%bind_Ret_inv.
  destruct (Hm _ _ _ Hhi Ht H1) as (Ht1 & Htake1 & Hlen1 & Hok1).
  destruct (Hk a (length (heap s1)) ltac:(lia) Hok1 _ _ _ ltac:(done) Ht1 H2)
    as (Ht2 & Htake2 & Hlen2 & Hok2).
  split_and!; [done | congruence | lia | done].
Qed.

Lemma keeps_ret {A} lo hi0 (ok : nat → A → Prop) (a : A) :
  (∀ hi, hi0 ≤ hi → ok hi a) → keeps lo hi0 ok (ret a).
Proof. intros Hok s b s' Hhi Ht [= <- <-]. split_and!; [done | done | done | by apply Hok]. Qed.

Lemma keeps_fault {A} lo hi0 (ok : nat → A → Prop) : keeps lo hi0 ok fault.
Proof. intros s b s' _ _ [=]. Qed.

Lemma keeps_out_of_fuel {A} lo hi0 (ok : nat → A → Prop) : keeps lo hi0 ok out_of_fuel.
Proof. intros s b s' _ _ [=]. Qed.

Lemma keeps_inert {A} lo hi0 (m : M A) : inert m → keeps lo hi0 any_ok m.
Proof.
  intros Hm s a s' Hhi Ht Hrun. rewrite (Hm _ _ _ Hrun). by split_and!.
Qed.

Lemma keeps_weaken {A} lo hi0 hi1 (ok : nat → A → Prop) (m : M A) :
  hi0 ≤ hi1 → keeps lo hi0 ok m → keeps lo hi1 ok m.
Proof. intros Hle Hm s a s' Hhi. apply Hm. lia. Qed.

Lemma keeps_create_node lo hi0 t v l r :
  ptr_in lo hi0 l → ptr_in lo hi0 r → keeps lo hi0 (ptr_in lo) (create_node t v l r).
Proof.
  intros Hl Hr s a s' Hhi Ht Hrun. unfold create_node in Hrun. simplify_eq.
  cbn [heap]. pose proof Ht as [Hlo _]. split_and!.
  - apply tidy_new; [done | by apply (ptr_in_mono lo hi0) | by apply (ptr_in_mono lo hi0)].
  - by rewrite take_app_le.
  - rewrite length_app. lia.
  - simpl. rewrite length_app. simpl. lia.
Qed.

Lemma keeps_load lo hi0 p :
  ptr_in lo hi0 p → keeps lo hi0 (node_ok lo) (load p).
Proof.
  intros Hp s n s' Hhi Ht Hrun. unfold load in Hrun.
  destruct p as [a|]; [|done]. destruct (heap s !! a) as [na|] eqn:Ha; [|done].
  simplify_eq. split_and!; [done..|]. simpl in Hp. by eapply tidy_children; [| |exact Ha]; [|lia].
Qed.

Lemma keeps_retype lo hi0 p ty :
  ptr_in lo hi0 p → keeps lo hi0 any_ok (store p (fun x => set_type x ty)).
Proof.
  intros Hp s u s' Hhi Ht Hrun. unfold store in Hrun.
  destruct p as [a|]; [|done]. destruct (heap s !! a) as [na|] eqn:Ha; [|done].
  simplify_eq. cbn [heap]. simpl in Hp. split_and!; [| |by rewrite length_insert|done].
  - eapply (tidy_insert lo (heap s) a na (set_type na ty) NULL Leaf (length (heap s))
              (length (heap s))); [done | done | by left | by left | | done | | constructor].
    + by destruct Ht.
    + left. by eapply lookup_lt_Some.
  - by rewrite take_insert_ge by lia.
Qed.

(** A production is called and what it returns is hung to the right of an
    older node. *)
Lemma keeps_link {B} lo hi0 (ok : nat → B → Prop) (m : M ptr) x (k : ptr → M B) :
  (∀ s p s', m s = Ret p s' → fresh s s' p) →
  ptr_in lo hi0 x →
  (∀ a hi1, hi0 ≤ hi1 → ptr_in lo hi1 a → keeps lo hi1 ok (k a)) →
  keeps lo hi0 ok (a <- m ;; store x (fun n => set_right n a) ;; k a).
Proof.
  intros Hm Hx Hk s b s' Hhi Ht (a & s1 & H1 & H2)%bind_Ret_inv.
  apply bind_Ret_inv in H2 as ([] & s2 & Hst & H2).
  destruct (Hm _ _ _ H1) as ((h1 & Hh1) & Hnew & Ha).
  unfold store in Hst. destruct x as [px|]; [|done].
  destruct (heap s1 !! px) as [npx|] eqn:Hpx; [|done]. simplify_eq.
  simpl in Hx. pose proof Ht as [Hlo _].
  assert (Ht1 : tidy lo (heap s1)) by (rewrite Hh1 in *; by apply tidy_grown).
  destruct (tidy_ptr _ _ _ Hnew Ha) as (ta & Hta).
  assert (Ht2 : tidy lo (<[px := set_right npx a]> (heap s1))).
  { eapply (tidy_insert lo (heap s1) px npx (set_right npx a) a ta (length (heap s))
              (length (heap s1))); [done | done | by left | by right | lia | done | lia | done]. }
  assert (Hlen1 : length (heap s) ≤ length (heap s1)) by (rewrite Hh1, length_app; lia).
  assert (Ha' : ptr_in lo (length (heap s1)) a) by (destruct a; simpl in *; [lia | done]).
  destruct (Hk a (length (heap s1)) ltac:(lia) Ha'
              (mkState (id s1) (sce_debt s1) (<[px := set_right npx a]> (heap s1))) b s')
    as (Ht' & Htake' & Hlen' & Hok'); [cbn [heap]; by rewrite length_insert | done | done |].
  cbn [heap] in *. rewrite length_insert in Hlen'.
  split_and!; [done | | lia | done].
  rewrite Htake', take_insert_ge by lia. rewrite Hh1. by rewrite take_app_le.
Qed.

Lemma inert_ret {A} (a : A) : inert (ret a).
Proof. by intros s b s' [= _ <-]. Qed.

Lemma inert_bind {A B} (m : M A) (k : A → M B) :
  inert m → (∀ a, inert (k a)) → inert (bind m k).
Proof.
  intros Hm Hk s b s' (a & s1 & H1 & H2)%bind_Ret_inv.
  rewrite (Hk _ _ _ _ H2). by eapply Hm.
Qed.

Lemma inert_CUR_TOKEN : inert (CUR_TOKEN tokens).
Proof. intros s a s'. unfold CUR_TOKEN. destruct (tokens !! id s); [|done]. by intros [= _ <-]. Qed.

Lemma inert_CUR_TYPE : inert (CUR_TYPE tokens).
Proof. apply inert_bind; [apply inert_CUR_TOKEN | intros; apply inert_ret]. Qed.

Lemma inert_CUR_OP : inert (CUR_OP tokens).
Proof. apply inert_bind; [apply inert_CUR_TOKEN | intros; apply inert_ret]. Qed.

Lemma inert_CUR_NUM : inert (CUR_NUM tokens).
Proof. apply inert_bind; [apply inert_CUR_TOKEN | intros; apply inert_ret]. Qed.

Lemma inert_incr_id : inert incr_id.
Proof. by intros s a s' [= _ <-]. Qed.

Lemma inert_get_sce_debt : inert get_sce_debt.
Proof. by intros s a s' [= _ <-]. Qed.

Lemma inert_set_sce_debt d : inert (set_sce_debt d).
Proof. by intros s a s' [= _ <-]. Qed.

Lemma inert_incr_sce_debt : inert incr_sce_debt.
Proof. by intros s a s' [= _ <-]. Qed.

Lemma inert_guard (f : Ops → bool) ty :
  inert (if decide (ty = OP) then op <- CUR_OP tokens ;; ret (f op) else ret false).
Proof.
  case_decide; [|apply inert_ret].
  apply inert_bind; [apply inert_CUR_OP | intros; apply inert_ret].
Qed.

Lemma inert_read_var_value tok : inert (read_var_value tok).
Proof.
  intros s a s'. unfold read_var_value.
  destruct (tok_type tok); intros [= _ <-] || intros [=]; done.
Qed.

(** Pointers that were good for a smaller store are good for a larger one. *)
Ltac rebase lo hi1 :=
  repeat match goal with
         | H : node_ok lo _ _ |- _ => destruct H
         | H : ptr_in lo ?hi ?p |- _ =>
             lazymatch hi with
             | hi1 => fail
             | _ => apply (ptr_in_mono lo hi hi1 p) in H; [|lia]
             end
         end.

Ltac keeps_rule :=
  first
    [ assumption
    | apply keeps_fault
    | apply keeps_out_of_fuel
    | apply keeps_inert;
        solve [ apply inert_CUR_TOKEN | apply inert_CUR_TYPE | apply inert_CUR_OP
              | apply inert_CUR_NUM | apply inert_incr_id | apply inert_get_sce_debt
              | apply inert_set_sce_debt | apply inert_incr_sce_debt | apply inert_guard
              | apply inert_read_var_value ]
    | apply keeps_create_node; solve [ assumption | exact I ]
    | apply keeps_load; assumption
    | apply keeps_retype; assumption
    | match goal with
      | H : context [keeps] |- _ => apply H; solve [ assumption | exact I ]
      end
    | apply keeps_ret; intros;
        solve [ exact I | eapply ptr_in_mono; [|eassumption]; lia ] ].

Ltac keeps_step lo :=
  first
    [ keeps_rule
    | eapply keeps_bind;
        [ solve [keeps_rule]
        | let a := fresh "a" in
          let hi1 := fresh "hi" in
          intros a hi1 ? ?; rebase lo hi1 ]
    | match goal with
      | |- keeps _ _ _ (CHECK_RET ?p _) => destruct p; cbn [CHECK_RET]
      | |- keeps _ _ _ (SYNTAX_CHECK ?b _) => destruct b; cbn [SYNTAX_CHECK]; unfold SYNTAX_ERROR
      | |- keeps _ _ _ (if ?b then _ else _) => destruct b
      | |- keeps _ _ _ (match ?e with Finished => _ | Returned _ => _ end) =>
          destruct e; cbn [exit_ok] in *
      | |- keeps _ _ _ (match ?p with Some _ => _ | None => _ end) => destruct p
      end ].

Lemma keeps_get_num lo hi0 : keeps lo hi0 (ptr_in lo) (get_num tokens).
Proof. unfold get_num, CR_NUM. repeat keeps_step lo. Qed.

Lemma expressions_keep n : ∀ lo hi0,
  keeps lo hi0 (ptr_in lo) (get_add tokens n)
  ∧ (∀ val, ptr_in lo hi0 val → keeps lo hi0 (ptr_in lo) (get_add_loop tokens n val))
  ∧ keeps lo hi0 (ptr_in lo) (get_mul tokens n)
  ∧ (∀ val, ptr_in lo hi0 val → keeps lo hi0 (ptr_in lo) (get_mul_loop tokens n val))
  ∧ keeps lo hi0 (ptr_in lo) (get_pow tokens n)
  ∧ (∀ val, ptr_in lo hi0 val → keeps lo hi0 (ptr_in lo) (get_pow_loop tokens n val))
  ∧ keeps lo hi0 (ptr_in lo) (get_par tokens n)
  ∧ keeps lo hi0 (ptr_in lo) (get_id tokens n).
Proof.
  induction n as [|n IH]; intros lo hi0.
  { split_and!; intros; apply keeps_out_of_fuel. }
  assert (IHadd : ∀ hi, keeps lo hi (ptr_in lo) (get_add tokens n)) by (intros; apply IH).
  assert (IHaddl : ∀ hi val, ptr_in lo hi val →
                     keeps lo hi (ptr_in lo) (get_add_loop tokens n val))
    by (intros hi; apply IH).
  assert (IHmul : ∀ hi, keeps lo hi (ptr_in lo) (get_mul tokens n)) by (intros; apply IH).
  assert (IHmull : ∀ hi val, ptr_in lo hi val →
                     keeps lo hi (ptr_in lo) (get_mul_loop tokens n val))
    by (intros hi; apply IH).
  assert (IHpow : ∀ hi, keeps lo hi (ptr_in lo) (get_pow tokens n)) by (intros; apply IH).
  assert (IHpowl : ∀ hi val, ptr_in lo hi val →
                     keeps lo hi (ptr_in lo) (get_pow_loop tokens n val))
    by (intros hi; apply IH).
  assert (IHpar : ∀ hi, keeps lo hi (ptr_in lo) (get_par tokens n)) by (intros; apply IH).
  assert (IHid : ∀ hi, keeps lo hi (ptr_in lo) (get_id tokens n)) by (intros; apply IH).
  pose proof (keeps_get_num lo) as Hnum.
  clear IH.
  split_and!; intros; simpl; unfold CR_OP, CR_KWD, CR_VAR; repeat keeps_step lo.
Qed.

Lemma fresh_of_keeps (m : M ptr) :
  (∀ lo hi0, keeps lo hi0 (ptr_in lo) m) →
  ∀ s p s', m s = Ret p s' → fresh s s' p.
Proof.
  intros Hm s p s' Hrun.
  destruct (Hm (length (heap s)) (length (heap s)) s p s') as (Ht & Htake & Hlen & Hp);
    [done | apply tidy_start | done |].
  rewrite (take_ge (heap s)) in Htake by done.
  split_and!; [|done..]. exists (drop (length (heap s)) (heap s')).
  by rewrite <- Htake at 1; rewrite take_drop.
Qed.

Lemma fresh_leaf t v s p s' : create_node t v NULL NULL s = Ret p s' → fresh s s' p.
Proof.
  apply (fresh_of_keeps (create_node t v NULL NULL)).
  intros lo hi0. by apply keeps_create_node.
Qed.

Lemma keeps_extend_sce_chain k : ∀ lo hi0 cur,
  ptr_in lo hi0 cur → keeps lo hi0 (ptr_in lo) (extend_sce_chain k cur).
Proof.
  induction k as [|k IH]; intros lo hi0 cur Hcur; cbn [extend_sce_chain].
  - apply keeps_ret. intros hi Hhi. by apply (ptr_in_mono lo hi0).
  - apply keeps_link; [apply fresh_leaf | done |].
    intros a hi1 Hhi Ha. by apply IH.
Qed.

Lemma keeps_finish_cmd lo hi0 cmd :
  ptr_in lo hi0 cmd → keeps lo hi0 (ptr_in lo) (finish_cmd cmd).
Proof.
  intros Hc s a s' Hhi Ht Hrun. unfold finish_cmd in Hrun.
  apply bind_Ret_inv in Hrun as (d & s0 & [= <- <-] & Hrun).
  case_decide as Hz; [by eapply (keeps_create_node lo hi0); [| | | |exact Hrun]|].
  apply bind_Ret_inv in Hrun as (parent & s1 & H1 & Hrun).
  apply bind_Ret_inv in Hrun as (cur & s2 & H2 & Hrun).
  apply bind_Ret_inv in Hrun as ([] & s3 & H3 & Hrun).
  apply bind_Ret_inv in Hrun as ([] & s4 & [= <-] & [= <- <-]).
  cbn [heap].
  destruct (keeps_create_node (length (heap s)) (length (heap s)) SCE No_val NULL NULL
              I I s parent s1) as (Ht1 & Htake1 & Hlen1 & Hp1);
    [done | apply tidy_start | exact H1 |].
  destruct (keeps_extend_sce_chain (N.to_nat (sce_debt s - 1)) (length (heap s))
              (length (heap s1)) parent Hp1 s1 cur s2) as (Ht2 & Htake2 & Hlen2 & Hp2); [done | done | exact H2 |].
  rewrite Htake1, (take_ge (heap s)) in Htake2 by done.
  assert (Hh2 : heap s2 = heap s ++ drop (length (heap s)) (heap s2)).
  { by rewrite <- Htake2 at 1; rewrite take_drop. }
  pose proof Ht as [Hlo _].
  assert (Ht2' : tidy lo (heap s2)).
  { rewrite Hh2. apply tidy_grown; [done | by rewrite <- Hh2]. }
  unfold store in H3. destruct cur as [c|]; [|done].
  destruct (heap s2 !! c) as [nc|] eqn:Hnc; [|done]. simplify_eq. cbn [heap].
  simpl in Hp2.
  destruct (tidy_ptr lo (heap s) cmd Ht) as (tc & Htc); [by apply (ptr_in_mono lo hi0)|].
  rewrite length_insert. split_and!.
  - eapply (tidy_insert lo (heap s2) c nc (set_left nc cmd) cmd tc lo (length (heap s)));
      [done | done | by right | by left | done | lia | right; lia |].
    rewrite Hh2. by apply repr_in_app.
  - rewrite take_insert_ge by lia. rewrite Hh2. by rewrite take_app_le.
  - lia.
  - destruct parent as [q|]; simpl in *; [lia | done].
Qed.

Lemma inert_load p : inert (load p).
Proof.
  intros s n s'. unfold load. destruct p as [a|]; [|done].
  destruct (heap s !! a); [|done]. by intros [= _ <-].
Qed.

Lemma inert_node_var_value p : inert (node_var_value p).
Proof.
  apply inert_bind; [apply inert_load|]. intros n.
  destruct (value n); first [apply inert_ret | by intros s a s'].
Qed.

Lemma keeps_get_ass n lo hi0 : keeps lo hi0 (ptr_in lo) (get_ass tokens n).
Proof.
  assert (IHadd : ∀ hi, keeps lo hi (ptr_in lo) (get_add tokens n))
    by (intros; apply expressions_keep).
  assert (IHid : ∀ hi, keeps lo hi (ptr_in lo) (get_id tokens n))
    by (intros; apply expressions_keep).
  unfold get_ass, CR_ASS. repeat keeps_step lo.
Qed.

Lemma commands_keep n : ∀ lo hi0,
  keeps lo hi0 (ptr_in lo) (get_cmd tokens n)
  ∧ keeps lo hi0 (ptr_in lo) (get_cond tokens n)
  ∧ (∀ cur, ptr_in lo hi0 cur → keeps lo hi0 (exit_ok lo) (get_cond_loop tokens n cur)).
Proof.
  induction n as [|n IH]; intros lo hi0.
  { split_and!; intros; apply keeps_out_of_fuel. }
  assert (IHcmd : ∀ lo hi, keeps lo hi (ptr_in lo) (get_cmd tokens n)) by (intros; apply IH).
  assert (IHcond : ∀ hi, keeps lo hi (ptr_in lo) (get_cond tokens n)) by (intros; apply IH).
  assert (IHloop : ∀ hi cur, ptr_in lo hi cur →
                     keeps lo hi (exit_ok lo) (get_cond_loop tokens n cur))
    by (intros hi; apply IH).
  assert (IHadd : ∀ hi, keeps lo hi (ptr_in lo) (get_add tokens n))
    by (intros; apply expressions_keep).
  assert (IHid : ∀ hi, keeps lo hi (ptr_in lo) (get_id tokens n))
    by (intros; apply expressions_keep).
  assert (IHass : ∀ hi, keeps lo hi (ptr_in lo) (get_ass tokens n))
    by (intros; apply keeps_get_ass).
  assert (Hfin : ∀ hi cmd, ptr_in lo hi cmd → keeps lo hi (ptr_in lo) (finish_cmd cmd))
    by (intros; by apply keeps_finish_cmd).
  assert (Hname : ∀ hi p, keeps lo hi any_ok (node_var_value p))
    by (intros; apply keeps_inert, inert_node_var_value).
  pose proof (fresh_of_keeps _ IHcmd) as Hfresh.
  assert (IHcmd' : ∀ hi, keeps lo hi (ptr_in lo) (get_cmd tokens n)) by (intros; apply IHcmd).
  clear IH IHcmd.
  split_and!; intros; cbn [get_cmd get_cond get_cond_loop]; unfold CR_KWD.
  - repeat keeps_step lo.
  - repeat keeps_step lo.
  - eapply keeps_bind; [solve [keeps_rule]|]. intros ty hi1 Hhi1 _. rebase lo hi1.
    case_decide; [by apply keeps_ret|].
    apply keeps_link; [exact Hfresh | done |].
    intros next hi2 Hhi2 Hnext. destruct next; [by apply IHloop|]. by apply keeps_ret.
Qed.

Lemma keeps_scope_end_loop n : ∀ lo hi0 a,
  ptr_in lo hi0 (Some a) → keeps lo hi0 (ptr_in lo) (scope_end_loop n a).
Proof.
  induction n as [|n IH]; intros lo hi0 a Ha; cbn [scope_end_loop].
  { apply keeps_out_of_fuel. }
  eapply keeps_bind; [by apply keeps_load|]. intros nd hi1 Hhi1 [_ Hr].
  destruct (right nd) as [next|]; [by apply IH|].
  apply keeps_ret. intros hi Hhi. apply (ptr_in_mono lo hi0); [lia | done].
Qed.

Lemma keeps_get_scope_end n lo hi0 p :
  ptr_in lo hi0 p → keeps lo hi0 (ptr_in lo) (get_scope_end n p).
Proof.
  intros Hp. destruct p as [a|]; cbn [get_scope_end];
    [by apply keeps_scope_end_loop | by apply keeps_ret].
Qed.

Lemma keeps_pay_scope_debt k : ∀ lo hi0 root,
  ptr_in lo hi0 root → keeps lo hi0 (ptr_in lo) (pay_scope_debt k root).
Proof.
  induction k as [|k IH]; intros lo hi0 root Hroot; cbn [pay_scope_debt].
  - apply keeps_ret. intros hi Hhi. by apply (ptr_in_mono lo hi0).
  - eapply keeps_bind; [by apply keeps_create_node|].
    intros r hi1 Hhi1 Hr. by apply IH.
Qed.

Lemma scopes_keep n : ∀ lo hi0,
  keeps lo hi0 (ptr_in lo) (get_scope tokens n)
  ∧ (∀ cur, ptr_in lo hi0 cur → keeps lo hi0 any_ok (get_scope_loop tokens n cur)).
Proof.
  induction n as [|n IH]; intros lo hi0.
  { split_and!; intros; apply keeps_out_of_fuel. }
  assert (IHscope : ∀ lo hi, keeps lo hi (ptr_in lo) (get_scope tokens n))
    by (intros; apply IH).
  assert (IHloop : ∀ hi cur, ptr_in lo hi cur →
                     keeps lo hi any_ok (get_scope_loop tokens n cur))
    by (intros hi; apply IH).
  assert (IHcmd : ∀ hi, keeps lo hi (ptr_in lo) (get_cmd tokens n))
    by (intros; apply commands_keep).
  pose proof (fresh_of_keeps _ IHscope) as Hfresh.
  assert (IHscope' : ∀ hi, keeps lo hi (ptr_in lo) (get_scope tokens n))
    by (intros; apply IHscope).
  clear IH IHscope.
  split_and!; intros; cbn [get_scope get_scope_loop].
  - keeps_step lo. keeps_step lo; [|repeat keeps_step lo].
    do 4 keeps_step lo. keeps_step lo; [|repeat keeps_step lo].
    do 4 keeps_step lo.
    eapply (keeps_bind lo _ (ptr_in lo)).
    + case_decide; [apply keeps_create_node; [exact I | done]|].
      eapply keeps_bind; [by apply keeps_retype|]. intros [] hi' Hhi' _.
      apply keeps_ret. intros hi'' Hhi''. eapply ptr_in_mono; [|eassumption]. lia.
    + intros root' hi' Hhi' Hroot'. by apply keeps_pay_scope_debt.
  - eapply keeps_bind; [solve [keeps_rule]|]. intros ty hi1 Hhi1 _.
    case_decide; [by apply keeps_ret|].
    eapply keeps_bind; [apply keeps_get_scope_end; by apply (ptr_in_mono lo hi0)|].
    intros scope_end hi2 Hhi2 Hend.
    apply keeps_link; [exact Hfresh | done |].
    intros sub hi3 Hhi3 Hsub.
    eapply keeps_bind; [apply keeps_load; apply (ptr_in_mono lo hi0); [lia | done]|].
    intros cn hi4 Hhi4 [_ Hr]. by apply IHloop.
Qed.

(** X12: whatever the tokens are and whatever was owed, when [get_scope],
    [get_cmd] or [get_add] returns it has changed no node that was in the
    store before the call and has removed none: the store is the old one
    with new nodes after it.  Every new node is the root of a finite tree
    made of new nodes only, and the pointer returned is null or the address
    of a new node. *)
Theorem productions_only_add_trees fuel s p s' :
  get_scope tokens fuel s = Ret p s'
  ∨ get_cmd tokens fuel s = Ret p s'
  ∨ get_add tokens fuel s = Ret p s' →
  fresh s s' p.
Proof.
  intros [Hrun|[Hrun|Hrun]]; revert Hrun; apply fresh_of_keeps; intros lo hi0.
  - apply scopes_keep.
  - apply commands_keep.
  - apply expressions_keep.
Qed.

(** ** The token after an expression *)

Lemma looks_weaken {A} (P : A → Prop) (m : M A) :
  looks_if tokens always m → looks_if tokens P m.
Proof. intros Hm s a s' Hrun _. by eapply Hm. Qed.

Lemma ahead_of_looks {A} (P : A → Prop) (m : M A) :
  looks_if tokens P m → ahead_if tokens P m.
Proof. intros Hm s a s' _. apply Hm. Qed.

Lemma looks_of_never {A} (P : A → Prop) (m : M A) : never P m → looks_if tokens P m.
Proof. intros Hm s a s' Hrun HP. by destruct (Hm _ _ _ Hrun). Qed.

Lemma ahead_of_never {A} (P : A → Prop) (m : M A) : never P m → ahead_if tokens P m.
Proof. intros Hm. by apply ahead_of_looks, looks_of_never. Qed.

Lemma looks_bind_l {A B} (P : B → Prop) (m : M A) (k : A → M B) :
  looks_if tokens always m → (∀ a, ahead_if tokens P (k a)) →
  looks_if tokens P (bind m k).
Proof.
  intros Hm Hk s b s' (a & s1 & H1 & H2)%bind_Ret_inv HP.
  eapply Hk; [|exact H2|done]. by eapply Hm.
Qed.

Lemma looks_bind_r {A B} (P : B → Prop) (m : M A) (k : A → M B) :
  (∀ a, looks_if tokens P (k a)) → looks_if tokens P (bind m k).
Proof. intros Hk s b s' (a & s1 & H1 & H2)%bind_Ret_inv HP. by eapply Hk. Qed.

Lemma looks_check (P : ptr → Prop) (F : M ptr) (L : ptr → M ptr) :
  looks_if tokens is_null F → (∀ a, looks_if tokens P (L (Some a))) →
  looks_if tokens P (v <- F ;; CHECK_RET v (L v)).
Proof.
  intros HF HL s b s' (v & s1 & H1 & H2)%bind_Ret_inv HP.
  destruct v as [a|]; cbn [CHECK_RET] in H2; [by eapply HL|].
  unfold ret in H2. simplify_eq. by eapply HF.
Qed.

Lemma ahead_bind {A B} (P : B → Prop) (m : M A) (k : A → M B) :
  ahead_if tokens always m → (∀ a, ahead_if tokens P (k a)) →
  ahead_if tokens P (bind m k).
Proof.
  intros Hm Hk s b s' Hs (a & s1 & H1 & H2)%bind_Ret_inv HP.
  eapply Hk; [|exact H2|done]. by eapply Hm.
Qed.

Lemma ahead_ret {A} (P : A → Prop) (a : A) : ahead_if tokens P (ret a).
Proof. by intros s b s' Hs [= _ <-] _. Qed.

Lemma ahead_create_node (P : ptr → Prop) t v l r : ahead_if tokens P (create_node t v l r).
Proof. by intros s b s' Hs [= _ <-] _. Qed.

Lemma looks_CUR_TOKEN : looks_if tokens always (CUR_TOKEN tokens).
Proof.
  intros s a s' Hrun _. unfold CUR_TOKEN in Hrun.
  destruct (tokens !! id s) eqn:Hl; [|done]. simplify_eq. by eapply lookup_lt_Some.
Qed.

Lemma looks_CUR_TYPE : looks_if tokens always (CUR_TYPE tokens).
Proof. apply looks_bind_l; [apply looks_CUR_TOKEN | intros; apply ahead_ret]. Qed.

Lemma looks_CUR_OP : looks_if tokens always (CUR_OP tokens).
Proof. apply looks_bind_l; [apply looks_CUR_TOKEN | intros; apply ahead_ret]. Qed.

Lemma ahead_guard (f : Ops → bool) ty :
  ahead_if tokens always
    (if decide (ty = OP) then op <- CUR_OP tokens ;; ret (f op) else ret false).
Proof.
  case_decide; [|apply ahead_ret].
  apply ahead_of_looks, looks_bind_l; [apply looks_CUR_OP | intros; apply ahead_ret].
Qed.

Lemma never_bind_r {A B} (P : B → Prop) (m : M A) (k : A → M B) :
  (∀ a, never P (k a)) → never P (bind m k).
Proof. intros Hk s b s' (a & s1 & H1 & H2)%bind_Ret_inv. by eapply Hk. Qed.

Lemma never_ret_some a : never is_null (ret (Some a)).
Proof. by intros s b s' [= <- _]. Qed.

Lemma never_create_node t v l r : never is_null (create_node t v l r).
Proof. by intros s b s' [= <- _]. Qed.

Lemma never_check (F : M ptr) (L : ptr → M ptr) :
  never is_null F → (∀ a, never is_null (L (Some a))) →
  never is_null (v <- F ;; CHECK_RET v (L v)).
Proof.
  intros HF HL s b s' (v & s1 & H1 & H2)%bind_Ret_inv.
  destruct v as [a|]; cbn [CHECK_RET] in H2; [by eapply HL|].
  by destruct (HF _ _ _ H1).
Qed.

Lemma never_get_num : never is_null (get_num tokens).
Proof. unfold get_num, CR_NUM. do 2 (apply never_bind_r; intros ?). apply never_create_node. Qed.

(** One turn of an operator loop: the token is read, and then an operand is
    parsed or the loop is left where it is. *)
Lemma looks_loop_turn (go : Ops → bool) (val : ptr) (body : M ptr) :
  looks_if tokens always body →
  looks_if tokens always
    (ty <- CUR_TYPE tokens ;;
     b <- (if decide (ty = OP) then op <- CUR_OP tokens ;; ret (go op) else ret false) ;;
     if b : bool then body else ret val).
Proof.
  intros Hbody. apply looks_bind_l; [apply looks_CUR_TYPE|]. intros ty.
  apply ahead_bind; [apply ahead_guard|]. intros [|]; [by apply ahead_of_looks|].
  apply ahead_ret.
Qed.

Lemma expressions_look n :
  looks_if tokens always (get_add tokens n)
  ∧ (∀ val, looks_if tokens always (get_add_loop tokens n val))
  ∧ looks_if tokens always (get_mul tokens n)
  ∧ (∀ val, looks_if tokens always (get_mul_loop tokens n val))
  ∧ looks_if tokens always (get_pow tokens n)
  ∧ (∀ val, looks_if tokens always (get_pow_loop tokens n val))
  ∧ looks_if tokens is_null (get_par tokens n)
  ∧ looks_if tokens is_null (get_id tokens n).
Proof.
  induction n as [|n (IHadd & IHaddl & IHmul & IHmull & IHpow & IHpowl & IHpar & IHid)].
  { split_and!; intros; intros s a s'; discriminate. }
  split_and!; intros; simpl.
  - apply looks_check; [by apply looks_weaken | done].
  - apply looks_loop_turn. do 2 (apply looks_bind_r; intros ?).
    apply looks_check; [by apply looks_weaken|]. intros a1. by apply looks_bind_r.
  - apply looks_check; [by apply looks_weaken | done].
  - apply looks_loop_turn. do 2 (apply looks_bind_r; intros ?).
    apply looks_check; [by apply looks_weaken|]. intros a1. by apply looks_bind_r.
  - by apply looks_check.
  - apply looks_loop_turn. apply looks_bind_r; intros ?.
    apply looks_check; [done|]. intros a1. by apply looks_bind_r.
  - apply looks_bind_l; [apply looks_CUR_TYPE|]. intros ty.
    case_decide; [|case_decide].
    + apply ahead_of_looks, looks_bind_r. intros _.
      apply looks_check; [by apply looks_weaken|]. intros a.
      apply looks_bind_l; [apply looks_CUR_TYPE|]. intros ty'.
      destruct (bool_decide (ty' = CBR)); cbn [SYNTAX_CHECK]; [|apply ahead_ret].
      apply ahead_of_never, never_bind_r. intros _. apply never_ret_some.
    + apply ahead_of_never, never_check; [apply never_get_num|]. intros a. apply never_ret_some.
    + apply ahead_of_looks, looks_check; [done|]. intros a.
      apply looks_of_never, never_ret_some.
  - apply looks_bind_r. intros tok. apply looks_bind_r. intros name.
    apply looks_bind_r. intros ty.
    case_decide.
    + apply looks_bind_r. intros _.
      destruct (negb _); [|apply looks_of_never, never_create_node].
      apply looks_bind_l; [apply looks_CUR_TYPE|]. intros ty'.
      case_decide; [|apply ahead_ret].
      apply ahead_of_looks, looks_bind_r. intros _.
      apply looks_check; [by apply looks_weaken|]. intros a.
      apply looks_bind_l; [apply looks_CUR_TYPE|]. intros ty''.
      case_decide; [|apply ahead_ret].
      apply ahead_of_never, never_bind_r. intros _. apply never_create_node.
    + apply looks_of_never, never_bind_r. intros _. apply never_create_node.
Qed.

Lemma looks_get_ass n : looks_if tokens always (get_ass tokens n).
Proof.
  destruct (expressions_look n) as (Hadd & _ & _ & _ & _ & _ & _ & Hid).
  unfold get_ass. apply looks_check; [done|]. intros var.
  apply looks_bind_l; [apply looks_CUR_TYPE|]. intros ty.
  apply ahead_bind; [apply ahead_guard|]. intros [|]; [|apply ahead_ret].
  apply ahead_of_looks, looks_bind_r. intros _.
  apply looks_bind_l; [done|]. intros [expr|]; cbn [CHECK_RET];
    [apply ahead_create_node | apply ahead_ret].
Qed.

(** X13: [get_add], [get_mul], [get_pow] and [get_ass] look at the token
    that follows what they parse: whenever one of them returns, with a tree
    or with the null pointer, the cursor is on a token of the array.  None of
    them returns with the cursor at the end of the array, so an expression
    that ends the array is read past its end. *)
Theorem expression_looks_ahead fuel s p s' :
  get_add tokens fuel s = Ret p s'
  ∨ get_mul tokens fuel s = Ret p s'
  ∨ get_pow tokens fuel s = Ret p s'
  ∨ get_ass tokens fuel s = Ret p s' →
  id s' < length tokens.
Proof.
  destruct (expressions_look fuel) as (Hadd & _ & Hmul & _ & Hpow & _).
  intros [Hrun|[Hrun|[Hrun|Hrun]]].
  - by eapply Hadd.
  - by eapply Hmul.
  - by eapply Hpow.
  - by eapply looks_get_ass.
Qed.

End Run.

(** ** The facts above on token arrays *)

Lemma productions_consume_witness :
  ∃ s', get_add [tNUM 2; tSMC] 5 initial = Ret (Some 0) s' ∧ id initial < id s'.
Proof.
  eexists. split; [vm_compute; reflexivity|].
  apply (proj1 (proj2 (proj2 (proj2 (proj2
           (productions_consume [tNUM 2; tSMC] 5 initial _ (Some 0))))))).
  vm_compute. reflexivity.
Defined.

Lemma commands_terminate_witness :
  get_cmd [tVAR "x"; tOP ASS; tNUM 1; tSMC] 21 initial ≠ OutOfFuel.
Proof.
  apply (commands_terminate [tVAR "x"; tOP ASS; tNUM 1; tSMC] 21 initial).
  simpl. lia.
Defined.

Lemma keyword_statement_rejected_witness :
  ∃ s', get_cmd [tKWD "print"; tOBR; tNUM 1; tCBR; tSMC] 10 initial = Ret NULL s'.
Proof.
  destruct (get_cmd [tKWD "print"; tOBR; tNUM 1; tCBR; tSMC] 10 initial)
    as [p s'| |] eqn:Hrun.
  - exists s'.
    rewrite (proj1 (keyword_statement_rejected [tKWD "print"; tOBR; tNUM 1; tCBR; tSMC]
                      10 initial s' (tKWD "print") p eq_refl eq_refl
                      ltac:(discriminate) ltac:(discriminate)) Hrun).
    reflexivity.
  - vm_compute in Hrun. discriminate.
  - vm_compute in Hrun. discriminate.
Defined.

Lemma empty_scope_rejected_witness :
  get_scope [tOCBR; tCCBR; tSMC] 4 (mkState 0 3 [])
  = Ret NULL (mkState 2 0 [mkNode VAR (Var_val "") NULL NULL]).
Proof.
  exact (empty_scope_rejected [tOCBR; tCCBR; tSMC] 4 (mkState 0 3 []) tOCBR tCCBR tSMC []
           eq_refl eq_refl eq_refl eq_refl (le_n 4)).
Defined.

Lemma command_settles_debt_witness :
  ∃ p s',
    get_cmd [tVAR "x"; tOP ASS; tNUM 1; tSMC] 10 (mkState 0 2 []) = Ret (Some p) s'
    ∧ sce_debt s' = 0%N.
Proof.
  eexists _, _. split; [vm_compute; reflexivity|].
  refine (command_settles_debt [tVAR "x"; tOP ASS; tNUM 1; tSMC] 10 (mkState 0 2 []) _ _ _).
  vm_compute. reflexivity.
Defined.

Lemma get_scope_end_cycle_witness :
  get_scope_end 100 (Some 0) (mkState 0 0 [mkNode SCE No_val NULL (Some 0)]) = OutOfFuel.
Proof.
  apply (get_scope_end_cycle 100 _ 0 (fun b => b = 0)); [reflexivity|].
  intros b ->. eexists _, _. split_and!; reflexivity.
Defined.

Lemma expression_parsed_witness :
  ∃ p h',
    get_add [tNUM 2; tOP ADD; tVAR "x"; tSMC] 16 initial = Ret (Some p) (mkState 3 0 h')
    ∧ repr_in h' 0 (length h') (Some p)
        (Node OP (Op_val ADD)
           (Node NUM (Num_val 2) Leaf Leaf) (Node VAR (Var_val "x") Leaf Leaf)).
Proof.
  assert (Hg : g_add is_var [tNUM 2; tOP ADD; tVAR "x"]
                 (Node OP (Op_val ADD)
                    (Node NUM (Num_val 2) Leaf Leaf) (Node VAR (Var_val "x") Leaf Leaf))).
  { apply (g_add_op is_var [tNUM 2] _ (tOP ADD) [tVAR "x"] _); [|reflexivity|reflexivity|].
    - apply g_add_mul, g_mul_pow, g_pow_par, (g_par_num is_var (tNUM 2)). reflexivity.
    - apply g_mul_pow, g_pow_par, g_par_id; [discriminate | discriminate |].
      apply (g_id_var is_var (tVAR "x")); [discriminate | reflexivity]. }
  destruct (expression_parsed [tNUM 2; tOP ADD; tVAR "x"; tSMC] _ _ 16 initial tSMC []
              Hg eq_refl eq_refl (le_n 16)) as (p & h' & Hrun & Hrepr).
  exists p, h'. split; [exact Hrun | exact Hrepr].
Defined.

Lemma expression_accepted_witness :
  ∃ toks rest t h',
    drop 0 [tNUM 2; tOP ADD; tVAR "x"; tSMC] = toks ++ rest
    ∧ g_add reads_name toks t
    ∧ repr_in h' 0 (length h') (Some 2) t.
Proof.
  assert (∃ s', get_add [tNUM 2; tOP ADD; tVAR "x"; tSMC] 16 initial = Ret (Some 2) s')
    as [s' Hrun] by (eexists; vm_compute; reflexivity).
  destruct (expression_accepted [tNUM 2; tOP ADD; tVAR "x"; tSMC] 16 initial s' 2 Hrun)
    as (toks & rest & t & h' & Hdrop & Hg & _ & Hrepr).
  exists toks, rest, t, h'. split_and!; [exact Hdrop | exact Hg | exact Hrepr].
Defined.

Lemma assignment_parsed_witness :
  ∃ p h',
    get_cmd [tVAR "x"; tOP ASS; tNUM 1; tSMC] 9 (mkState 0 2 [])
    = Ret (Some p) (mkState 4 0 h')
    ∧ repr_in h' 0 (length h') (Some p)
        (Node SCE No_val Leaf
           (Node SCE No_val
              (Node OP (Op_val ASS)
                 (Node VAR (Var_val "x") Leaf Leaf) (Node NUM (Num_val 1) Leaf Leaf))
              Leaf)).
Proof.
  assert (Hg : g_add is_var [tNUM 1] (Node NUM (Num_val 1) Leaf Leaf)).
  { apply g_add_mul, g_mul_pow, g_pow_par, (g_par_num is_var (tNUM 1)). reflexivity. }
  destruct (assignment_parsed [tVAR "x"; tOP ASS; tNUM 1; tSMC] (tVAR "x") (tOP ASS) tSMC
              [tNUM 1] _ 9 (mkState 0 2 []) [] eq_refl eq_refl eq_refl Hg
              eq_refl eq_refl (le_n 9)) as (p & h' & Hrun & Hrepr).
  exists p, h'. split; [exact Hrun | exact Hrepr].
Defined.

Lemma statement_parsed_witness :
  ∃ p h',
    get_cmd [tKWD "while"; tOBR; tVAR "x"; tCBR; tOCBR;
             tVAR "x"; tOP ASS; tNUM 1; tSMC; tCCBR] 46 initial
    = Ret (Some p) (mkState 10 0 h')
    ∧ repr_in h' 0 (length h') (Some p)
        (Node SMC No_val
           (Node KWD (Var_val "while")
              (Node VAR (Var_val "x") Leaf Leaf)
              (Node SMC No_val
                 (Node OP (Op_val ASS)
                    (Node VAR (Var_val "x") Leaf Leaf) (Node NUM (Num_val 1) Leaf Leaf))
                 Leaf))
           Leaf).
Proof.
  assert (Hx : g_add is_var [tVAR "x"] (Node VAR (Var_val "x") Leaf Leaf)).
  { apply g_add_mul, g_mul_pow, g_pow_par, g_par_id; [discriminate | discriminate |].
    apply (g_id_var is_var (tVAR "x")); [discriminate | reflexivity]. }
  assert (H1 : g_add is_var [tNUM 1] (Node NUM (Num_val 1) Leaf Leaf)).
  { apply g_add_mul, g_mul_pow, g_pow_par, (g_par_num is_var (tNUM 1)). reflexivity. }
  assert (Hass : g_cmd is_var [tVAR "x"; tOP ASS; tNUM 1; tSMC]
                   (Node SMC No_val (assign_tree (tVAR "x") (Node NUM (Num_val 1) Leaf Leaf))
                      Leaf)).
  { apply (g_cmd_ass is_var (tVAR "x") (tOP ASS) [tNUM 1] _ tSMC);
      [discriminate | reflexivity | reflexivity | reflexivity | exact H1 | reflexivity]. }
  assert (Hg : g_cmd is_var [tKWD "while"; tOBR; tVAR "x"; tCBR; tOCBR;
                      tVAR "x"; tOP ASS; tNUM 1; tSMC; tCCBR]
                 (Node SMC No_val
                    (Node KWD (Var_val "while")
                       (Node VAR (Var_val "x") Leaf Leaf)
                       (Node SMC No_val
                          (assign_tree (tVAR "x") (Node NUM (Num_val 1) Leaf Leaf)) Leaf))
                    Leaf)).
  { apply (g_cmd_braces is_var (tKWD "while") tOBR [tVAR "x"] _ tCBR tOCBR
             [tVAR "x"; tOP ASS; tNUM 1; tSMC] _ tCCBR);
      [reflexivity | reflexivity | reflexivity | exact Hx | reflexivity | reflexivity
      | by apply g_cmds_last | reflexivity]. }
  destruct (statement_parsed
              [tKWD "while"; tOBR; tVAR "x"; tCBR; tOCBR;
               tVAR "x"; tOP ASS; tNUM 1; tSMC; tCCBR] _ _ 46 initial []
              Hg eq_refl eq_refl (le_n 46)) as (p & h' & Hrun & Hrepr).
  exists p, h'. split; [exact Hrun | exact Hrepr].
Defined.

Lemma block_parsed_witness :
  ∃ root h',
    get_scope [tOCBR; tVAR "x"; tOP ASS; tNUM 1; tSMC; tCCBR] 25 (mkState 0 1 [])
    = Ret (Some root) (mkState 6 1 h')
    ∧ repr_in h' 0 (length h') (Some root)
        (Node SCE No_val Leaf
           (Node SCS No_val
              (Node OP (Op_val ASS)
                 (Node VAR (Var_val "x") Leaf Leaf) (Node NUM (Num_val 1) Leaf Leaf))
              Leaf)).
Proof.
  assert (H1 : g_add is_var [tNUM 1] (Node NUM (Num_val 1) Leaf Leaf)).
  { apply g_add_mul, g_mul_pow, g_pow_par, (g_par_num is_var (tNUM 1)). reflexivity. }
  assert (Hg : g_stmts is_var [tVAR "x"; tOP ASS; tNUM 1; tSMC]
                 (Node SMC No_val (assign_tree (tVAR "x") (Node NUM (Num_val 1) Leaf Leaf))
                    Leaf)).
  { apply g_stmts_last; [discriminate|].
    apply (g_cmd_ass is_var (tVAR "x") (tOP ASS) [tNUM 1] _ tSMC);
      [discriminate | reflexivity | reflexivity | reflexivity | exact H1 | reflexivity]. }
  destruct (block_parsed [tOCBR; tVAR "x"; tOP ASS; tNUM 1; tSMC; tCCBR] tOCBR tCCBR
              [tVAR "x"; tOP ASS; tNUM 1; tSMC] _ 25 (mkState 0 1 []) []
              eq_refl Hg eq_refl eq_refl (le_n 25)) as (root & h' & Hrun & Hrepr).
  exists root, h'. split; [exact Hrun | exact Hrepr].
Defined.

Lemma productions_only_add_trees_witness :
  ∃ p s',
    get_scope [tOCBR; tVAR "x"; tOP ASS; tNUM 1; tSMC; tCCBR] 25
      (mkState 0 1 [mkNode NUM (Num_val 0) NULL NULL]) = Ret p s'
    ∧ fresh (mkState 0 1 [mkNode NUM (Num_val 0) NULL NULL]) s' p.
Proof.
  assert (∃ p s', get_scope [tOCBR; tVAR "x"; tOP ASS; tNUM 1; tSMC; tCCBR] 25
                    (mkState 0 1 [mkNode NUM (Num_val 0) NULL NULL]) = Ret p s')
    as (p & s' & Hrun) by (eexists _, _; vm_compute; reflexivity).
  exists p, s'. split; [exact Hrun|].
  apply (productions_only_add_trees [tOCBR; tVAR "x"; tOP ASS; tNUM 1; tSMC; tCCBR] 25
           _ p s').
  left. exact Hrun.
Defined.

Lemma expression_looks_ahead_witness :
  ∃ p s', get_add [tNUM 2; tSMC] 5 initial = Ret p s' ∧ id s' < length [tNUM 2; tSMC].
Proof.
  assert (∃ p s', get_add [tNUM 2; tSMC] 5 initial = Ret p s')
    as (p & s' & Hrun) by (eexists _, _; vm_compute; reflexivity).
  exists p, s'. split; [exact Hrun|].
  apply (expression_looks_ahead [tNUM 2; tSMC] 5 initial p s'). left. exact Hrun.
Defined.

Lemma empty_body_not_rejected_witness :
  ∃ p h',
    get_cond [tKWD "while"; tOBR; tVAR "x"; tCBR; tOCBR; tCCBR; tCCBR] 11 initial
    = Ret (Some p) (mkState 7 0 h')
    ∧ repr_in h' 0 (length h') (Some p)
        (Node KWD (Var_val "while") (Node VAR (Var_val "x") Leaf Leaf) Leaf).
Proof.
  assert (Hx : g_add is_var [tVAR "x"] (Node VAR (Var_val "x") Leaf Leaf)).
  { apply g_add_mul, g_mul_pow, g_pow_par, g_par_id; [discriminate | discriminate |].
    apply (g_id_var is_var (tVAR "x")); [discriminate | reflexivity]. }
  destruct (proj1 (empty_body_not_rejected
                     [tKWD "while"; tOBR; tVAR "x"; tCBR; tOCBR; tCCBR; tCCBR]
                     (tKWD "while") tOBR tCBR tOCBR tCCBR tCCBR [tVAR "x"] _ 11 initial []
                     eq_refl eq_refl eq_refl Hx eq_refl eq_refl eq_refl eq_refl eq_refl
                     (le_n 11)) eq_refl) as (p & h' & Hrun & Hrepr).
  exists p, h'. split; [exact Hrun | exact Hrepr].
Defined.

Lemma stray_token_dropped_witness :
  ∃ root h',
    get_scope [tOCBR; tVAR "x"; tOP ASS; tNUM 1; tSMC; tSMC; tCCBR] 25 initial
    = Ret (Some root) (mkState 7 1 h')
    ∧ repr_in h' 0 (length h') (Some root)
        (Node SCS No_val
           (Node OP (Op_val ASS)
              (Node VAR (Var_val "x") Leaf Leaf) (Node NUM (Num_val 1) Leaf Leaf))
           Leaf).
Proof.
  assert (H1 : g_add is_var [tNUM 1] (Node NUM (Num_val 1) Leaf Leaf)).
  { apply g_add_mul, g_mul_pow, g_pow_par, (g_par_num is_var (tNUM 1)). reflexivity. }
  assert (Hg : g_stmts is_var [tVAR "x"; tOP ASS; tNUM 1; tSMC]
                 (Node SMC No_val (assign_tree (tVAR "x") (Node NUM (Num_val 1) Leaf Leaf))
                    Leaf)).
  { apply g_stmts_last; [discriminate|].
    apply (g_cmd_ass is_var (tVAR "x") (tOP ASS) [tNUM 1] _ tSMC);
      [discriminate | reflexivity | reflexivity | reflexivity | exact H1 | reflexivity]. }
  destruct (stray_token_dropped [tOCBR; tVAR "x"; tOP ASS; tNUM 1; tSMC; tSMC; tCCBR]
              tOCBR tSMC tCCBR [tVAR "x"; tOP ASS; tNUM 1; tSMC] _ 25 initial []
              eq_refl Hg (or_introl eq_refl) eq_refl eq_refl (le_n 25))
    as (root & h' & Hrun & Hrepr).
  exists root, h'. split; [exact Hrun | exact Hrepr].
Defined.

End Productions.
